(** * Gallery tree model of loki-gallery

    A shallow embedding of the gallery tree helpers of the client page
    (findAndMutateMediaItem, getItemsForPath, parseFileSize, the flatten
    closure of allMediaItems, the processedItems pipeline,
    modifyItemsDeletedState, handleConfirmMove) and of the mock login
    service, with the properties stated about them. *)

From Stdlib Require Import String Ascii List ZArith Lia Bool SpecFloat.
From Stdlib Require Import Sorted Permutation.
From stdpp Require Import gmap strings.
Import ListNotations.

Set Warnings "-register-all".

Local Open Scope string_scope.
Local Open Scope list_scope.

(** ** Host functions the helpers call

    A string is the UTF-8 encoding of the text, one byte per character
    of the Rocq string.  White space is what [trim] and [parseFloat]
    strip: the WhiteSpace and LineTerminator code points of ECMAScript.
    Case mapping covers the ASCII letters; every other byte is left as
    it is.  Numbers are the IEEE 754 binary64 values of the Standard
    Library's [SpecFloat]: signed zeros, subnormals, the infinities and
    one NaN, with round-to-nearest-even arithmetic. *)

Module JS.

(** *** Strings *)

Definition code (c : ascii) : N := N_of_ascii c.

(** U+0009 to U+000D and U+0020. *)
Definition isWhiteSpace1 (c : ascii) : bool :=
  ((9 <=? code c) && (code c <=? 13))%N || (code c =? 32)%N.

(** U+00A0, encoded as C2 A0. *)
Definition isWhiteSpace2 (c1 c2 : ascii) : bool :=
  ((code c1 =? 194) && (code c2 =? 160))%N.

(** U+1680 (E1 9A 80), U+2000 to U+200A (E2 80 80 to E2 80 8A), U+2028,
    U+2029 (E2 80 A8, E2 80 A9), U+202F (E2 80 AF), U+205F (E2 81 9F),
    U+3000 (E3 80 80) and U+FEFF (EF BB BF). *)
Definition isWhiteSpace3 (c1 c2 c3 : ascii) : bool :=
  ((code c1 =? 225) && (code c2 =? 154) && (code c3 =? 128))%N
  || ((code c1 =? 226) && (code c2 =? 128)
      && (((128 <=? code c3) && (code c3 <=? 138))
          || (code c3 =? 168) || (code c3 =? 169) || (code c3 =? 175)))%N
  || ((code c1 =? 226) && (code c2 =? 129) && (code c3 =? 159))%N
  || ((code c1 =? 227) && (code c2 =? 128) && (code c3 =? 128))%N
  || ((code c1 =? 239) && (code c2 =? 187) && (code c3 =? 191))%N.

(** The rest of the string after the white-space code point it starts
    with, if it starts with one. *)
Definition skipWhiteSpace (s : string) : option string :=
  match s with
  | EmptyString => None
  | String c1 r1 =>
      if isWhiteSpace1 c1 then Some r1
      else match r1 with
           | EmptyString => None
           | String c2 r2 =>
               if isWhiteSpace2 c1 c2 then Some r2
               else match r2 with
                    | EmptyString => None
                    | String c3 r3 =>
                        if isWhiteSpace3 c1 c2 c3 then Some r3 else None
                    end
           end
  end.

Definition upperChar (c : ascii) : ascii :=
  let n := N_of_ascii c in
  if ((97 <=? n) && (n <=? 122))%N then ascii_of_N (n - 32) else c.

Definition lowerChar (c : ascii) : ascii :=
  let n := N_of_ascii c in
  if ((65 <=? n) && (n <=? 90))%N then ascii_of_N (n + 32) else c.

Fixpoint toUpperCase (s : string) : string :=
  match s with
  | EmptyString => EmptyString
  | String c r => String (upperChar c) (toUpperCase r)
  end.

Fixpoint toLowerCase (s : string) : string :=
  match s with
  | EmptyString => EmptyString
  | String c r => String (lowerChar c) (toLowerCase r)
  end.

Fixpoint trimStart (s : string) : string :=
  match s with
  | EmptyString => EmptyString
  | String c1 r1 =>
      if isWhiteSpace1 c1 then trimStart r1
      else match r1 with
           | EmptyString => s
           | String c2 r2 =>
               if isWhiteSpace2 c1 c2 then trimStart r2
               else match r2 with
                    | EmptyString => s
                    | String c3 r3 =>
                        if isWhiteSpace3 c1 c2 c3 then trimStart r3 else s
                    end
           end
  end.

(** Nothing but white space. *)
Definition isBlank (s : string) : bool := String.eqb (trimStart s) EmptyString.

(** The string up to its last character that is not white space: a
    character is kept as long as something other than white space
    follows or starts at it. *)
Fixpoint trimEnd (s : string) : string :=
  match s with
  | EmptyString => EmptyString
  | String c r => if isBlank s then EmptyString else String c (trimEnd r)
  end.

Definition trim (s : string) : string := trimEnd (trimStart s).

Definition startsWith (s pre : string) : bool := String.prefix pre s.

(** [s.includes(sub)] *)
Fixpoint includes (s sub : string) : bool :=
  String.prefix sub s ||
  match s with
  | EmptyString => false
  | String _ r => includes r sub
  end.

(** [arr.includes(x)] on an array of strings *)
Definition arrayIncludes (l : list string) (x : string) : bool :=
  existsb (String.eqb x) l.

(** [s.split(' ')]: the pieces between single spaces, empty pieces kept. *)
Fixpoint split_space (s : string) : list string :=
  match s with
  | EmptyString => [EmptyString]
  | String c r =>
      if Ascii.eqb c " "%char then EmptyString :: split_space r
      else match split_space r with
           | hd :: tl => String c hd :: tl
           | [] => [String c EmptyString]
           end
  end.

(** *** Numbers *)

Definition prec : Z := 53.
Definition emax : Z := 1024.

Definition number : Type := spec_float.

Definition NaN : number := S754_nan.
Definition Infinity (negative : bool) : number := S754_infinity negative.

(** The literal [0]. *)
Definition zero : number := S754_zero false.

(** The number nearest to an integer (the integer itself up to 2^53). *)
Definition fromZ (z : Z) : number := binary_normalize prec emax z 0 false.

Definition isNaN (v : number) : bool :=
  match v with S754_nan => true | _ => false end.

(** Value equality of numbers ([===]): NaN equals nothing, the two
    zeros are equal. *)
Definition number_eqb (a b : number) : bool := SFeqb a b.

Definition mul (a b : number) : number := SFmul prec emax a b.

Definition add (a b : number) : number := SFadd prec emax a b.

Definition sub (a b : number) : number := SFsub prec emax a b.

Definition negate (v : number) : number := SFopp v.

(** [v || 0] on a number: NaN and the two zeros are falsy. *)
Definition orZero (v : number) : number :=
  match v with
  | S754_nan | S754_zero _ => zero
  | _ => v
  end.

(** The sign a sort reads off a comparator result; NaN counts as zero. *)
Definition signOf (v : number) : Z :=
  match v with
  | S754_nan | S754_zero _ => 0
  | S754_infinity s | S754_finite s _ _ => if s then -1 else 1
  end.

(** *** parseFloat *)

Definition digitOf (c : ascii) : option N :=
  let n := N_of_ascii c in
  if ((48 <=? n) && (n <=? 57))%N then Some (n - 48)%N else None.

Fixpoint readDigits (s : string) : list N * string :=
  match s with
  | EmptyString => ([], EmptyString)
  | String c r =>
      match digitOf c with
      | Some d => let '(ds, rest) := readDigits r in (d :: ds, rest)
      | None => ([], s)
      end
  end.

Definition digitsValue (ds : list N) : N :=
  fold_left (fun acc d => (10 * acc + d)%N) ds 0%N.

(** The exponent part [e], [e+] or [e-] followed by digits; it counts
    only when at least one digit follows. *)
Definition readExponent (s : string) : Z :=
  match s with
  | String c r =>
      if Ascii.eqb c "e"%char || Ascii.eqb c "E"%char then
        let '(neg, r') :=
          match r with
          | String "-"%char r1 => (true, r1)
          | String "+"%char r1 => (false, r1)
          | _ => (false, r)
          end in
        match fst (readDigits r') with
        | [] => 0%Z
        | ds => let e := Z.of_N (digitsValue ds) in if neg then (- e)%Z else e
        end
      else 0%Z
  | EmptyString => 0%Z
  end.

(** The number nearest to the fraction n / d, ties to the even
    mantissa: the quotient and its remainder as the division of
    [SpecFloat] takes them, then its rounding. *)
Definition roundRatio (n d : positive) : number :=
  let '(q, e, l) := SFdiv_core_binary prec emax (Zpos n) 0 (Zpos d) 0 in
  binary_round_aux prec emax false q e l.

(** The number nearest to mantissa * 10^(exponent - fraction digits). *)
Definition decimalValue (mantissa : N) (fracDigits : nat) (exponent : Z) : number :=
  let k := (exponent - Z.of_nat fracDigits)%Z in
  match mantissa with
  | N0 => zero
  | Npos m =>
      if (0 <=? k)%Z then roundRatio (m * Z.to_pos (10 ^ k)) 1
      else roundRatio m (Z.to_pos (10 ^ (- k)))
  end.

(** The longest prefix that is an unsigned decimal literal. *)
Definition parseUnsigned (s : string) : number :=
  if String.prefix "Infinity" s then Infinity false
  else
    let '(ip, r1) := readDigits s in
    let '(fp, r2) :=
      match r1 with
      | String "."%char r => readDigits r
      | _ => ([], r1)
      end in
    match ip, fp with
    | [], [] => NaN
    | _, _ =>
        decimalValue (digitsValue (ip ++ fp)) (length fp) (readExponent r2)
    end.

Definition parseFloat (s : string) : number :=
  match trimStart s with
  | String "-"%char r => negate (parseUnsigned r)
  | String "+"%char r => parseUnsigned r
  | t => parseUnsigned t
  end.

End JS.

(** ** Data model (src/types/index.ts) *)

Module Gallery.

Inductive MediaType := PHOTO | VIDEO | FOLDER.

Inductive SelectionType :=
  NONE | OFF_SHEET | FRAME | FAMILY | GROOM_FAMILY | BRIDE_FAMILY.

(** [interface MediaItem]; the optional fields are options, [comment] is
    [string | null].  The [type] field only ranges over PHOTO and VIDEO. *)
Record MediaItem := mkMedia {
  m_id : string;
  m_video : bool;
  m_url : string;
  m_title : string;
  m_width : Z;
  m_height : Z;
  m_description : option string;
  m_likedBy : list string;
  m_comment : option string;
  m_date : string;
  m_fileSize : string;
  m_isDeleted : option bool;
  m_selection : option SelectionType
}.

(** [type GalleryContentItem = MediaItem | Folder]; the fields of
    [interface Folder] are the arguments of [FolderNode]. *)
Inductive GalleryContentItem :=
| Media (m : MediaItem)
| FolderNode (id name : string) (children : list GalleryContentItem)
             (isDeleted : option bool).

Definition item_id (n : GalleryContentItem) : string :=
  match n with
  | Media m => m_id m
  | FolderNode id _ _ _ => id
  end.

Definition item_type (n : GalleryContentItem) : MediaType :=
  match n with
  | Media m => if m_video m then VIDEO else PHOTO
  | FolderNode _ _ _ _ => FOLDER
  end.

Definition isFolder (n : GalleryContentItem) : bool :=
  match n with Media _ => false | FolderNode _ _ _ _ => true end.

Definition item_children (n : GalleryContentItem) : list GalleryContentItem :=
  match n with Media _ => [] | FolderNode _ _ ch _ => ch end.

Definition item_isDeleted (n : GalleryContentItem) : option bool :=
  match n with
  | Media m => m_isDeleted m
  | FolderNode _ _ _ d => d
  end.

(** Truthiness of the optional flag, as in [!item.isDeleted]. *)
Definition truthy (o : option bool) : bool :=
  match o with Some true => true | _ => false end.

(** ** flatten (the closure inside [allMediaItems]) *)

(** One iteration of the loop body: [all.push(item)], then the flattened
    children when the item is a folder. *)
Fixpoint flatten_item (item : GalleryContentItem) : list GalleryContentItem :=
  item ::
  match item with
  | Media _ => []
  | FolderNode _ _ ch _ => flat_map flatten_item ch
  end.

Definition flatten (items : list GalleryContentItem) : list GalleryContentItem :=
  flat_map flatten_item items.

(** ** findAndMutateMediaItem *)

(** The callback of [items.map]: a folder is copied with its children
    rewritten, a media item with the given id is replaced by
    [mutation item], any other item is returned as it is. *)
Fixpoint findAndMutateMediaItem_step (mediaId : string)
    (mutation : MediaItem -> MediaItem) (item : GalleryContentItem)
  : GalleryContentItem :=
  match item with
  | FolderNode id name ch d =>
      FolderNode id name (List.map (findAndMutateMediaItem_step mediaId mutation) ch) d
  | Media m =>
      if String.eqb (m_id m) mediaId then Media (mutation m) else item
  end.

Definition findAndMutateMediaItem (items : list GalleryContentItem)
    (mediaId : string) (mutation : MediaItem -> MediaItem)
  : list GalleryContentItem :=
  List.map (findAndMutateMediaItem_step mediaId mutation) items.

(** ** getItemsForPath *)

Record Breadcrumb := mkCrumb { crumb_id : string; crumb_name : string }.

Record PathResult := mkPathResult {
  pr_items : list GalleryContentItem;
  pr_breadcrumbs : list Breadcrumb;
  pr_currentFolder : option GalleryContentItem
}.

Definition homeCrumb : Breadcrumb := mkCrumb "root" "Home".

Definition item_name (n : GalleryContentItem) : string :=
  match n with
  | Media m => m_title m
  | FolderNode _ name _ _ => name
  end.

Definition notDeleted (item : GalleryContentItem) : bool :=
  negb (truthy (item_isDeleted item)).

(** [currentItems.find(item => item.id === folderId && item.type === FOLDER)] *)
Definition findFolder (currentItems : list GalleryContentItem) (folderId : string)
  : option GalleryContentItem :=
  List.find (fun item => String.eqb (item_id item) folderId && isFolder item)
            currentItems.

(** The [for (const folderId of path)] loop with its three variables. *)
Fixpoint getItemsForPath_loop (rootItems currentItems : list GalleryContentItem)
    (breadcrumbs : list Breadcrumb) (currentFolder : option GalleryContentItem)
    (path : list string) : PathResult :=
  match path with
  | [] => mkPathResult (List.filter notDeleted currentItems) breadcrumbs currentFolder
  | folderId :: rest =>
      match findFolder currentItems folderId with
      | Some f =>
          getItemsForPath_loop rootItems (item_children f)
            (breadcrumbs ++ [mkCrumb (item_id f) (item_name f)]) (Some f) rest
      | None =>
          mkPathResult (List.filter notDeleted rootItems) [homeCrumb] None
      end
  end.

(** [rootItems] is an array, so the [!rootItems] guard never fires. *)
Definition getItemsForPath (rootItems : list GalleryContentItem) (path : list string)
  : PathResult :=
  getItemsForPath_loop rootItems rootItems [homeCrumb] None path.

(** ** parseFileSize *)

Definition kilo : JS.number := JS.fromZ 1024.

Definition parseFileSize (sizeStr : string) : JS.number :=
  if String.eqb sizeStr EmptyString then JS.zero
  else
    match JS.split_space sizeStr with
    | part0 :: part1 :: _ =>
        let value := JS.parseFloat part0 in
        let unit := JS.toUpperCase part1 in
        if JS.isNaN value then JS.zero
        else if String.eqb unit "KB" then JS.mul value kilo
        else if String.eqb unit "MB" then JS.mul (JS.mul value kilo) kilo
        else if String.eqb unit "GB" then JS.mul (JS.mul (JS.mul value kilo) kilo) kilo
        else if String.eqb unit "TB" then
          JS.mul (JS.mul (JS.mul (JS.mul value kilo) kilo) kilo) kilo
        else value
    | _ => JS.orZero (JS.parseFloat sizeStr)
    end.

(** ** modifyItemsDeletedState *)

Definition setIsDeleted (item : GalleryContentItem) (isDeleted : bool)
  : GalleryContentItem :=
  match item with
  | Media m =>
      Media (mkMedia (m_id m) (m_video m) (m_url m) (m_title m) (m_width m)
               (m_height m) (m_description m) (m_likedBy m) (m_comment m)
               (m_date m) (m_fileSize m) (Some isDeleted) (m_selection m))
  | FolderNode id name ch _ => FolderNode id name ch (Some isDeleted)
  end.

Definition has (ids : gset string) (id : string) : bool := bool_decide (id ∈ ids).

(** The callback of [items.map] in [modifyRecursively]. *)
Fixpoint modifyRecursively_step (idsToModify : gset string) (isDeleted : bool)
    (item : GalleryContentItem) : GalleryContentItem :=
  if has idsToModify (item_id item) then setIsDeleted item isDeleted
  else
    match item with
    | FolderNode id name ch d =>
        FolderNode id name
          (List.map (modifyRecursively_step idsToModify isDeleted) ch) d
    | Media _ => item
    end.

Definition modifyRecursively (idsToModify : gset string) (isDeleted : bool)
    (items : list GalleryContentItem) : list GalleryContentItem :=
  List.map (modifyRecursively_step idsToModify isDeleted) items.

(** The new [galleryContent] that [modifyItemsDeletedState] stores. *)
Definition modifyItemsDeletedState (galleryContent : list GalleryContentItem)
    (selectedIds : gset string) (isDeleted : bool) : list GalleryContentItem :=
  modifyRecursively selectedIds isDeleted galleryContent.

(** ** handleConfirmMove *)

(** The [for (const item of items)] loop of [findAndRemove] around one
    iteration [step]: the results are [keptItems] and the new contents of
    the shared array [itemsToMove]. *)
Section RemoveLoop.
Variable step : GalleryContentItem -> list GalleryContentItem ->
                list GalleryContentItem * list GalleryContentItem.

Fixpoint findAndRemove_loop (items itemsToMove : list GalleryContentItem)
  : list GalleryContentItem * list GalleryContentItem :=
  match items with
  | [] => ([], itemsToMove)
  | item :: rest =>
      let '(pushed, moved1) := step item itemsToMove in
      let '(keptItems, moved2) := findAndRemove_loop rest moved1 in
      (pushed ++ keptItems, moved2)
  end.
End RemoveLoop.

(** One iteration: a targeted item goes to [itemsToMove]; a folder is kept
    with its children filtered by the recursive call; any other item is
    kept. *)
Fixpoint findAndRemove_step (idsToMove : gset string) (item : GalleryContentItem)
    (itemsToMove : list GalleryContentItem)
  : list GalleryContentItem * list GalleryContentItem :=
  if has idsToMove (item_id item) then ([], itemsToMove ++ [item])
  else
    match item with
    | FolderNode id name ch d =>
        let '(newChildren, moved) :=
          findAndRemove_loop (findAndRemove_step idsToMove) ch itemsToMove in
        ([FolderNode id name newChildren d], moved)
    | Media _ => ([item], itemsToMove)
    end.

Definition findAndRemove (idsToMove : gset string) (items : list GalleryContentItem)
    (itemsToMove : list GalleryContentItem)
  : list GalleryContentItem * list GalleryContentItem :=
  findAndRemove_loop (findAndRemove_step idsToMove) items itemsToMove.

(** The callback of [items.map] in [findAndAdd] (destination not root). *)
Fixpoint findAndAdd_step (destinationFolderId : string)
    (itemsToMove : list GalleryContentItem) (item : GalleryContentItem)
  : GalleryContentItem :=
  match item with
  | FolderNode id name ch d =>
      if String.eqb id destinationFolderId
      then FolderNode id name (ch ++ itemsToMove) d
      else FolderNode id name
             (List.map (findAndAdd_step destinationFolderId itemsToMove) ch) d
  | Media _ => item
  end.

Definition findAndAdd (destinationFolderId : string)
    (itemsToMove : list GalleryContentItem) (items : list GalleryContentItem)
  : list GalleryContentItem :=
  if String.eqb destinationFolderId "root" then items ++ itemsToMove
  else List.map (findAndAdd_step destinationFolderId itemsToMove) items.

(** moveItems: the tree [handleConfirmMove] stores for a destination. *)
Definition moveItems (galleryContent : list GalleryContentItem)
    (selectedIds : gset string) (destinationFolderId : string)
  : list GalleryContentItem :=
  let '(contentAfterRemoval, itemsToMove) :=
    findAndRemove selectedIds galleryContent [] in
  findAndAdd destinationFolderId itemsToMove contentAfterRemoval.

(** [destinationFolderId === null] leaves the content as it is. *)
Definition handleConfirmMove (galleryContent : list GalleryContentItem)
    (selectedIds : gset string) (destinationFolderId : option string)
  : list GalleryContentItem :=
  match destinationFolderId with
  | None => galleryContent
  | Some dest => moveItems galleryContent selectedIds dest
  end.


(** ** processedItems: source, filter, search, sort *)

Inductive SortOption :=
  DateDesc | DateAsc | NameAsc | NameDesc | SizeDesc | SizeAsc.
Inductive FilterOption :=
  FilterAll | FilterPhotos | FilterVideos | FilterFolders | FilterLiked
| FilterCommented.
Inductive SpecialView := ViewNone | ViewLiked | ViewCommented | ViewDeleted.

(** [Array.prototype.sort] with a comparator is a stable sort: the result
    is the stable insertion of each element, from the last to the first,
    before the first element it does not follow.  For a consistent
    comparator this is the one stable sorted arrangement, whichever
    algorithm the engine runs. *)
Section Sort.
Context {A : Type}.
Variable compareFn : A -> A -> JS.number.

Fixpoint sortInsert (x : A) (sorted : list A) : list A :=
  match sorted with
  | [] => [x]
  | y :: rest =>
      if (JS.signOf (compareFn x y) <=? 0)%Z then x :: sorted
      else y :: sortInsert x rest
  end.

Fixpoint sort (l : list A) : list A :=
  match l with
  | [] => []
  | x :: rest => sortInsert x (sort rest)
  end.
End Sort.

Section Pipeline.
(** [String.prototype.localeCompare] (negative, zero or positive) and
    [new Date(s).getTime()] (NaN for an invalid date) come from the
    host. *)
Variable localeCompare : string -> string -> Z.
Variable getTime : string -> JS.number.

Definition ofZ (z : Z) : JS.number := JS.fromZ z.

Definition compareNameAsc (a b : GalleryContentItem) : JS.number :=
  match a, b with
  | FolderNode _ _ _ _, Media _ => ofZ (-1)
  | Media _, FolderNode _ _ _ _ => ofZ 1
  | _, _ => ofZ (localeCompare (item_name a) (item_name b))
  end.

Definition compareNameDesc (a b : GalleryContentItem) : JS.number :=
  match a, b with
  | FolderNode _ _ _ _, Media _ => ofZ (-1)
  | Media _, FolderNode _ _ _ _ => ofZ 1
  | _, _ => ofZ (localeCompare (item_name b) (item_name a))
  end.

(** The four date and size comparators differ in the last line only. *)
Definition compareMedia (byMedia : MediaItem -> MediaItem -> JS.number)
    (a b : GalleryContentItem) : JS.number :=
  match a, b with
  | FolderNode _ _ _ _, Media _ => ofZ (-1)
  | Media _, FolderNode _ _ _ _ => ofZ 1
  | FolderNode _ na _ _, FolderNode _ nb _ _ => ofZ (localeCompare na nb)
  | Media ma, Media mb => byMedia ma mb
  end.

Definition compareDateAsc :=
  compareMedia (fun a b => JS.sub (getTime (m_date a)) (getTime (m_date b))).
Definition compareDateDesc :=
  compareMedia (fun a b => JS.sub (getTime (m_date b)) (getTime (m_date a))).
Definition compareSizeAsc :=
  compareMedia (fun a b =>
    JS.sub (parseFileSize (m_fileSize a)) (parseFileSize (m_fileSize b))).
Definition compareSizeDesc :=
  compareMedia (fun a b =>
    JS.sub (parseFileSize (m_fileSize b)) (parseFileSize (m_fileSize a))).

(** The [switch (sortOption)] at the end of [processedItems]. *)
Definition sortItems (sortOption : SortOption)
    (searchedItems : list GalleryContentItem) : list GalleryContentItem :=
  match sortOption with
  | NameAsc => sort compareNameAsc searchedItems
  | NameDesc => sort compareNameDesc searchedItems
  | DateAsc => sort compareDateAsc searchedItems
  | SizeDesc => sort compareSizeDesc searchedItems
  | SizeAsc => sort compareSizeAsc searchedItems
  | DateDesc => sort compareDateDesc searchedItems
  end.

(** [!!item.comment?.trim()] *)
Definition hasComment (m : MediaItem) : bool :=
  match m_comment m with
  | Some c => negb (String.eqb (JS.trim c) EmptyString)
  | None => false
  end.

Definition isDateSort (o : SortOption) : bool :=
  match o with DateDesc | DateAsc => true | _ => false end.

Definition isSpecialFilter (f : FilterOption) : bool :=
  match f with FilterAll | FilterFolders => false | _ => true end.

Definition selectSource (specialView : SpecialView) (userId : string)
    (currentItems allMediaItems : list GalleryContentItem)
  : list GalleryContentItem :=
  match specialView with
  | ViewLiked =>
      List.filter (fun item =>
        match item with
        | Media m => JS.arrayIncludes (m_likedBy m) userId
                     && negb (truthy (m_isDeleted m))
        | FolderNode _ _ _ _ => false
        end) allMediaItems
  | ViewCommented =>
      List.filter (fun item =>
        match item with
        | Media m => hasComment m && negb (truthy (m_isDeleted m))
        | FolderNode _ _ _ _ => false
        end) allMediaItems
  | ViewDeleted =>
      List.filter (fun item => truthy (item_isDeleted item)) allMediaItems
  | ViewNone => currentItems
  end.

Definition keepByFilter (filterOption : FilterOption) (sortOption : SortOption)
    (userId : string) (item : GalleryContentItem) : bool :=
  if isDateSort sortOption && isFolder item then false
  else if isSpecialFilter filterOption && isFolder item then false
  else
    match filterOption, item with
    | FilterAll, _ => true
    | FilterPhotos, Media m => negb (m_video m)
    | FilterPhotos, FolderNode _ _ _ _ => false
    | FilterVideos, Media m => m_video m
    | FilterVideos, FolderNode _ _ _ _ => false
    | FilterFolders, _ => isFolder item
    | FilterLiked, Media m => JS.arrayIncludes (m_likedBy m) userId
    | FilterLiked, FolderNode _ _ _ _ => false
    | FilterCommented, Media m => hasComment m
    | FilterCommented, FolderNode _ _ _ _ => false
    end.

Definition matchesSearch (specialView : SpecialView) (filterOption : FilterOption)
    (lowercasedQuery : string) (item : GalleryContentItem) : bool :=
  match item with
  | FolderNode _ name _ _ => JS.includes (JS.toLowerCase name) lowercasedQuery
  | Media m =>
      let isCommentFiltered :=
        match specialView, filterOption with
        | ViewCommented, _ | _, FilterCommented => true
        | _, _ => false
        end in
      let titleMatch := JS.includes (JS.toLowerCase (m_title m)) lowercasedQuery in
      if isCommentFiltered then
        titleMatch ||
        match m_comment m with
        | Some c => JS.includes (JS.toLowerCase c) lowercasedQuery
        | None => false
        end
      else titleMatch
  end.

Definition processedItems (specialView : SpecialView)
    (filterOption : FilterOption) (searchQuery : string)
    (sortOption : SortOption) (userId : string)
    (currentItems allMediaItems : list GalleryContentItem)
  : list GalleryContentItem :=
  let sourceItems := selectSource specialView userId currentItems allMediaItems in
  let filteredItems :=
    List.filter (keepByFilter filterOption sortOption userId) sourceItems in
  let searchedItems :=
    if negb (String.eqb (JS.trim searchQuery) EmptyString) then
      List.filter
        (matchesSearch specialView filterOption (JS.toLowerCase searchQuery))
        filteredItems
    else filteredItems in
  sortItems sortOption searchedItems.
End Pipeline.

End Gallery.

(** ** The mock login service *)

Module AuthService.

Record User := mkUser {
  u_id : string;
  u_username : string;
  u_password : string;
  u_name : string;
  u_profileImageUrl : option string
}.

Record ClientData := mkClient {
  cd_user : User;
  cd_gallery : list Gallery.GalleryContentItem
}.

(** How the promise settles (the one-second timer is not represented). *)
Inductive Settled (A : Type) :=
| Resolved (value : A)
| Rejected (message : string).
Arguments Resolved {A} value.
Arguments Rejected {A} message.

(** [MOCK_CLIENT_DATA] (data/mockData) is the first argument. *)
Definition login (MOCK_CLIENT_DATA : list ClientData) (username password : string)
  : Settled User :=
  match List.find (fun client =>
           String.eqb (u_username (cd_user client)) username
           && String.eqb (u_password (cd_user client)) password)
         MOCK_CLIENT_DATA with
  | Some clientData => Resolved (cd_user clientData)
  | None => Rejected "Invalid username or password."
  end.

End AuthService.

(** ** Further helpers and handlers of the gallery page *)

Module Handlers.
Import Gallery.

(** *** Host functions *)

(** [parts.join(sep)] *)
Fixpoint join (sep : string) (parts : list string) : string :=
  match parts with
  | [] => EmptyString
  | [p] => p
  | p :: rest => (p ++ sep ++ join sep rest)%string
  end.

(** [a + b] on numbers *)
Definition add (a b : JS.number) : JS.number := JS.add a b.

(** *** findPathStringForMediaItem *)

(** Truthiness of a [string | null]: null and the empty string are
    falsy. *)
Definition isTruthyString (o : option string) : bool :=
  match o with
  | Some s => negb (String.eqb s EmptyString)
  | None => false
  end.

(** A [for] loop whose body either returns a value or goes on; after the
    loop the function returns null. *)
Section ReturningLoop.
Variable body : GalleryContentItem -> option string.

Fixpoint firstReturn (items : list GalleryContentItem) : option string :=
  match items with
  | [] => None
  | item :: rest =>
      match body item with
      | Some result => Some result
      | None => firstReturn rest
      end
  end.
End ReturningLoop.

(** One iteration: the joined path when the id matches, the path found
    among a folder's children when that is truthy, and otherwise on to the
    next item. *)
Fixpoint findPathString_step (mediaId : string) (currentPath : list string)
    (item : GalleryContentItem) : option string :=
  if String.eqb (item_id item) mediaId then Some (join " / " currentPath)
  else
    match item with
    | FolderNode _ name ch _ =>
        let foundPath :=
          firstReturn (findPathString_step mediaId (currentPath ++ [name])) ch in
        if isTruthyString foundPath then foundPath else None
    | Media _ => None
    end.

Definition findPathStringForMediaItem (items : list GalleryContentItem)
    (mediaId : string) (currentPath : list string) : option string :=
  firstReturn (findPathString_step mediaId currentPath) items.

(** The call with the default [currentPath = ['Home']]. *)
Definition findPathString (items : list GalleryContentItem) (mediaId : string)
  : option string :=
  findPathStringForMediaItem items mediaId ["Home"].

(** *** getFolderStats (inside calculateFolderInfo) *)

Record FolderStats := mkStats {
  folderCount : nat;
  photoCount : nat;
  videoCount : nat;
  totalSizeInBytes : JS.number;
  likedCount : nat;
  commentCount : nat;
  dates : list JS.number
}.

Definition emptyStats : FolderStats := mkStats 0 0 0 JS.zero 0 0 [].

Section Stats.
(** [new Date(s).getTime()] comes from the host. *)
Variable getTime : string -> JS.number.

(** One iteration of the loop over [items], from the statistics so far. *)
Fixpoint getFolderStats_step (userId : string) (stats : FolderStats)
    (item : GalleryContentItem) : FolderStats :=
  if truthy (item_isDeleted item) then stats
  else
    match item with
    | FolderNode _ _ ch _ =>
        let subFolderStats :=
          fold_left (getFolderStats_step userId) ch emptyStats in
        mkStats (S (folderCount stats) + folderCount subFolderStats)
                (photoCount stats + photoCount subFolderStats)
                (videoCount stats + videoCount subFolderStats)
                (add (totalSizeInBytes stats) (totalSizeInBytes subFolderStats))
                (likedCount stats + likedCount subFolderStats)
                (commentCount stats + commentCount subFolderStats)
                (dates stats ++ dates subFolderStats)
    | Media m =>
        mkStats (folderCount stats)
                (if m_video m then photoCount stats else S (photoCount stats))
                (if m_video m then S (videoCount stats) else videoCount stats)
                (add (totalSizeInBytes stats) (parseFileSize (m_fileSize m)))
                (if JS.arrayIncludes (m_likedBy m) userId
                 then S (likedCount stats) else likedCount stats)
                (if hasComment m then S (commentCount stats) else commentCount stats)
                (dates stats ++ [getTime (m_date m)])
    end.

Definition getFolderStats (items : list GalleryContentItem) (userId : string)
  : FolderStats :=
  fold_left (getFolderStats_step userId) items emptyStats.

(** [totalCount] of the folder information. *)
Definition totalCount (stats : FolderStats) : nat :=
  folderCount stats + photoCount stats + videoCount stats.
End Stats.

(** *** handleDownloadAction *)

(** One iteration of the loop of [collectFiles]. *)
Fixpoint collectFiles_step (item : GalleryContentItem) : list MediaItem :=
  match item with
  | FolderNode _ _ ch d =>
      if negb (truthy d) then flat_map collectFiles_step ch else []
  | Media m => if negb (truthy (m_isDeleted m)) then [m] else []
  end.

Definition collectFiles (galleryItems : list GalleryContentItem) : list MediaItem :=
  flat_map collectFiles_step galleryItems.

(** [items.filter(keep) as MediaItem[]] for a [keep] that rejects
    folders. *)
Definition filterMedia (keep : MediaItem -> bool) (items : list GalleryContentItem)
  : list MediaItem :=
  flat_map (fun item =>
              match item with
              | Media m => if keep m then [m] else []
              | FolderNode _ _ _ _ => []
              end) items.

Inductive DownloadType :=
  DownloadCurrent | DownloadRecursive | DownloadAll | DownloadLiked
| DownloadCommented.

(** What a call either returns or throws. *)
Inductive Outcome (A : Type) :=
| Returned (value : A)
| Threw.
Arguments Returned {A} value.
Arguments Threw {A}.

(** The loop over [currentPath] of the 'recursive' case.  [currentLevel]
    is [None] once it has been set to the [children] of an item that has
    none; calling [find] on it throws. *)
Fixpoint recursiveRoot (currentLevel : option (list GalleryContentItem))
    (currentFolder : option GalleryContentItem) (currentPath : list string)
  : Outcome (option GalleryContentItem) :=
  match currentPath with
  | [] => Returned currentFolder
  | folderId :: rest =>
      match currentLevel with
      | None => Threw
      | Some level =>
          match List.find (fun item => String.eqb (item_id item) folderId) level with
          | Some found =>
              recursiveRoot
                (match found with
                 | FolderNode _ _ ch _ => Some ch
                 | Media _ => None
                 end) (Some found) rest
          | None => Returned None
          end
      end
  end.

(** [filesToDownload] for each type. *)
Definition handleDownloadAction (type : DownloadType)
    (galleryContent : list GalleryContentItem) (currentPath : list string)
    (userId : string) : Outcome (list MediaItem) :=
  match type with
  | DownloadCurrent =>
      Returned (filterMedia (fun _ => true)
                  (pr_items (getItemsForPath galleryContent currentPath)))
  | DownloadRecursive =>
      match currentPath with
      | [] => Returned (collectFiles galleryContent)
      | _ :: _ =>
          match recursiveRoot (Some galleryContent) None currentPath with
          | Threw => Threw
          | Returned (Some currentFolder) => Returned (collectFiles [currentFolder])
          | Returned None => Returned (collectFiles [])
          end
      end
  | DownloadAll =>
      Returned (filterMedia (fun m => negb (truthy (m_isDeleted m)))
                  (flatten galleryContent))
  | DownloadLiked =>
      Returned (filterMedia (fun m => JS.arrayIncludes (m_likedBy m) userId
                                      && negb (truthy (m_isDeleted m)))
                  (flatten galleryContent))
  | DownloadCommented =>
      Returned (filterMedia (fun m => hasComment m
                                      && negb (truthy (m_isDeleted m)))
                  (flatten galleryContent))
  end.

(** *** handleLike, handleSetComment, handleSetSelection *)

(** [{ ...item, likedBy }], [{ ...item, comment }], [{ ...item, selection }] *)
Definition withLikedBy (m : MediaItem) (likedBy : list string) : MediaItem :=
  mkMedia (m_id m) (m_video m) (m_url m) (m_title m) (m_width m) (m_height m)
          (m_description m) likedBy (m_comment m) (m_date m) (m_fileSize m)
          (m_isDeleted m) (m_selection m).

Definition withComment (m : MediaItem) (comment : option string) : MediaItem :=
  mkMedia (m_id m) (m_video m) (m_url m) (m_title m) (m_width m) (m_height m)
          (m_description m) (m_likedBy m) comment (m_date m) (m_fileSize m)
          (m_isDeleted m) (m_selection m).

Definition withSelection (m : MediaItem) (selection : SelectionType) : MediaItem :=
  mkMedia (m_id m) (m_video m) (m_url m) (m_title m) (m_width m) (m_height m)
          (m_description m) (m_likedBy m) (m_comment m) (m_date m) (m_fileSize m)
          (m_isDeleted m) (Some selection).

(** [likedBy.filter(id => id !== userId)] *)
Definition withoutUser (userId : string) (likedBy : list string) : list string :=
  List.filter (fun id => negb (String.eqb id userId)) likedBy.

(** The mutation of [handleLike]. *)
Definition toggleLike (userId : string) (item : MediaItem) : MediaItem :=
  let isLiked := JS.arrayIncludes (m_likedBy item) userId in
  withLikedBy item
    (if isLiked then withoutUser userId (m_likedBy item)
     else m_likedBy item ++ [userId]).

(** What a handler with an optimistic update leaves behind: the content
    right after the update, how the simulated request settles, and the
    content after that. *)
Record Optimistic := mkOptimistic {
  op_updated : list GalleryContentItem;
  op_error : option string;
  op_final : list GalleryContentItem
}.

(** The snapshot [JSON.parse(JSON.stringify(galleryContent))] is taken as
    the content itself. *)
Definition handleLike (galleryContent : list GalleryContentItem)
    (userId mediaId : string) : Optimistic :=
  let originalContent := galleryContent in
  let newContent := findAndMutateMediaItem galleryContent mediaId (toggleLike userId) in
  if String.eqb mediaId "p2"
  then mkOptimistic newContent (Some "Network error. Could not save like.")
                    originalContent
  else mkOptimistic newContent None newContent.

Definition finalComment (commentText : string) : option string :=
  let newText := JS.trim commentText in
  if (0 <? String.length newText)%nat then Some newText else None.

Definition handleSetComment (galleryContent : list GalleryContentItem)
    (mediaId commentText : string) : Optimistic :=
  let originalContent := galleryContent in
  let newContent :=
    findAndMutateMediaItem galleryContent mediaId
      (fun item => withComment item (finalComment commentText)) in
  if JS.includes (JS.toLowerCase commentText) "fail"
  then mkOptimistic newContent
         (Some "Failed to save comment due to server policy.") originalContent
  else mkOptimistic newContent None newContent.

Definition handleSetSelection (galleryContent : list GalleryContentItem)
    (mediaId : string) (selection : SelectionType) : Optimistic :=
  let newContent :=
    findAndMutateMediaItem galleryContent mediaId
      (fun item => withSelection item selection) in
  mkOptimistic newContent None newContent.

(** *** Selection state *)

Definition handleToggleSelectItem (selectedIds : gset string) (id : string)
  : gset string :=
  if has selectedIds id then selectedIds ∖ {[ id ]} else selectedIds ∪ {[ id ]}.

Definition areAllSelected (processedItems : list GalleryContentItem)
    (selectedIds : gset string) : bool :=
  if (length processedItems =? 0)%nat then false
  else forallb (fun item => has selectedIds (item_id item)) processedItems.

Definition handleToggleSelectAll (processedItems : list GalleryContentItem)
    (selectedIds : gset string) : gset string :=
  if areAllSelected processedItems selectedIds then ∅
  else list_to_set (List.map item_id processedItems).

Definition selectedMediaItems (processedItems : list GalleryContentItem)
    (selectedIds : gset string) : list MediaItem :=
  filterMedia (fun m => has selectedIds (m_id m)) processedItems.

Definition areAllSelectedLiked (selected : list MediaItem) (userId : string) : bool :=
  if (length selected =? 0)%nat then false
  else forallb (fun item => JS.arrayIncludes (m_likedBy item) userId) selected.

(** *** handleLikeSelected and handleSetBatchComment *)

(** The callback of [items.map] in [findAndMutate] of [handleLikeSelected]. *)
Fixpoint likeSelected_step (mediaIdsToUpdate : gset string) (shouldLike : bool)
    (userId : string) (item : GalleryContentItem) : GalleryContentItem :=
  match item with
  | FolderNode id name ch d =>
      FolderNode id name
        (List.map (likeSelected_step mediaIdsToUpdate shouldLike userId) ch) d
  | Media m =>
      if has mediaIdsToUpdate (m_id m) then
        let isLiked := JS.arrayIncludes (m_likedBy m) userId in
        if shouldLike && negb isLiked
        then Media (withLikedBy m (m_likedBy m ++ [userId]))
        else if negb shouldLike && isLiked
        then Media (withLikedBy m (withoutUser userId (m_likedBy m)))
        else item
      else item
  end.

(** The content [handleLikeSelected] stores. *)
Definition handleLikeSelected (galleryContent processedItems : list GalleryContentItem)
    (selectedIds : gset string) (userId : string) : list GalleryContentItem :=
  let selected := selectedMediaItems processedItems selectedIds in
  if (length selected =? 0)%nat then galleryContent
  else
    let mediaIdsToUpdate : gset string := list_to_set (List.map m_id selected) in
    let shouldLike := negb (areAllSelectedLiked selected userId) in
    List.map (likeSelected_step mediaIdsToUpdate shouldLike userId) galleryContent.

(** The callback of [items.map] in [findAndMutate] of
    [handleSetBatchComment]. *)
Fixpoint batchComment_step (mediaIdsToUpdate : gset string)
    (comment : option string) (item : GalleryContentItem) : GalleryContentItem :=
  match item with
  | FolderNode id name ch d =>
      FolderNode id name (List.map (batchComment_step mediaIdsToUpdate comment) ch) d
  | Media m =>
      if has mediaIdsToUpdate (m_id m) then Media (withComment m comment) else item
  end.

(** The content [handleSetBatchComment] stores ([None] when it rejects
    with "No items to update."). *)
Definition handleSetBatchComment (galleryContent processedItems : list GalleryContentItem)
    (selectedIds : gset string) (commentText : string)
  : option (list GalleryContentItem) :=
  let selected := selectedMediaItems processedItems selectedIds in
  if (length selected =? 0)%nat then None
  else
    let mediaIdsToUpdate : gset string := list_to_set (List.map m_id selected) in
    Some (List.map (batchComment_step mediaIdsToUpdate (finalComment commentText))
            galleryContent).

(** *** handleSoftDeleteItem and handlePermanentDeleteSelected *)

(** The callback of [items.map] in [modifyRecursively] of
    [handleSoftDeleteItem]. *)
Fixpoint softDeleteItem_step (itemId : string) (item : GalleryContentItem)
  : GalleryContentItem :=
  if String.eqb (item_id item) itemId then setIsDeleted item true
  else
    match item with
    | FolderNode id name ch d =>
        FolderNode id name (List.map (softDeleteItem_step itemId) ch) d
    | Media _ => item
    end.

Definition handleSoftDeleteItem (galleryContent : list GalleryContentItem)
    (itemId : string) : list GalleryContentItem :=
  List.map (softDeleteItem_step itemId) galleryContent.

(** [items.filter(keep).map(f)] in one pass. *)
Section FilterMap.
Variable keep : GalleryContentItem -> bool.
Variable f : GalleryContentItem -> GalleryContentItem.

Fixpoint filterThenMap (items : list GalleryContentItem) : list GalleryContentItem :=
  match items with
  | [] => []
  | item :: rest =>
      if keep item then f item :: filterThenMap rest else filterThenMap rest
  end.
End FilterMap.

(** The callback of [.map] in [deleteRecursively]. *)
Fixpoint deleteRecursively_step (idsToDelete : gset string)
    (item : GalleryContentItem) : GalleryContentItem :=
  match item with
  | FolderNode id name ch d =>
      FolderNode id name
        (filterThenMap (fun i => negb (has idsToDelete (item_id i)))
                       (deleteRecursively_step idsToDelete) ch) d
  | Media _ => item
  end.

Definition deleteRecursively (idsToDelete : gset string)
    (items : list GalleryContentItem) : list GalleryContentItem :=
  filterThenMap (fun i => negb (has idsToDelete (item_id i)))
                (deleteRecursively_step idsToDelete) items.

(** *** handleConfirmNewFolder *)

Fixpoint addFolderToPath (newFolder : GalleryContentItem)
    (items : list GalleryContentItem) (path : list string)
  : list GalleryContentItem :=
  match path with
  | [] => items ++ [newFolder]
  | currentId :: restPath =>
      List.map (fun item =>
                  match item with
                  | FolderNode id name ch d =>
                      if String.eqb id currentId
                      then FolderNode id name (addFolderToPath newFolder ch restPath) d
                      else item
                  | Media _ => item
                  end) items
  end.

(** The content after the handler; [freshId] stands for the id made from
    the clock and the random generator. *)
Definition handleConfirmNewFolder (galleryContent : list GalleryContentItem)
    (currentPath : list string) (newFolderName freshId : string)
  : list GalleryContentItem :=
  if String.eqb (JS.trim newFolderName) EmptyString then galleryContent
  else
    addFolderToPath (FolderNode freshId (JS.trim newFolderName) [] None)
                    galleryContent currentPath.

(** *** handleBreadcrumbClick and handleNavigation *)

(** [prevPath.slice(0, pathIndex)] for an index of the breadcrumb row. *)
Definition handleBreadcrumbClick (currentPath : list string) (pathIndex : nat)
  : list string :=
  take pathIndex currentPath.

Inductive Direction := Next | Previous.

Definition handleNavigation (selectedMediaIndex : option Z) (displayable : nat)
    (direction : Direction) : option Z :=
  match selectedMediaIndex with
  | None => None
  | Some index =>
      let newIndex :=
        match direction with Next => (index + 1)%Z | Previous => (index - 1)%Z end in
      if ((0 <=? newIndex) && (newIndex <? Z.of_nat displayable))%Z
      then Some newIndex else Some index
  end.

End Handlers.

(** ** The mock media service *)

Module MediaService.
Import AuthService.

(** [MOCK_CLIENT_DATA] is the first argument, as for [login]. *)
Definition getMediaForUser (MOCK_CLIENT_DATA : list ClientData) (userId : string)
  : Settled (list Gallery.GalleryContentItem) :=
  match List.find (fun client => String.eqb (u_id (cd_user client)) userId)
                  MOCK_CLIENT_DATA with
  | Some clientData => Resolved (cd_gallery clientData)
  | None => Rejected "Could not find media for this user."
  end.

End MediaService.

(** ** The move dialog (components/MoveToFolderModal.tsx) *)

Module MoveDialog.
Import Gallery.

(** One iteration of [items.forEach] in [buildMap]: the item is stored
    under its id, then the children of a folder are. *)
Fixpoint buildMap_step (allItemsMap : gmap string GalleryContentItem)
    (item : GalleryContentItem) : gmap string GalleryContentItem :=
  let stored := <[ item_id item := item ]> allItemsMap in
  match item with
  | FolderNode _ _ ch _ => fold_left buildMap_step ch stored
  | Media _ => stored
  end.

Definition buildMap (items : list GalleryContentItem)
    (allItemsMap : gmap string GalleryContentItem)
  : gmap string GalleryContentItem :=
  fold_left buildMap_step items allItemsMap.

(** [getDescendantIds] follows ids through the map, so its recursion is
    bounded by a depth of nested depth: [None] stands for a computation
    that would nest deeper than the bound. *)
Fixpoint getDescendantIds (depth : nat)
    (allItemsMap : gmap string GalleryContentItem) (folderId : string)
    (disabledIds : gset string) : option (gset string) :=
  match depth with
  | O => None
  | S depth' =>
      match allItemsMap !! folderId with
      | Some (FolderNode id _ ch _) =>
          fold_left
            (fun acc child =>
               match acc with
               | None => None
               | Some disabled =>
                   match child with
                   | FolderNode childId _ _ _ =>
                       getDescendantIds depth' allItemsMap childId disabled
                   | Media _ => Some disabled
                   end
               end)
            ch (Some ({[ id ]} ∪ disabledIds))
      | _ => Some disabledIds
      end
  end.

(** The set [disabledFolderIds] of the dialog; the moving ids are visited
    in the order of [elements]. *)
Definition disabledFolderIds (depth : nat) (galleryContent : list GalleryContentItem)
    (movingItemIds : gset string) : option (gset string) :=
  let allItemsMap := buildMap galleryContent ∅ in
  fold_left
    (fun acc id =>
       match acc with
       | None => None
       | Some disabled =>
           match allItemsMap !! id with
           | Some (FolderNode _ _ _ _) =>
               getDescendantIds depth allItemsMap id disabled
           | _ => Some disabled
           end
       end)
    (elements movingItemIds) (Some ∅).

End MoveDialog.

(** ** Sample data *)

Module Samples.
Import Gallery.

Definition photo (id title : string) : MediaItem :=
  mkMedia id false "media.jpg" title 800 600 None [] None "2024-05-01T10:00:00Z"
          "4.2 MB" None None.

Definition deletedPhoto (id title : string) : MediaItem :=
  mkMedia id false "media.jpg" title 800 600 None [] None "2024-05-01T10:00:00Z"
          "4.2 MB" (Some true) None.

(** The transform of [handleSetSelection]: [{ ...item, selection }]. *)
Definition setSelection (selection : SelectionType) (m : MediaItem) : MediaItem :=
  mkMedia (m_id m) (m_video m) (m_url m) (m_title m) (m_width m) (m_height m)
          (m_description m) (m_likedBy m) (m_comment m) (m_date m)
          (m_fileSize m) (m_isDeleted m) (Some selection).

(** Wedding / { P1, Reception / { P2 } }, and P3 at the top level. *)
Definition weddingTree : list GalleryContentItem :=
  [ FolderNode "wedding" "Wedding"
      [ Media (photo "p1" "Ceremony");
        FolderNode "reception" "Reception" [Media (photo "p2" "Dance")] None ]
      None;
    Media (photo "p3" "Portrait") ].

(** A single empty folder. *)
Definition oneFolder : list GalleryContentItem :=
  [ FolderNode "f1" "Album" [] None ].

(** A deleted folder holding a deleted photo, as the recycle bin shows
    them side by side. *)
Definition binTree : list GalleryContentItem :=
  [ FolderNode "a" "Album" [Media (deletedPhoto "b" "Beach")] (Some true) ].

(** A [localeCompare] for the witnesses: the order of the character
    codes, first difference first, a proper prefix before the longer
    string. *)
Fixpoint codeUnitCompare (a b : string) : Z :=
  match a, b with
  | EmptyString, EmptyString => 0
  | EmptyString, String _ _ => -1
  | String _ _, EmptyString => 1
  | String x a', String y b' =>
      match N.compare (N_of_ascii x) (N_of_ascii y) with
      | Lt => -1
      | Gt => 1
      | Eq => codeUnitCompare a' b'
      end
  end.

(** A [getTime] for the witnesses: every date string is invalid. *)
Definition noTime (date : string) : JS.number := JS.NaN.

(** Two folders and a photo, the folders in alphabetical order. *)
Definition mixedListing : list GalleryContentItem :=
  [ Media (photo "p9" "Zebra");
    FolderNode "fa" "Alpha" [] None;
    FolderNode "fb" "Beta" [] None ].

(** A table of two mock clients. *)
Definition mockClients : list AuthService.ClientData :=
  [ AuthService.mkClient
      (AuthService.mkUser "u1" "alice" "wonderland" "Alice" None) weddingTree;
    AuthService.mkClient
      (AuthService.mkUser "u2" "bob" "builder" "Bob" None) oneFolder ].

End Samples.

(** ** Notions the properties are stated with *)

Module Notions.
Import Gallery AuthService.

(** Number of folders plus media items of a tree. *)
Fixpoint countItem (n : GalleryContentItem) : nat :=
  match n with
  | Media _ => 1
  | FolderNode _ _ ch _ => S (list_sum (List.map countItem ch))
  end.

Definition countNodes (items : list GalleryContentItem) : nat :=
  list_sum (List.map countItem items).

(** The node reached by a path of child indices (first index into the
    root sequence). *)
Fixpoint nodeAt (items : list GalleryContentItem) (p : list nat)
  : option GalleryContentItem :=
  match p with
  | [] => None
  | i :: q =>
      match items !! i with
      | None => None
      | Some n =>
          match q with
          | [] => Some n
          | _ :: _ => nodeAt (item_children n) q
          end
      end
  end.

(** Number of nodes a pre-order walk meets before the node at path [p]:
    the whole subtrees of the earlier siblings, then the node's ancestors. *)
Fixpoint preIndex (items : list GalleryContentItem) (p : list nat) : nat :=
  match p with
  | [] => 0
  | i :: q =>
      countNodes (take i items) +
      match q with
      | [] => 0
      | _ :: _ =>
          match items !! i with
          | Some n => S (preIndex (item_children n) q)
          | None => 0
          end
      end
  end.

(** Occurrences of an identifier among all nodes of a tree. *)
Definition occurrences (i : string) (T : list GalleryContentItem) : nat :=
  length (List.filter (fun n => String.eqb (item_id n) i) (flatten T)).

(** Two nodes agree on every field of their own (for folders the children
    are compared by number only; they are nodes of their own). *)
Definition sameFields (n n' : GalleryContentItem) : Prop :=
  match n, n' with
  | Media m, Media m' => m = m'
  | FolderNode id name ch d, FolderNode id' name' ch' d' =>
      id = id' /\ name = name' /\ d = d' /\ length ch = length ch'
  | _, _ => False
  end.

(** Some step of the walk along [path] from [listing] does not resolve:
    either no folder of the current listing carries the next identifier
    (it is absent, or every item that carries it is a media item), or the
    step resolves and a later one fails in the folder's children. *)
Inductive FailsToResolve : list GalleryContentItem -> list string -> Prop :=
| fails_here listing folderId rest :
    (forall n, In n listing -> item_id n = folderId -> isFolder n = false) ->
    FailsToResolve listing (folderId :: rest)
| fails_later listing folderId rest f :
    findFolder listing folderId = Some f ->
    FailsToResolve (item_children f) rest ->
    FailsToResolve listing (folderId :: rest).

(** The result for an invalid path: the non-deleted root listing, the
    Home breadcrumb alone, no current folder. *)
Definition rootFallback (T : list GalleryContentItem) : PathResult :=
  mkPathResult (List.filter notDeleted T) [mkCrumb "root" "Home"] None.

(** The client's username and password are the given ones. *)
Definition credentialsMatch (username password : string) (client : ClientData)
  : Prop :=
  u_username (cd_user client) = username /\ u_password (cd_user client) = password.

(** No character of the string is a space. *)
Fixpoint noSpace (s : string) : bool :=
  match s with
  | EmptyString => true
  | String c r => negb (Ascii.eqb c " "%char) && noSpace r
  end.

(** The power of 1024 a recognised (upper-cased) unit stands for. *)
Definition unitExponent (unit : string) : option nat :=
  if String.eqb unit "KB" then Some 1
  else if String.eqb unit "MB" then Some 2
  else if String.eqb unit "GB" then Some 3
  else if String.eqb unit "TB" then Some 4
  else None.

(** [v * 1024 * ... * 1024] with [k] factors 1024, each product rounded,
    from the left. *)
Fixpoint timesKilo (k : nat) (v : JS.number) : JS.number :=
  match k with
  | O => v
  | S k' => timesKilo k' (JS.mul v (JS.fromZ 1024))
  end.

(** What a size string with numeric part [v] and unit [u] stands for. *)
Definition sizeOf (v u : string) : JS.number :=
  if JS.isNaN (JS.parseFloat v) then JS.zero
  else match unitExponent (JS.toUpperCase u) with
       | Some k => timesKilo k (JS.parseFloat v)
       | None => JS.parseFloat v
       end.

(** The node's id is in the set. *)
Definition targeted (ids : gset string) (n : GalleryContentItem) : bool :=
  has ids (item_id n).

(** The tree without its targeted subtrees. *)
Fixpoint keptItem (ids : gset string) (item : GalleryContentItem)
  : list GalleryContentItem :=
  if targeted ids item then []
  else match item with
       | FolderNode id name ch d =>
           [FolderNode id name (flat_map (keptItem ids) ch) d]
       | Media _ => [item]
       end.

Definition kept (ids : gset string) (items : list GalleryContentItem) :=
  flat_map (keptItem ids) items.

(** The targeted nodes a pre-order walk meets when it does not enter a
    targeted folder. *)
Fixpoint encounteredItem (ids : gset string) (item : GalleryContentItem)
  : list GalleryContentItem :=
  if targeted ids item then [item]
  else match item with
       | FolderNode _ _ ch _ => flat_map (encounteredItem ids) ch
       | Media _ => []
       end.

Definition encountered (ids : gset string) (items : list GalleryContentItem) :=
  flat_map (encounteredItem ids) items.

(** Occurrences of an identifier among the nodes of a tree. *)
Definition occ (d : string) (items : list GalleryContentItem) : nat :=
  count_occ string_dec (List.map item_id (flatten items)) d.

(** Identifiers are unique across the entire tree. *)
Definition uniqueIds (T : list GalleryContentItem) : Prop :=
  List.NoDup (List.map item_id (flatten T)).

(** A folder of the tree carries the identifier. *)
Definition folderIn (d : string) (T : list GalleryContentItem) : Prop :=
  exists name ch del, In (FolderNode d name ch del) (flatten T).

(** The identifier names a targeted node or a node below one. *)
Definition underTarget (ids : gset string) (d : string)
    (T : list GalleryContentItem) : Prop :=
  exists n, In n (flatten T) /\ targeted ids n = true
            /\ In d (List.map item_id (flatten [n])).

(** A destination the move dialog can offer: the root, or a folder of the
    tree that is neither moved itself nor inside a moved folder. *)
Definition validDestination (T : list GalleryContentItem) (ids : gset string)
    (d : string) : Prop :=
  d = "root" \/ (folderIn d T /\ ~ underTarget ids d T).

(** Number of folders [findAndAdd] appends to: those with the
    destination id that are not inside another one. *)
Fixpoint hitsItem (dest : string) (item : GalleryContentItem) : nat :=
  match item with
  | FolderNode id _ ch _ =>
      if String.eqb id dest then 1 else list_sum (List.map (hitsItem dest) ch)
  | Media _ => 0
  end.

Definition hits (dest : string) (items : list GalleryContentItem) : nat :=
  list_sum (List.map (hitsItem dest) items).

(** [findAndAdd] for a destination other than the root. *)
Definition addInto (dest : string) (M X : list GalleryContentItem) :=
  List.map (findAndAdd_step dest M) X.

Local Open Scope Z_scope.

(** Every folder entry comes before every entry that is not a folder. *)
Definition foldersFirst (l : list GalleryContentItem) : Prop :=
  forall (i j : nat) a b,
    l !! i = Some a -> l !! j = Some b ->
    isFolder a = true -> isFolder b = false -> (i < j)%nat.

(** The folder entries are in ascending order of name. *)
Definition folderNamesAscending (localeCompare : string -> string -> Z)
    (l : list GalleryContentItem) : Prop :=
  forall (i j : nat) a b,
    (i < j)%nat -> l !! i = Some a -> l !! j = Some b ->
    isFolder a = true -> isFolder b = true ->
    localeCompare (item_name a) (item_name b) <= 0.

(** The folder entries are in descending order of name. *)
Definition folderNamesDescending (localeCompare : string -> string -> Z)
    (l : list GalleryContentItem) : Prop :=
  forall (i j : nat) a b,
    (i < j)%nat -> l !! i = Some a -> l !! j = Some b ->
    isFolder a = true -> isFolder b = true ->
    localeCompare (item_name b) (item_name a) <= 0.

(** What a sort needs of [localeCompare]: swapping the arguments swaps
    the sign, and "not after" is transitive. *)
Definition consistent (localeCompare : string -> string -> Z) : Prop :=
  (forall a b, 0 < localeCompare a b -> localeCompare b a < 0)
  /\ (forall a b c, localeCompare a b <= 0 -> localeCompare b c <= 0 ->
                    localeCompare a c <= 0).

(** After a media item come media items only. *)
Definition mediaThenMedia (a b : GalleryContentItem) : Prop :=
  isFolder a = false -> isFolder b = false.

(** The orders the comparators keep between an earlier and a later
    entry: folders by name, upwards or downwards, before all files. *)
Definition ascending (lc : string -> string -> Z) (a b : GalleryContentItem) : Prop :=
  mediaThenMedia a b
  /\ (isFolder a = true -> isFolder b = true -> lc (item_name a) (item_name b) <= 0).

Definition descending (lc : string -> string -> Z) (a b : GalleryContentItem) : Prop :=
  mediaThenMedia a b
  /\ (isFolder a = true -> isFolder b = true -> lc (item_name b) (item_name a) <= 0).

(** The comparators of the six options, and the order each one keeps
    among folders. *)
Definition comparatorOf (lc : string -> string -> Z) (gt : string -> JS.number)
    (o : SortOption) : GalleryContentItem -> GalleryContentItem -> JS.number :=
  match o with
  | NameAsc => compareNameAsc lc
  | NameDesc => compareNameDesc lc
  | DateAsc => compareDateAsc lc gt
  | DateDesc => compareDateDesc lc gt
  | SizeAsc => compareSizeAsc lc
  | SizeDesc => compareSizeDesc lc
  end.

End Notions.

(** ** Further notions and sample data *)

Module MoreNotions.
Import Gallery Handlers Notions.

(** The names of the folders passed on the way to the node at a path,
    outermost first. *)
Fixpoint ancestorNames (T : list GalleryContentItem) (p : list nat) : list string :=
  match p with
  | [] => []
  | i :: q =>
      match q with
      | [] => []
      | _ :: _ =>
          match T !! i with
          | Some n => item_name n :: ancestorNames (item_children n) q
          | None => []
          end
      end
  end.

(** A path prefix whose first segment is not empty: no joined extension
    of it is the empty string. *)
Definition startsNonEmpty (currentPath : list string) : Prop :=
  exists h t, currentPath = h :: t /\ h <> EmptyString.

(** The user is among those who liked the item. *)
Definition isLikedBy (userId : string) (m : MediaItem) : bool :=
  JS.arrayIncludes (m_likedBy m) userId.

(** The item is not in the recycle bin. *)
Definition liveMedia (m : MediaItem) : bool := negb (truthy (m_isDeleted m)).

(** The walk along [path] from [listing] resolves, every step finding a
    folder of the current listing, and ends in the listing [final]. *)
Inductive ResolvesTo :
  list GalleryContentItem -> list string -> list GalleryContentItem -> Prop :=
| resolves_nil listing : ResolvesTo listing [] listing
| resolves_cons listing folderId rest f final :
    findFolder listing folderId = Some f ->
    ResolvesTo (item_children f) rest final ->
    ResolvesTo listing (folderId :: rest) final.

(** Every identifier occurs at most once in the tree. *)
Definition occBound (T : list GalleryContentItem) : Prop :=
  forall d, (occ d T <= 1)%nat.

(** The callback of [items.map] in [addFolderToPath]. *)
Definition addFolder_step (newFolder : GalleryContentItem) (currentId : string)
    (restPath : list string) (item : GalleryContentItem) : GalleryContentItem :=
  match item with
  | FolderNode id name ch d =>
      if String.eqb id currentId
      then FolderNode id name (addFolderToPath newFolder ch restPath) d
      else item
  | Media _ => item
  end.

(** The ids of the folders among the nodes of a tree. *)
Definition folderIdSet (T : list GalleryContentItem) : gset string :=
  list_to_set (List.map item_id (List.filter isFolder (flatten T))).

(** Every node of the tree is stored in the map under its id. *)
Definition storesAll (allItemsMap : gmap string GalleryContentItem)
    (T : list GalleryContentItem) : Prop :=
  forall n, In n (flatten T) -> allItemsMap !! item_id n = Some n.

(** The node at the path lies strictly below a targeted node. *)
Fixpoint belowTarget (ids : gset string) (T : list GalleryContentItem)
    (p : list nat) : bool :=
  match p with
  | [] => false
  | i :: q =>
      match q with
      | [] => false
      | _ :: _ =>
          match T !! i with
          | Some n => targeted ids n || belowTarget ids (item_children n) q
          | None => false
          end
      end
  end.

(** The mutation keeps the id of every media item. *)
Definition keepsId (f : MediaItem -> MediaItem) : Prop :=
  forall m, m_id (f m) = m_id m.

(** The tree without its deleted nodes and what is below them. *)
Fixpoint liveItem (item : GalleryContentItem) : list GalleryContentItem :=
  if truthy (item_isDeleted item) then []
  else match item with
       | FolderNode id name ch d => [FolderNode id name (flat_map liveItem ch) d]
       | Media _ => [item]
       end.

Definition liveTree (items : list GalleryContentItem) : list GalleryContentItem :=
  flat_map liveItem items.

(** The sizes in bytes of a list of files. *)
Definition sizesOf (files : list MediaItem) : list JS.number :=
  List.map (fun m => parseFileSize (m_fileSize m)) files.

End MoreNotions.

Module MoreSamples.
Import Gallery.

(** A live photo inside a deleted folder. *)
Definition hiddenPhotoTree : list GalleryContentItem :=
  [ FolderNode "a" "Album" [Media (Samples.photo "b" "Beach")] (Some true) ].

(** A deleted photo, a live one, and a deleted folder that holds a live
    and a deleted photo. *)
Definition recycledTree : list GalleryContentItem :=
  [ Media (Samples.deletedPhoto "d1" "Blurred");
    Media (Samples.photo "p1" "Ceremony");
    FolderNode "a" "Album"
      [ Media (Samples.photo "b" "Beach");
        Media (Samples.deletedPhoto "d2" "Dark") ]
      (Some true) ].

(** A photo of the given size. *)
Definition sized (id fileSize : string) : MediaItem :=
  mkMedia id false "media.jpg" id 800 600 None [] None "2024-05-01T10:00:00Z"
          fileSize None None.

(** Three files in one listing, and the same files with the last two in
    a subfolder. *)
Definition flatSizes : list GalleryContentItem :=
  [ Media (sized "s1" "4.2 MB"); Media (sized "s2" "1.1 MB");
    Media (sized "s3" "2.3 MB") ].

Definition nestedSizes : list GalleryContentItem :=
  [ Media (sized "s1" "4.2 MB");
    FolderNode "f" "Sub"
      [ Media (sized "s2" "1.1 MB"); Media (sized "s3" "2.3 MB") ] None ].

(** U+00A0 (no-break space) and U+2003 (em space) in UTF-8. *)
Definition nbsp : string :=
  String (ascii_of_N 194) (String (ascii_of_N 160) EmptyString).

Definition emSpace : string :=
  String (ascii_of_N 226) (String (ascii_of_N 128) (String (ascii_of_N 131)
    EmptyString)).

(** A photo two users have liked. *)
Definition likedPhoto : MediaItem :=
  mkMedia "p7" false "media.jpg" "Toast" 800 600 None ["u1"; "u2"] None
          "2024-05-01T10:00:00Z" "900 B" None None.

End MoreSamples.

(** ** Properties of flatten *)

Module FlattenFacts.
Import Notions Gallery.

Lemma flatten_nil : flatten [] = [].
Proof. reflexivity. Qed.

Lemma flatten_media m rest : flatten (Media m :: rest) = Media m :: flatten rest.
Proof. reflexivity. Qed.

Lemma flatten_folder id name ch d rest :
  flatten (FolderNode id name ch d :: rest)
  = FolderNode id name ch d :: flatten ch ++ flatten rest.
Proof. reflexivity. Qed.

Lemma flatten_cons n rest :
  flatten (n :: rest) = n :: flatten (item_children n) ++ flatten rest.
Proof. destruct n; reflexivity. Qed.

Lemma flatten_app l1 l2 : flatten (l1 ++ l2) = flatten l1 ++ flatten l2.
Proof. unfold flatten. apply flat_map_app. Qed.

Lemma countNodes_cons n rest :
  countNodes (n :: rest) = S (countNodes (item_children n)) + countNodes rest.
Proof. destruct n; reflexivity. Qed.

(** Induction over a listing: the empty listing, a media item in front,
    a folder in front (with the property known for its children). *)
Lemma forest_ind (P : list GalleryContentItem -> Prop) :
  P [] ->
  (forall m rest, P rest -> P (Media m :: rest)) ->
  (forall id name ch d rest, P ch -> P rest -> P (FolderNode id name ch d :: rest)) ->
  forall l, P l.
Proof.
  intros Hnil Hmedia Hfolder.
  assert (H : forall n l, countNodes l <= n -> P l).
  { induction n as [|n IH]; intros [|[m|id name ch d] rest] Hl;
      try exact Hnil; rewrite countNodes_cons in Hl; simpl in Hl; try lia.
    - apply Hmedia, IH. lia.
    - apply Hfolder; apply IH; lia. }
  intros l. apply (H (countNodes l)). lia.
Qed.

Lemma flatten_node_in n T :
  In n (flatten T) -> forall x, In x (flatten [n]) -> In x (flatten T).
Proof.
  induction T as [| m rest IH | id name ch d rest IHch IHrest] using forest_ind.
  - intros [].
  - rewrite flatten_media. intros [<-|H] x Hx.
    + left. destruct Hx as [Hx|[]]. exact Hx.
    + right. apply (IH H x Hx).
  - rewrite flatten_folder. intros [<-|H] x Hx.
    + rewrite flatten_folder, flatten_nil, app_nil_r in Hx.
      destruct Hx as [Hx|Hx]; [left; exact Hx|].
      right. apply in_or_app. left. exact Hx.
    + right. apply in_or_app. apply in_app_or in H.
      destruct H as [H|H]; [left; apply (IHch H x Hx)|right; apply (IHrest H x Hx)].
Qed.

Lemma countNodes_app l1 l2 :
  countNodes (l1 ++ l2) = countNodes l1 + countNodes l2.
Proof.
  unfold countNodes. rewrite List.map_app, list_sum_app. reflexivity.
Qed.

Lemma flatten_length T : length (flatten T) = countNodes T.
Proof.
  induction T as [| m rest IH | id name ch d rest IHch IHrest] using forest_ind.
  - reflexivity.
  - rewrite flatten_media, countNodes_cons. simpl. lia.
  - rewrite flatten_folder, countNodes_cons. simpl.
    rewrite length_app. lia.
Qed.

Lemma flatten_split_at T i n :
  T !! i = Some n ->
  flatten T = flatten (take i T) ++ n :: flatten (item_children n)
              ++ flatten (drop (S i) T).
Proof.
  intros H.
  rewrite <- (take_drop_middle T i n H) at 1.
  rewrite flatten_app, flatten_cons. reflexivity.
Qed.

Lemma preIndex_step T i j q x :
  T !! i = Some x ->
  preIndex T (i :: j :: q)
  = countNodes (take i T) + S (preIndex (item_children x) (j :: q)).
Proof. intros Hx. cbn [preIndex]. rewrite Hx. reflexivity. Qed.

Lemma flatten_at_preIndex p : forall T n,
  nodeAt T p = Some n -> flatten T !! preIndex T p = Some n.
Proof.
  induction p as [|i q IH]; intros T n H; [discriminate|].
  simpl in H. destruct (T !! i) as [x|] eqn:Hx; [|discriminate].
  rewrite (flatten_split_at T i x Hx).
  assert (Hlen : length (flatten (take i T)) = countNodes (take i T))
    by apply flatten_length.
  destruct q as [|j q'].
  - injection H as ->. simpl. rewrite Nat.add_0_r, <- Hlen.
    rewrite lookup_app_r by lia. rewrite Nat.sub_diag. reflexivity.
  - apply IH in H.
    assert (Hp : preIndex T (i :: j :: q')
                 = length (flatten (take i T))
                   + S (preIndex (item_children x) (j :: q'))).
    { rewrite Hlen. apply preIndex_step, Hx. }
    rewrite Hp. remember (preIndex (item_children x) (j :: q')) as k.
    rewrite lookup_app_r by lia.
    replace (length (flatten (take i T)) + S k - length (flatten (take i T)))
      with (S k) by lia.
    rewrite lookup_cons.
    rewrite lookup_app_l; [exact H|].
    apply lookup_lt_Some in H. exact H.
Qed.

Lemma nodeAt_app p : forall T n q,
  nodeAt T p = Some n -> q <> [] ->
  nodeAt T (p ++ q) = nodeAt (item_children n) q.
Proof.
  induction p as [|i p' IH]; intros T n q H Hq; [discriminate|].
  simpl in H. simpl. destruct (T !! i) as [x|]; [|discriminate].
  destruct p' as [|j p''].
  - injection H as ->. simpl. destruct q; [congruence|reflexivity].
  - simpl app. apply (IH _ _ _ H Hq).
Qed.

Lemma preIndex_app p : forall T n q,
  nodeAt T p = Some n -> q <> [] ->
  preIndex T (p ++ q) = S (preIndex T p + preIndex (item_children n) q).
Proof.
  induction p as [|i p' IH]; intros T n q H Hq; [discriminate|].
  simpl in H. destruct (T !! i) as [x|] eqn:Hx; [|discriminate].
  destruct p' as [|j p''].
  - injection H as ->. destruct q as [|k q']; [congruence|].
    simpl. rewrite Hx. lia.
  - change ((i :: j :: p'') ++ q) with (i :: j :: (p'' ++ q)).
    rewrite !(preIndex_step _ _ _ _ _ Hx).
    change (j :: p'' ++ q) with ((j :: p'') ++ q).
    rewrite (IH _ _ _ H Hq). lia.
Qed.

Lemma preIndex_shift x rest i q :
  preIndex (x :: rest) (S i :: q)
  = S (countNodes (item_children x)) + preIndex rest (i :: q).
Proof.
  cbn [preIndex]. change (take (S i) (x :: rest)) with (x :: take i rest).
  rewrite countNodes_cons. change ((x :: rest) !! S i) with (rest !! i). lia.
Qed.

Lemma preIndex_down x rest i q :
  preIndex (x :: rest) (0 :: i :: q) = S (preIndex (item_children x) (i :: q)).
Proof. reflexivity. Qed.

Lemma nodeAt_of_flatten T :
  forall k n, flatten T !! k = Some n ->
  exists p, nodeAt T p = Some n /\ preIndex T p = k.
Proof.
  induction T as [| m rest IH | id name ch d rest IHch IHrest] using forest_ind;
    intros k n Hk.
  - discriminate.
  - rewrite flatten_media in Hk. destruct k as [|k].
    + injection Hk as <-. exists [0]. split; reflexivity.
    + simpl in Hk. destruct (IH _ _ Hk) as ([|i q] & Hp & Hi); [discriminate|].
      exists (S i :: q). split; [exact Hp|].
      rewrite preIndex_shift, Hi. reflexivity.
  - rewrite flatten_folder in Hk. destruct k as [|k].
    + injection Hk as <-. exists [0]. split; reflexivity.
    + simpl in Hk.
      destruct (decide (k < length (flatten ch))) as [Hlt|Hge].
      * rewrite lookup_app_l in Hk by exact Hlt.
        destruct (IHch _ _ Hk) as ([|i q] & Hp & Hi); [discriminate|].
        exists (0 :: i :: q). split; [exact Hp|].
        rewrite preIndex_down. simpl item_children. rewrite Hi. reflexivity.
      * rewrite lookup_app_r in Hk by lia.
        destruct (IHrest _ _ Hk) as ([|i q] & Hp & Hi); [discriminate|].
        exists (S i :: q). split; [exact Hp|].
        rewrite preIndex_shift, Hi. simpl item_children.
        rewrite flatten_length in *. lia.
Qed.

(** C7. [flatten] is the pre-order traversal: its length is the number of
    folders plus media items of the tree; the node at any path sits at its
    pre-order position in the output and every node of the output comes
    from such a path; a node's position is strictly before the position of
    each of its descendants. *)
Theorem flatten_preorder (T : list GalleryContentItem) :
  length (flatten T) = countNodes T
  /\ (forall p n, nodeAt T p = Some n -> flatten T !! preIndex T p = Some n)
  /\ (forall k n, flatten T !! k = Some n ->
        exists p, nodeAt T p = Some n /\ preIndex T p = k)
  /\ (forall p q n d, nodeAt T p = Some n -> q <> [] ->
        nodeAt T (p ++ q) = Some d ->
        preIndex T p < preIndex T (p ++ q)
        /\ flatten T !! preIndex T (p ++ q) = Some d).
Proof.
  split; [apply flatten_length|].
  split; [intros p n; apply flatten_at_preIndex|].
  split; [apply nodeAt_of_flatten|].
  intros p q n d Hn Hq Hd. split.
  - rewrite (preIndex_app _ _ _ _ Hn Hq). lia.
  - apply flatten_at_preIndex. exact Hd.
Qed.

Lemma flatten_preorder_witness :
  length (flatten Samples.weddingTree) = 5
  /\ flatten Samples.weddingTree !! 0
     = Some (FolderNode "wedding" "Wedding"
               [ Media (Samples.photo "p1" "Ceremony");
                 FolderNode "reception" "Reception"
                   [Media (Samples.photo "p2" "Dance")] None ] None)
  /\ preIndex Samples.weddingTree [0] < preIndex Samples.weddingTree ([0] ++ [1; 0])
  /\ flatten Samples.weddingTree !! 3 = Some (Media (Samples.photo "p2" "Dance")).
Proof.
  destruct (flatten_preorder Samples.weddingTree) as (Hlen & Hat & _ & Hbefore).
  split; [exact Hlen|].
  split; [exact (Hat [0] _ eq_refl)|].
  exact (Hbefore [0] [1; 0] _ _ eq_refl ltac:(discriminate) eq_refl).
Defined.

End FlattenFacts.

(** ** findAndMutateMediaItem changes the targeted media item only *)

Module MutateFacts.
Import Notions Gallery FlattenFacts.

Lemma lookup_map {A B} (f : A -> B) (l : list A) i :
  List.map f l !! i = option_map f (l !! i).
Proof.
  revert i. induction l as [|x l IH]; intros [|i]; simpl; auto.
Qed.

Lemma step_children i f n :
  item_children (findAndMutateMediaItem_step i f n)
  = findAndMutateMediaItem (item_children n) i f.
Proof.
  destruct n as [m|id name ch d]; simpl; [|reflexivity].
  destruct (String.eqb (m_id m) i); reflexivity.
Qed.

Lemma nodeAt_mutate i f p : forall T,
  nodeAt (findAndMutateMediaItem T i f) p
  = option_map (findAndMutateMediaItem_step i f) (nodeAt T p).
Proof.
  induction p as [|k q IH]; intros T; [reflexivity|].
  simpl. unfold findAndMutateMediaItem at 1. rewrite lookup_map.
  destruct (T !! k) as [x|]; simpl; [|reflexivity].
  destruct q as [|k' q']; [reflexivity|].
  rewrite step_children. apply IH.
Qed.

Lemma mutate_absent i f T :
  (forall x, In x (flatten T) -> item_id x <> i) ->
  findAndMutateMediaItem T i f = T.
Proof.
  induction T as [| m rest IH | id name ch d rest IHch IHrest] using forest_ind;
    intros H.
  - reflexivity.
  - unfold findAndMutateMediaItem in *. simpl.
    destruct (String.eqb (m_id m) i) eqn:E.
    + apply String.eqb_eq in E. exfalso. apply (H (Media m)); [left; reflexivity|exact E].
    + f_equal. apply IH. intros x Hx. apply H. rewrite flatten_media. right. exact Hx.
  - unfold findAndMutateMediaItem in *. simpl. f_equal.
    + f_equal. apply IHch. intros x Hx. apply H. rewrite flatten_folder.
      right. apply in_or_app. left. exact Hx.
    + apply IHrest. intros x Hx. apply H. rewrite flatten_folder.
      right. apply in_or_app. right. exact Hx.
Qed.

Lemma step_absent i f n :
  (forall x, In x (flatten [n]) -> item_id x <> i) ->
  findAndMutateMediaItem_step i f n = n.
Proof.
  intros H. pose proof (mutate_absent i f [n] H) as E.
  unfold findAndMutateMediaItem in E. simpl in E. congruence.
Qed.

Lemma nodeAt_In p : forall T n, nodeAt T p = Some n -> In n (flatten T).
Proof.
  intros T n H. apply flatten_at_preIndex in H.
  apply list_elem_of_In. eapply list_elem_of_lookup_2. exact H.
Qed.

Lemma unique_target i T a b :
  occurrences i T = 1 ->
  In a (flatten T) -> item_id a = i ->
  In b (flatten T) -> item_id b = i -> b = a.
Proof.
  unfold occurrences. intros Hocc Ha Haid Hb Hbid.
  set (hit := fun x => String.eqb (item_id x) i) in *.
  assert (H1 : In a (List.filter hit (flatten T))).
  { apply filter_In. split; [exact Ha|]. unfold hit. apply String.eqb_eq, Haid. }
  assert (H2 : In b (List.filter hit (flatten T))).
  { apply filter_In. split; [exact Hb|]. unfold hit. apply String.eqb_eq, Hbid. }
  destruct (List.filter hit (flatten T)) as [|x [|y l]]; simpl in Hocc; try discriminate.
  destruct H1 as [<-|[]], H2 as [<-|[]]. reflexivity.
Qed.

Lemma unique_media_target i T m n :
  occurrences i T = 1 ->
  In (Media m) (flatten T) -> m_id m = i ->
  In n (flatten T) -> item_id n = i -> n = Media m.
Proof. intros Hocc Hm Hid. apply (unique_target i T (Media m) n Hocc Hm Hid). Qed.

(** Without a media item that carries the id nothing is rewritten,
    whatever the folders are called. *)
Lemma mutate_no_media i f T :
  (forall m, In (Media m) (flatten T) -> m_id m <> i) ->
  findAndMutateMediaItem T i f = T.
Proof.
  induction T as [| m rest IH | id name ch d rest IHch IHrest] using forest_ind;
    intros H.
  - reflexivity.
  - unfold findAndMutateMediaItem in *. simpl.
    destruct (String.eqb (m_id m) i) eqn:E.
    + apply String.eqb_eq in E. exfalso. apply (H m); [left; reflexivity|exact E].
    + f_equal. apply IH. intros x Hx. apply H. rewrite flatten_media. right. exact Hx.
  - unfold findAndMutateMediaItem in *. simpl. f_equal.
    + f_equal. apply IHch. intros x Hx. apply H. rewrite flatten_folder.
      right. apply in_or_app. left. exact Hx.
    + apply IHrest. intros x Hx. apply H. rewrite flatten_folder.
      right. apply in_or_app. right. exact Hx.
Qed.

(** C1 (as amended). Let [i] occur exactly once in the tree.  When it
    names a media item, the rewrite keeps the shape of the tree, puts
    [mutation item] in the place of that item, keeps the own fields of
    every other node, and returns every subtree that does not hold [i]
    equal by value.  When it names a folder, the rewrite returns the
    tree as it is: the mutation is applied to nothing. *)
Theorem findAndMutateMediaItem_frame
    (T : list GalleryContentItem) (i : string)
    (mutation : MediaItem -> MediaItem) :
  occurrences i T = 1 ->
  (forall target,
     In (Media target) (flatten T) -> m_id target = i ->
     forall p,
       match nodeAt T p with
       | None => nodeAt (findAndMutateMediaItem T i mutation) p = None
       | Some n =>
           if String.eqb (item_id n) i
           then n = Media target
                /\ nodeAt (findAndMutateMediaItem T i mutation) p
                   = Some (Media (mutation target))
           else (exists n', nodeAt (findAndMutateMediaItem T i mutation) p = Some n'
                            /\ sameFields n n')
                /\ ((forall x, In x (flatten [n]) -> item_id x <> i) ->
                    nodeAt (findAndMutateMediaItem T i mutation) p = Some n)
       end)
  /\ (forall folder,
        In folder (flatten T) -> item_id folder = i -> isFolder folder = true ->
        findAndMutateMediaItem T i mutation = T).
Proof.
  intros Hocc. split.
  - intros target Ht Hid p. rewrite nodeAt_mutate.
    destruct (nodeAt T p) as [n|] eqn:Hn; [|reflexivity].
    simpl. destruct (String.eqb (item_id n) i) eqn:E.
    + apply String.eqb_eq in E.
      assert (n = Media target) as ->.
      { eapply unique_media_target; eauto. eapply nodeAt_In; eauto. }
      split; [reflexivity|]. simpl. rewrite Hid, String.eqb_refl. reflexivity.
    + split.
      * eexists. split; [reflexivity|].
        destruct n as [m|id name ch d]; simpl in *.
        -- rewrite E. reflexivity.
        -- repeat split. rewrite length_map. reflexivity.
      * intros Habs. rewrite step_absent; auto.
  - intros folder Hin Hid Hfolder. apply mutate_no_media.
    intros m Hm E.
    pose proof (unique_target i T folder (Media m) Hocc Hin Hid Hm E) as Heq.
    rewrite <- Heq in Hfolder. discriminate Hfolder.
Qed.

Lemma findAndMutateMediaItem_frame_witness :
  nodeAt (findAndMutateMediaItem Samples.weddingTree "p2"
            (Samples.setSelection FRAME)) [0; 1; 0]
  = Some (Media (Samples.setSelection FRAME (Samples.photo "p2" "Dance")))
  /\ findAndMutateMediaItem Samples.weddingTree "reception"
       (Samples.setSelection FRAME)
     = Samples.weddingTree.
Proof.
  split.
  - pose proof (proj1 (findAndMutateMediaItem_frame Samples.weddingTree "p2"
                         (Samples.setSelection FRAME) eq_refl)
                  (Samples.photo "p2" "Dance")) as H.
    specialize (H ltac:(vm_compute; tauto) eq_refl [0; 1; 0]).
    simpl in H. exact (proj2 H).
  - apply (proj2 (findAndMutateMediaItem_frame Samples.weddingTree "reception"
                    (Samples.setSelection FRAME) eq_refl)
             (FolderNode "reception" "Reception"
                [Media (Samples.photo "p2" "Dance")] None));
      [vm_compute; tauto|reflexivity|reflexivity].
Defined.

(** A folder whose id is the target is returned as it is: the transform
    is never applied to it.  The tree holds the id exactly once, the
    result is the input, and the node in the folder's place is not the
    image of any item under the transform. *)
Lemma findAndMutateMediaItem_skips_folder :
  occurrences "f1" Samples.oneFolder = 1
  /\ findAndMutateMediaItem Samples.oneFolder "f1" (Samples.setSelection FRAME)
     = Samples.oneFolder
  /\ ~ (exists m,
          nodeAt (findAndMutateMediaItem Samples.oneFolder "f1"
                    (Samples.setSelection FRAME)) [0]
          = Some (Media (Samples.setSelection FRAME m))).
Proof.
  split; [reflexivity|]. split; [reflexivity|].
  intros [m H]. simpl in H. discriminate.
Qed.

End MutateFacts.

(** ** getItemsForPath falls back to the root listing *)

Module PathFacts.
Import Notions Gallery.

Lemma findFolder_none listing folderId :
  (forall n, In n listing -> item_id n = folderId -> isFolder n = false) ->
  findFolder listing folderId = None.
Proof.
  intros H. unfold findFolder.
  destruct (List.find _ listing) as [f|] eqn:E; [|reflexivity].
  apply find_some in E. destruct E as [Hin Hf].
  apply andb_prop in Hf. destruct Hf as [Hid Hfold].
  apply String.eqb_eq in Hid. rewrite (H f Hin Hid) in Hfold. discriminate.
Qed.

Lemma loop_fallback root path : forall listing crumbs cur,
  FailsToResolve listing path ->
  getItemsForPath_loop root listing crumbs cur path = rootFallback root.
Proof.
  induction path as [|folderId rest IH]; intros listing crumbs cur H.
  - inversion H.
  - simpl. inversion H as [? ? ? Hnone | ? ? ? f Hf Hrest]; subst.
    + rewrite (findFolder_none _ _ Hnone). reflexivity.
    + rewrite Hf. apply IH. exact Hrest.
Qed.

(** C4. When a step of the path fails to resolve, the result is the
    non-deleted top-level listing with the single breadcrumb
    (root, Home) and no current folder; so it is for the one-step path
    "bogus-id" in a tree whose top level has no item of that id. *)
Theorem getItemsForPath_invalid_path (T : list GalleryContentItem) :
  (forall path, FailsToResolve T path -> getItemsForPath T path = rootFallback T)
  /\ ((forall n, In n T -> item_id n <> "bogus-id") ->
      getItemsForPath T ["bogus-id"] = rootFallback T).
Proof.
  split.
  - intros path H. apply loop_fallback. exact H.
  - intros H. apply loop_fallback. apply fails_here.
    intros n Hin Hid. destruct (H n Hin Hid).
Qed.

Lemma getItemsForPath_invalid_path_witness :
  getItemsForPath Samples.weddingTree ["wedding"; "p1"]
  = rootFallback Samples.weddingTree
  /\ getItemsForPath Samples.weddingTree ["bogus-id"]
     = rootFallback Samples.weddingTree.
Proof.
  destruct (getItemsForPath_invalid_path Samples.weddingTree) as [H1 H2].
  split.
  - apply H1. eapply fails_later; [reflexivity|].
    apply fails_here. intros n Hin Hid. simpl in Hin.
    destruct Hin as [<-|[<-|[]]]; [reflexivity|discriminate].
  - apply H2. intros n Hin. simpl in Hin.
    destruct Hin as [<-|[<-|[]]]; discriminate.
Defined.

End PathFacts.

(** ** modifyItemsDeletedState *)

Module DeleteFacts.
Import Notions Gallery.

(** C5, at the input where it fails: restoring a deleted folder together
    with a deleted photo inside it (both ids selected) restores the folder
    and leaves the photo deleted; the walk stops at the targeted folder. *)
Theorem modifyItemsDeletedState_skips_nested_target :
  modifyItemsDeletedState Samples.binTree {[ "a"; "b" ]} false
  = [ FolderNode "a" "Album" [Media (Samples.deletedPhoto "b" "Beach")]
        (Some false) ]
  /\ has {[ "a"; "b" ]} "b" = true
  /\ List.map item_isDeleted
       (flatten
          (modifyItemsDeletedState Samples.binTree {[ "a"; "b" ]} false))
     = [Some false; Some true].
Proof. vm_compute. repeat split. Qed.

End DeleteFacts.

(** ** login *)

Module LoginFacts.
Import AuthService Notions.

Lemma matches_reflect username password client :
  String.eqb (u_username (cd_user client)) username
  && String.eqb (u_password (cd_user client)) password = true
  <-> credentialsMatch username password client.
Proof.
  unfold credentialsMatch. rewrite andb_true_iff, !String.eqb_eq. reflexivity.
Qed.

(** C9. [login] rejects, with the message "Invalid username or
    password.", exactly when no mock client matches both credentials;
    otherwise it resolves with the user record of a mock client (the first
    in the table) whose username and password both match. *)
Theorem login_settles (clients : list ClientData) (username password : string) :
  (login clients username password = Rejected "Invalid username or password."
   <-> ~ exists c, In c clients /\ credentialsMatch username password c)
  /\ ((exists c, In c clients /\ credentialsMatch username password c) ->
      exists c, In c clients /\ credentialsMatch username password c
                /\ login clients username password = Resolved (cd_user c))
  /\ (forall message, login clients username password = Rejected message ->
      message = "Invalid username or password.").
Proof.
  unfold login.
  destruct (List.find _ clients) as [c|] eqn:E.
  - apply find_some in E. destruct E as [Hin Hm]. apply matches_reflect in Hm.
    split; [|split].
    + split; [discriminate|]. intros H. exfalso. apply H. eauto.
    + intros _. exists c. auto.
    + discriminate.
  - split; [|split].
    + split; [|reflexivity]. intros _ [c [Hin Hm]].
      apply matches_reflect in Hm.
      pose proof (find_none _ _ E c Hin) as Hn. simpl in Hn. congruence.
    + intros [c [Hin Hm]]. apply matches_reflect in Hm.
      pose proof (find_none _ _ E c Hin) as Hn. simpl in Hn. congruence.
    + intros message H. congruence.
Qed.

Lemma login_settles_witness :
  (exists c, In c Samples.mockClients
             /\ credentialsMatch "bob" "builder" c
             /\ login Samples.mockClients "bob" "builder" = Resolved (cd_user c))
  /\ login Samples.mockClients "bob" "wonderland"
     = Rejected "Invalid username or password.".
Proof.
  split.
  - apply (login_settles Samples.mockClients "bob" "builder").
    eexists. split; [right; left; reflexivity|]. split; reflexivity.
  - apply (login_settles Samples.mockClients "bob" "wonderland").
    intros (c & Hin & Hu & Hp). simpl in Hin.
    destruct Hin as [<-|[<-|[]]]; simpl in *; discriminate.
Defined.

End LoginFacts.

(** ** parseFileSize *)

Module SizeFacts.
Import Notions Gallery.
Local Open Scope string_scope.

Lemma split_space_single s : noSpace s = true -> JS.split_space s = [s].
Proof.
  induction s as [|c r IH]; simpl; intros H; [reflexivity|].
  apply andb_prop in H. destruct H as [Hc Hr].
  apply negb_true_iff in Hc. rewrite Hc, (IH Hr). reflexivity.
Qed.

Lemma split_space_app v r :
  noSpace v = true ->
  JS.split_space (v ++ String " " r) = v :: JS.split_space r.
Proof.
  induction v as [|c v' IH]; simpl; intros H; [reflexivity|].
  apply andb_prop in H. destruct H as [Hc Hr].
  apply negb_true_iff in Hc. rewrite Hc, (IH Hr). reflexivity.
Qed.

Lemma append_space_nonempty v r : String.eqb (v ++ String " " r) EmptyString = false.
Proof. destruct v; reflexivity. Qed.

Lemma parts_value v u tail :
  JS.split_space tail = v :: u :: [] \/
  (exists more, JS.split_space tail = v :: u :: more) ->
  String.eqb tail EmptyString = false ->
  parseFileSize tail = sizeOf v u.
Proof.
  intros Hparts Hne. unfold parseFileSize, sizeOf. rewrite Hne.
  assert (exists more, JS.split_space tail = v :: u :: more) as [more ->].
  { destruct Hparts as [->|H]; eauto. }
  destruct (JS.isNaN (JS.parseFloat v)); [reflexivity|].
  unfold unitExponent, kilo.
  destruct (String.eqb (JS.toUpperCase u) "KB"); [reflexivity|].
  destruct (String.eqb (JS.toUpperCase u) "MB"); [reflexivity|].
  destruct (String.eqb (JS.toUpperCase u) "GB"); [reflexivity|].
  destruct (String.eqb (JS.toUpperCase u) "TB"); reflexivity.
Qed.

(** C8. The empty string is 0 bytes.  A string without a space is 0
    when it does not parse (NaN) or parses to a zero, and the parsed
    number otherwise.  A string "v u" (and anything after a further
    space) is 0 when v does not parse, the parsed v times 1024 once,
    twice, three and four times for the units KB, MB, GB, TB in any
    letter case, and the parsed v for every other unit.  The three sample
    values are as stated: 4.2 is the binary64 number nearest to it,
    4728779608739021 * 2^-50, "4.2 MB" is 4.2 * 1024 * 1024 = 4404019.2
    (4728779608739021 * 2^-30) and "900 B" is 900. *)
Theorem parseFileSize_units :
  parseFileSize EmptyString = JS.zero
  /\ (forall s, s <> EmptyString -> noSpace s = true ->
        (JS.isNaN (JS.parseFloat s) = true -> parseFileSize s = JS.zero)
        /\ (JS.number_eqb (JS.parseFloat s) JS.zero = true ->
            parseFileSize s = JS.zero)
        /\ (JS.isNaN (JS.parseFloat s) = false ->
            JS.number_eqb (JS.parseFloat s) JS.zero = false ->
            parseFileSize s = JS.parseFloat s))
  /\ (forall v u, noSpace v = true -> noSpace u = true ->
        parseFileSize (v ++ " " ++ u) = sizeOf v u)
  /\ (forall v u more, noSpace v = true -> noSpace u = true ->
        parseFileSize (v ++ " " ++ u ++ " " ++ more) = sizeOf v u)
  /\ (forall v u u', noSpace v = true -> noSpace u = true -> noSpace u' = true ->
        JS.toUpperCase u = JS.toUpperCase u' ->
        parseFileSize (v ++ " " ++ u) = parseFileSize (v ++ " " ++ u'))
  /\ JS.parseFloat "4.2" = S754_finite false 4728779608739021 (-50)
  /\ parseFileSize "4.2 MB"
     = JS.mul (JS.mul (JS.parseFloat "4.2") (JS.fromZ 1024)) (JS.fromZ 1024)
  /\ parseFileSize "4.2 MB" = S754_finite false 4728779608739021 (-30)
  /\ parseFileSize "900 B" = JS.fromZ 900
  /\ JS.fromZ 900 = S754_finite false 7916483719987200 (-43).
Proof.
  split; [reflexivity|].
  split.
  { intros s Hs Hn.
    assert (E : parseFileSize s = JS.orZero (JS.parseFloat s)).
    { unfold parseFileSize.
      destruct (String.eqb_spec s EmptyString); [congruence|].
      rewrite (split_space_single s Hn). reflexivity. }
    rewrite E. destruct (JS.parseFloat s) as [z|[|]| |[|] m e]; cbn;
      repeat split; intros; try reflexivity; discriminate. }
  assert (H2 : forall v u, noSpace v = true -> noSpace u = true ->
            parseFileSize (v ++ " " ++ u) = sizeOf v u).
  { intros v u Hv Hu. apply parts_value.
    - left. change (" " ++ u) with (String " " u).
      rewrite (split_space_app v u Hv), (split_space_single u Hu). reflexivity.
    - apply append_space_nonempty. }
  split; [exact H2|].
  split.
  { intros v u more Hv Hu. apply parts_value.
    - right. change (" " ++ u ++ " " ++ more) with (String " " (u ++ String " " more)).
      rewrite (split_space_app v _ Hv), (split_space_app u _ Hu). eauto.
    - apply append_space_nonempty. }
  split.
  { intros v u u' Hv Hu Hu' E. rewrite !H2 by assumption.
    unfold sizeOf. rewrite E. reflexivity. }
  repeat split; vm_compute; reflexivity.
Qed.

Lemma parseFileSize_units_witness :
  parseFileSize "12" = JS.fromZ 12
  /\ parseFileSize "abc" = JS.zero
  /\ parseFileSize "-0" = JS.zero
  /\ parseFileSize "1.5 kb" = JS.fromZ 1536
  /\ parseFileSize "1.5 Kb extra" = JS.fromZ 1536
  /\ parseFileSize "x GB" = JS.zero
  /\ parseFileSize "7 bytes" = JS.fromZ 7
  /\ parseFileSize "1e308 TB" = JS.Infinity false.
Proof.
  destruct parseFileSize_units as (_ & H1 & H2 & H3 & _).
  split.
  { destruct (H1 "12" ltac:(discriminate) eq_refl) as (_ & _ & H).
    rewrite H by (vm_compute; reflexivity). vm_compute. reflexivity. }
  split.
  { destruct (H1 "abc" ltac:(discriminate) eq_refl) as (H & _).
    apply H. vm_compute. reflexivity. }
  split.
  { destruct (H1 "-0" ltac:(discriminate) eq_refl) as (_ & H & _).
    apply H. vm_compute. reflexivity. }
  split; [etransitivity; [exact (H2 "1.5" "kb" eq_refl eq_refl)|vm_compute; reflexivity]|].
  split; [etransitivity; [exact (H3 "1.5" "Kb" "extra" eq_refl eq_refl)
                         |vm_compute; reflexivity]|].
  split; [etransitivity; [exact (H2 "x" "GB" eq_refl eq_refl)|vm_compute; reflexivity]|].
  split; [etransitivity; [exact (H2 "7" "bytes" eq_refl eq_refl)
                         |vm_compute; reflexivity]|].
  etransitivity; [exact (H2 "1e308" "TB" eq_refl eq_refl)|vm_compute; reflexivity].
Defined.

End SizeFacts.

(** ** handleConfirmMove: removal, insertion, and moving twice *)

Module MoveFacts.
Import Notions Gallery FlattenFacts.

(** *** Unfolding equations *)

Lemma kept_nil ids : kept ids [] = [].
Proof. reflexivity. Qed.

Lemma kept_cons ids n rest : kept ids (n :: rest) = keptItem ids n ++ kept ids rest.
Proof. reflexivity. Qed.

Lemma kept_app ids l1 l2 : kept ids (l1 ++ l2) = kept ids l1 ++ kept ids l2.
Proof. unfold kept. apply flat_map_app. Qed.

Lemma encountered_cons ids n rest :
  encountered ids (n :: rest) = encounteredItem ids n ++ encountered ids rest.
Proof. reflexivity. Qed.

Lemma encountered_app ids l1 l2 :
  encountered ids (l1 ++ l2) = encountered ids l1 ++ encountered ids l2.
Proof. unfold encountered. apply flat_map_app. Qed.

Lemma keptItem_folder ids id name ch d :
  has ids id = false ->
  keptItem ids (FolderNode id name ch d) = [FolderNode id name (kept ids ch) d].
Proof. intros H. simpl. unfold targeted. simpl. rewrite H. reflexivity. Qed.

Lemma encounteredItem_folder ids id name ch d :
  has ids id = false ->
  encounteredItem ids (FolderNode id name ch d) = encountered ids ch.
Proof. intros H. simpl. unfold targeted. simpl. rewrite H. reflexivity. Qed.

Lemma keptItem_target ids n : targeted ids n = true -> keptItem ids n = [].
Proof. intros H. destruct n; simpl; rewrite H; reflexivity. Qed.

Lemma encounteredItem_target ids n :
  targeted ids n = true -> encounteredItem ids n = [n].
Proof. intros H. destruct n; simpl; rewrite H; reflexivity. Qed.

Lemma keptItem_media ids m :
  targeted ids (Media m) = false -> keptItem ids (Media m) = [Media m].
Proof. intros H. simpl. rewrite H. reflexivity. Qed.

Lemma encounteredItem_media ids m :
  targeted ids (Media m) = false -> encounteredItem ids (Media m) = [].
Proof. intros H. simpl. rewrite H. reflexivity. Qed.

(** *** The stateful loop computes [kept] and appends [encountered] *)

Lemma findAndRemove_spec ids T : forall acc,
  findAndRemove ids T acc = (kept ids T, acc ++ encountered ids T).
Proof.
  induction T as [| m rest IH | id name ch d rest IHch IHrest] using forest_ind;
    intros acc.
  - simpl. rewrite app_nil_r. reflexivity.
  - unfold findAndRemove in *. cbn [findAndRemove_loop findAndRemove_step].
    rewrite kept_cons, encountered_cons.
    destruct (has ids (item_id (Media m))) eqn:E.
    + rewrite IH, keptItem_target, encounteredItem_target by exact E.
      rewrite <- app_assoc. reflexivity.
    + rewrite IH, keptItem_media, encounteredItem_media by exact E. reflexivity.
  - unfold findAndRemove in *. cbn [findAndRemove_loop findAndRemove_step].
    rewrite kept_cons, encountered_cons.
    destruct (has ids (item_id (FolderNode id name ch d))) eqn:E.
    + rewrite IHrest, keptItem_target, encounteredItem_target by exact E.
      rewrite <- app_assoc. reflexivity.
    + rewrite IHch, IHrest, keptItem_folder, encounteredItem_folder by exact E.
      rewrite <- app_assoc. reflexivity.
Qed.

Lemma moveItems_eq T ids dest :
  moveItems T ids dest = findAndAdd dest (encountered ids T) (kept ids T).
Proof. unfold moveItems. rewrite findAndRemove_spec. reflexivity. Qed.

(** *** What is kept and what is collected *)

Lemma encountered_targeted ids T :
  Forall (fun n => targeted ids n = true) (encountered ids T).
Proof.
  induction T as [| m rest IH | id name ch d rest IHch IHrest] using forest_ind.
  - constructor.
  - rewrite encountered_cons. apply Forall_app. split; [|exact IH].
    destruct (targeted ids (Media m)) eqn:E.
    + rewrite encounteredItem_target by exact E. repeat constructor. exact E.
    + rewrite encounteredItem_media by exact E. constructor.
  - rewrite encountered_cons. apply Forall_app. split; [|exact IHrest].
    destruct (targeted ids (FolderNode id name ch d)) eqn:E.
    + rewrite encounteredItem_target by exact E. repeat constructor. exact E.
    + rewrite encounteredItem_folder by exact E. exact IHch.
Qed.

Lemma kept_clean ids T :
  Forall (fun n => targeted ids n = false) (flatten (kept ids T)).
Proof.
  induction T as [| m rest IH | id name ch d rest IHch IHrest] using forest_ind.
  - constructor.
  - rewrite kept_cons, flatten_app. apply Forall_app. split; [|exact IH].
    destruct (targeted ids (Media m)) eqn:E.
    + rewrite keptItem_target by exact E. constructor.
    + rewrite keptItem_media by exact E. repeat constructor. exact E.
  - rewrite kept_cons, flatten_app. apply Forall_app. split; [|exact IHrest].
    destruct (targeted ids (FolderNode id name ch d)) eqn:E.
    + rewrite keptItem_target by exact E. constructor.
    + rewrite keptItem_folder by exact E. rewrite flatten_folder.
      constructor; [exact E|]. rewrite flatten_nil, app_nil_r. exact IHch.
Qed.

Lemma clean_fixed ids X :
  Forall (fun n => targeted ids n = false) (flatten X) ->
  kept ids X = X /\ encountered ids X = [].
Proof.
  induction X as [| m rest IH | id name ch d rest IHch IHrest] using forest_ind;
    intros H.
  - split; reflexivity.
  - rewrite flatten_media in H. inversion H as [|? ? E Hr]; subst.
    destruct (IH Hr) as [IH1 IH2].
    rewrite kept_cons, encountered_cons, keptItem_media, encounteredItem_media,
      IH1, IH2 by exact E. split; reflexivity.
  - rewrite flatten_folder in H. inversion H as [|? ? E Hr]; subst.
    apply Forall_app in Hr. destruct Hr as [Hch Hrest].
    destruct (IHch Hch) as [C1 C2]. destruct (IHrest Hrest) as [R1 R2].
    rewrite kept_cons, encountered_cons, keptItem_folder, encounteredItem_folder,
      C1, C2, R1, R2 by exact E. split; reflexivity.
Qed.

Lemma targets_collected ids M :
  Forall (fun n => targeted ids n = true) M ->
  kept ids M = [] /\ encountered ids M = M.
Proof.
  induction M as [|n M IH]; intros H; [split; reflexivity|].
  inversion H as [|? ? E Hr]; subst. destruct (IH Hr) as [I1 I2].
  rewrite kept_cons, encountered_cons, keptItem_target, encounteredItem_target,
    I1, I2 by exact E. split; reflexivity.
Qed.

(** *** Counting identifiers *)

Lemma occ_cons d n rest :
  occ d (n :: rest)
  = (if string_dec (item_id n) d then 1 else 0)
    + occ d (item_children n) + occ d rest.
Proof.
  unfold occ. rewrite flatten_cons. cbn [List.map count_occ].
  rewrite List.map_app, count_occ_app.
  destruct (string_dec (item_id n) d); lia.
Qed.

Lemma occ_nil d : occ d [] = 0.
Proof. reflexivity. Qed.

Lemma occ_app d l1 l2 : occ d (l1 ++ l2) = occ d l1 + occ d l2.
Proof. unfold occ. rewrite flatten_app, List.map_app, count_occ_app. reflexivity. Qed.

Lemma occ_pos d n X : In n (flatten X) -> item_id n = d -> 1 <= occ d X.
Proof.
  intros Hin Hid. unfold occ.
  assert (H : In d (List.map item_id (flatten X))).
  { rewrite <- Hid. apply in_map. exact Hin. }
  apply (count_occ_In string_dec) in H. lia.
Qed.

Lemma occ_kept ids d T : occ d (kept ids T) <= occ d T.
Proof.
  induction T as [| m rest IH | id name ch del rest IHch IHrest] using forest_ind.
  - reflexivity.
  - rewrite kept_cons, occ_app, (occ_cons d (Media m)).
    destruct (targeted ids (Media m)) eqn:E.
    + rewrite keptItem_target by exact E. rewrite ?occ_nil. lia.
    + rewrite keptItem_media by exact E. rewrite (occ_cons d (Media m) []).
      rewrite ?occ_nil. lia.
  - rewrite kept_cons, occ_app, (occ_cons d (FolderNode id name ch del)).
    destruct (targeted ids (FolderNode id name ch del)) eqn:E.
    + rewrite keptItem_target by exact E. rewrite ?occ_nil. lia.
    + rewrite keptItem_folder by exact E.
      rewrite (occ_cons d (FolderNode id name (kept ids ch) del) []).
      simpl item_id. simpl item_children. rewrite ?occ_nil. lia.
Qed.

Lemma unique_occ T d : uniqueIds T -> occ d T <= 1.
Proof. intros H. unfold occ. apply (proj1 (NoDup_count_occ string_dec _) H). Qed.

(** *** Counting the folders that receive the moved items *)

Lemma hits_cons dest n rest : hits dest (n :: rest) = hitsItem dest n + hits dest rest.
Proof. reflexivity. Qed.

Lemma hits_le_occ dest X : hits dest X <= occ dest X.
Proof.
  induction X as [| m rest IH | id name ch del rest IHch IHrest] using forest_ind.
  - reflexivity.
  - rewrite hits_cons, occ_cons. simpl hitsItem. lia.
  - rewrite hits_cons, occ_cons. simpl hitsItem. simpl item_id. simpl item_children.
    fold (hits dest ch).
    destruct (String.eqb_spec id dest) as [->|Hne].
    + destruct (string_dec dest dest); [lia|congruence].
    + lia.
Qed.

Lemma hits_pos dest X : folderIn dest X -> 1 <= hits dest X.
Proof.
  intros (name & ch & del & Hin). revert Hin.
  induction X as [| m rest IH | id name' ch' del' rest IHch IHrest] using forest_ind;
    intros Hin.
  - destruct Hin.
  - rewrite flatten_media in Hin. destruct Hin as [E|Hin]; [discriminate|].
    rewrite hits_cons. specialize (IH Hin). lia.
  - rewrite flatten_folder in Hin. rewrite hits_cons. simpl hitsItem.
    fold (hits dest ch').
    destruct (String.eqb_spec id dest) as [->|Hne]; [lia|].
    destruct Hin as [E|Hin]; [congruence|].
    apply in_app_or in Hin. destruct Hin as [Hin|Hin].
    + specialize (IHch Hin). lia.
    + specialize (IHrest Hin). lia.
Qed.

Lemma hits_zero dest X : ~ folderIn dest X -> hits dest X = 0.
Proof.
  intros H. destruct (hits dest X) eqn:E; [reflexivity|].
  exfalso. apply H. clear H.
  assert (Hpos : 1 <= hits dest X) by lia. clear E. revert Hpos.
  induction X as [| m rest IH | id name ch del rest IHch IHrest] using forest_ind;
    intros Hpos.
  - unfold hits in Hpos. simpl in Hpos. lia.
  - rewrite hits_cons in Hpos. simpl hitsItem in Hpos.
    destruct (IH Hpos) as (nm & c & dl & Hin).
    exists nm, c, dl. rewrite flatten_media. right. exact Hin.
  - rewrite hits_cons in Hpos. simpl hitsItem in Hpos. fold (hits dest ch) in Hpos.
    destruct (String.eqb_spec id dest) as [->|Hne].
    + exists name, ch, del. rewrite flatten_folder. left. reflexivity.
    + destruct (hits dest ch) eqn:Ec.
      * destruct (IHrest Hpos) as (nm & c & dl & Hin).
        exists nm, c, dl. rewrite flatten_folder. right. apply in_or_app. right. exact Hin.
      * destruct (IHch ltac:(lia)) as (nm & c & dl & Hin).
        exists nm, c, dl. rewrite flatten_folder. right. apply in_or_app. left. exact Hin.
Qed.

(** *** findAndAdd *)

Lemma findAndAdd_root M X : findAndAdd "root" M X = X ++ M.
Proof. reflexivity. Qed.

Lemma findAndAdd_folder dest M X :
  String.eqb dest "root" = false -> findAndAdd dest M X = addInto dest M X.
Proof. intros H. unfold findAndAdd. rewrite H. reflexivity. Qed.

Lemma addInto_cons_media dest M m rest :
  addInto dest M (Media m :: rest) = Media m :: addInto dest M rest.
Proof. reflexivity. Qed.

Lemma addInto_cons_folder dest M id name ch d rest :
  addInto dest M (FolderNode id name ch d :: rest)
  = (if String.eqb id dest then FolderNode id name (ch ++ M) d
     else FolderNode id name (addInto dest M ch) d) :: addInto dest M rest.
Proof. unfold addInto. simpl. destruct (String.eqb id dest); reflexivity. Qed.

Lemma addInto_no_hit dest M X : hits dest X = 0 -> addInto dest M X = X.
Proof.
  induction X as [| m rest IH | id name ch del rest IHch IHrest] using forest_ind;
    intros H.
  - reflexivity.
  - rewrite addInto_cons_media. rewrite hits_cons in H. simpl in H.
    rewrite IH by exact H. reflexivity.
  - rewrite addInto_cons_folder. rewrite hits_cons in H. simpl hitsItem in H.
    fold (hits dest ch) in H.
    destruct (String.eqb id dest); [lia|].
    rewrite IHch, IHrest by lia. reflexivity.
Qed.

Lemma concat_repeat_add {A} (M : list A) a b :
  concat (repeat M (a + b)) = concat (repeat M a) ++ concat (repeat M b).
Proof. rewrite repeat_app, concat_app. reflexivity. Qed.

(** Removing the targets again from a clean tree that received a list of
    targeted items gives back the clean tree and, per receiving folder,
    one copy of the list. *)
Lemma remove_after_add ids dest M X :
  Forall (fun n => targeted ids n = false) (flatten X) ->
  Forall (fun n => targeted ids n = true) M ->
  kept ids (addInto dest M X) = X
  /\ encountered ids (addInto dest M X) = concat (repeat M (hits dest X)).
Proof.
  intros HX HM. destruct (targets_collected ids M HM) as [M1 M2].
  induction X as [| m rest IH | id name ch del rest IHch IHrest] using forest_ind.
  - split; reflexivity.
  - rewrite flatten_media in HX. inversion HX as [|? ? E Hr]; subst.
    destruct (IH Hr) as [I1 I2].
    rewrite addInto_cons_media, kept_cons, encountered_cons, keptItem_media,
      encounteredItem_media, I1, I2 by exact E. split; reflexivity.
  - rewrite flatten_folder in HX. inversion HX as [|? ? E Hr]; subst.
    apply Forall_app in Hr. destruct Hr as [Hch Hrest].
    destruct (IHrest Hrest) as [R1 R2].
    rewrite addInto_cons_folder, kept_cons, encountered_cons, hits_cons, R1, R2.
    simpl hitsItem. fold (hits dest ch).
    destruct (String.eqb id dest).
    + rewrite keptItem_folder, encounteredItem_folder by exact E.
      rewrite kept_app, encountered_app, M1, M2.
      destruct (clean_fixed ids ch Hch) as [C1 C2]. rewrite C1, C2, app_nil_r.
      split; reflexivity.
    + rewrite keptItem_folder, encounteredItem_folder by exact E.
      destruct (IHch Hch) as [C1 C2]. rewrite C1, C2, concat_repeat_add.
      split; reflexivity.
Qed.

(** *** The destination folder survives the removal *)

Lemma underTarget_mono ids d X Y :
  (forall n, In n (flatten X) -> In n (flatten Y)) ->
  underTarget ids d X -> underTarget ids d Y.
Proof. intros H (n & Hin & Ht & Hd). exists n. auto. Qed.

Lemma folder_survives ids d T :
  folderIn d T -> ~ underTarget ids d T -> folderIn d (kept ids T).
Proof.
  intros (nm & c & dl & Hin). revert Hin.
  induction T as [| m rest IH | id name ch del rest IHch IHrest] using forest_ind;
    intros Hin Hfree.
  - destruct Hin.
  - rewrite flatten_media in Hin. destruct Hin as [E|Hin]; [discriminate|].
    destruct (IH Hin) as (nm' & c' & dl' & Hk).
    { intros Hu. apply Hfree. revert Hu. apply underTarget_mono.
      intros n Hn. rewrite flatten_media. right. exact Hn. }
    exists nm', c', dl'. rewrite kept_cons, flatten_app. apply in_or_app. right. exact Hk.
  - assert (Hrest : In (FolderNode d nm c dl) (flatten rest) ->
                    folderIn d (kept ids (FolderNode id name ch del :: rest))).
    { intros Hr. destruct (IHrest Hr) as (nm' & c' & dl' & Hk).
      { intros Hu. apply Hfree. revert Hu. apply underTarget_mono.
        intros n Hn. rewrite flatten_folder. right. apply in_or_app. right. exact Hn. }
      exists nm', c', dl'. rewrite kept_cons, flatten_app. apply in_or_app. right. exact Hk. }
    rewrite flatten_folder in Hin.
    destruct (targeted ids (FolderNode id name ch del)) eqn:E.
    + destruct Hin as [Eh|Hin].
      * exfalso. apply Hfree. exists (FolderNode id name ch del).
        split; [rewrite flatten_folder; left; reflexivity|]. split; [exact E|].
        injection Eh as -> _ _ _. rewrite flatten_folder. left. reflexivity.
      * apply in_app_or in Hin. destruct Hin as [Hc|Hr]; [|exact (Hrest Hr)].
        exfalso. apply Hfree. exists (FolderNode id name ch del).
        split; [rewrite flatten_folder; left; reflexivity|]. split; [exact E|].
        rewrite flatten_folder, flatten_nil, app_nil_r. right.
        change d with (item_id (FolderNode d nm c dl)). apply in_map. exact Hc.
    + destruct Hin as [Eh|Hin].
      * injection Eh as -> -> -> ->.
        exists nm, (kept ids c), dl.
        rewrite kept_cons, keptItem_folder by exact E. left. reflexivity.
      * apply in_app_or in Hin. destruct Hin as [Hc|Hr]; [|exact (Hrest Hr)].
        destruct (IHch Hc) as (nm' & c' & dl' & Hk).
        { intros Hu. apply Hfree. revert Hu. apply underTarget_mono.
          intros n Hn. rewrite flatten_folder. right. apply in_or_app. left. exact Hn. }
        exists nm', c', dl'. rewrite kept_cons, keptItem_folder by exact E.
        rewrite flatten_app, flatten_folder. apply in_or_app. left. right.
        apply in_or_app. left. exact Hk.
Qed.

Lemma valid_destination_hit T ids d :
  uniqueIds T -> folderIn d T -> ~ underTarget ids d T ->
  hits d (kept ids T) = 1.
Proof.
  intros Hu Hf Hfree.
  pose proof (hits_pos d _ (folder_survives ids d T Hf Hfree)).
  pose proof (hits_le_occ d (kept ids T)).
  pose proof (occ_kept ids d T). pose proof (unique_occ T d Hu). lia.
Qed.

(** *** The destination folder receives the items at the end of its
    children *)

Lemma addInto_at_dest dest M X name ch del :
  occ dest X <= 1 ->
  In (FolderNode dest name ch del) (flatten X) ->
  In (FolderNode dest name (ch ++ M) del) (flatten (addInto dest M X)).
Proof.
  induction X as [| m rest IH | id name' ch' del' rest IHch IHrest] using forest_ind;
    intros Hocc Hin.
  - destruct Hin.
  - rewrite occ_cons in Hocc. rewrite flatten_media in Hin.
    destruct Hin as [E|Hin]; [discriminate|].
    rewrite addInto_cons_media, flatten_media. right. apply IH; [lia|exact Hin].
  - rewrite occ_cons in Hocc. simpl item_id in Hocc. simpl item_children in Hocc.
    rewrite flatten_folder in Hin. rewrite addInto_cons_folder.
    destruct (String.eqb_spec id dest) as [->|Hne].
    + destruct (string_dec dest dest); [|congruence].
      destruct Hin as [E|Hin].
      * injection E as -> -> ->. rewrite flatten_folder. left. reflexivity.
      * exfalso. apply in_app_or in Hin. destruct Hin as [Hin|Hin].
        -- pose proof (occ_pos dest _ _ Hin eq_refl). lia.
        -- pose proof (occ_pos dest _ _ Hin eq_refl). lia.
    + destruct Hin as [E|Hin]; [congruence|].
      rewrite flatten_folder. right. apply in_or_app.
      apply in_app_or in Hin. destruct Hin as [Hin|Hin].
      * left. apply IHch; [lia|exact Hin].
      * right. apply IHrest; [lia|exact Hin].
Qed.

(** *** Encounter order *)

Lemma encountered_sublist ids T : encountered ids T `sublist_of` flatten T.
Proof.
  induction T as [| m rest IH | id name ch del rest IHch IHrest] using forest_ind.
  - constructor.
  - rewrite encountered_cons, flatten_media.
    destruct (targeted ids (Media m)) eqn:E.
    + rewrite encounteredItem_target by exact E. apply sublist_skip, IH.
    + rewrite encounteredItem_media by exact E. apply sublist_cons, IH.
  - rewrite encountered_cons, flatten_folder.
    destruct (targeted ids (FolderNode id name ch del)) eqn:E.
    + rewrite encounteredItem_target by exact E.
      apply sublist_skip, sublist_inserts_l, IHrest.
    + rewrite encounteredItem_folder by exact E.
      apply sublist_cons, sublist_app; assumption.
Qed.

Lemma flatten_self_in n rest : forall x, In x (flatten [n]) -> In x (flatten (n :: rest)).
Proof.
  intros x. rewrite (flatten_cons n []), (flatten_cons n rest), flatten_nil, app_nil_r.
  intros [->|H]; [left; reflexivity|right; apply in_or_app; left; exact H].
Qed.

Lemma targets_below_encountered ids T :
  forall x, In x (flatten T) -> targeted ids x = true ->
            In x (flatten (encountered ids T)).
Proof.
  induction T as [| m rest IH | id name ch del rest IHch IHrest] using forest_ind;
    intros x Hin Hx.
  - destruct Hin.
  - rewrite encountered_cons, flatten_app. apply in_or_app.
    rewrite flatten_media in Hin. destruct Hin as [<-|Hin].
    + left. rewrite encounteredItem_target by exact Hx. left. reflexivity.
    + right. apply IH; assumption.
  - rewrite encountered_cons, flatten_app. apply in_or_app.
    rewrite flatten_folder in Hin.
    destruct (targeted ids (FolderNode id name ch del)) eqn:E.
    + rewrite encounteredItem_target by exact E.
      destruct Hin as [<-|Hin]; [left; left; reflexivity|].
      apply in_app_or in Hin. destruct Hin as [Hin|Hin].
      * left. rewrite flatten_folder, flatten_nil, app_nil_r. right. exact Hin.
      * right. apply IHrest; assumption.
    + rewrite encounteredItem_folder by exact E.
      destruct Hin as [<-|Hin]; [congruence|].
      apply in_app_or in Hin. destruct Hin as [Hin|Hin].
      * left. apply IHch; assumption.
      * right. apply IHrest; assumption.
Qed.

(** *** Moving twice *)

Lemma remove_after_move T ids destA :
  uniqueIds T -> validDestination T ids destA ->
  findAndRemove ids (moveItems T ids destA) []
  = (kept ids T, encountered ids T).
Proof.
  intros Hu Hv. rewrite findAndRemove_spec, moveItems_eq. simpl app.
  pose proof (kept_clean ids T) as HK. pose proof (encountered_targeted ids T) as HM.
  destruct (String.eqb destA "root") eqn:Eroot.
  - apply String.eqb_eq in Eroot. subst destA. rewrite findAndAdd_root.
    rewrite kept_app, encountered_app.
    destruct (clean_fixed ids _ HK) as [K1 K2].
    destruct (targets_collected ids _ HM) as [M1 M2].
    rewrite K1, K2, M1, M2, app_nil_r. reflexivity.
  - rewrite findAndAdd_folder by exact Eroot.
    destruct Hv as [->|[Hf Hfree]]; [discriminate|].
    destruct (remove_after_add ids destA _ _ HK HM) as [R1 R2].
    rewrite R1, R2, (valid_destination_hit T ids destA Hu Hf Hfree).
    simpl. rewrite app_nil_r. reflexivity.
Qed.

(** C3. In a tree with unique identifiers, moving the items to a valid
    destination [destA] (the root, or a folder that is neither moved nor
    below a moved folder) and then to [destB] gives the tree of the single
    move to [destB], whatever [destB] is.  The move collects the targeted
    nodes in the order of the pre-order walk (a subsequence of [flatten],
    holding every targeted node or a targeted ancestor of it), leaves no
    targeted node in the rest, and appends the collected nodes in that
    order to the root sequence or to the children of the destination
    folder. *)
Theorem moveItems_round_trip
    (T : list GalleryContentItem) (ids : gset string) (destA destB : string) :
  uniqueIds T -> validDestination T ids destA ->
  moveItems (moveItems T ids destA) ids destB = moveItems T ids destB
  /\ findAndRemove ids T [] = (kept ids T, encountered ids T)
  /\ encountered ids T `sublist_of` flatten T
  /\ Forall (fun n => targeted ids n = true) (encountered ids T)
  /\ (forall x, In x (flatten T) -> targeted ids x = true ->
        In x (flatten (encountered ids T)))
  /\ Forall (fun n => targeted ids n = false) (flatten (kept ids T))
  /\ moveItems T ids "root" = kept ids T ++ encountered ids T
  /\ (forall name ch del, destA <> "root" ->
        In (FolderNode destA name ch del) (flatten (kept ids T)) ->
        In (FolderNode destA name (ch ++ encountered ids T) del)
           (flatten (moveItems T ids destA))).
Proof.
  intros Hu Hv.
  split.
  { unfold moveItems at 1. rewrite (remove_after_move T ids destA Hu Hv).
    rewrite moveItems_eq. reflexivity. }
  split; [apply findAndRemove_spec|].
  split; [apply encountered_sublist|].
  split; [apply encountered_targeted|].
  split; [apply targets_below_encountered|].
  split; [apply kept_clean|].
  split; [rewrite moveItems_eq; reflexivity|].
  intros name ch del Hne Hin. rewrite moveItems_eq, findAndAdd_folder.
  - apply addInto_at_dest; [|exact Hin].
    pose proof (occ_kept ids destA T). pose proof (unique_occ T destA Hu). lia.
  - destruct (String.eqb_spec destA "root"); congruence.
Qed.

Lemma weddingTree_unique : uniqueIds Samples.weddingTree.
Proof.
  unfold uniqueIds. simpl.
  repeat (constructor; [simpl; intuition discriminate|]). constructor.
Qed.

Lemma reception_valid :
  validDestination Samples.weddingTree {[ "p1"; "p3" ]} "reception".
Proof.
  right. split.
  - exists "Reception", [Media (Samples.photo "p2" "Dance")], None.
    simpl. tauto.
  - intros (n & Hin & Ht & Hd). simpl in Hin.
    repeat (destruct Hin as [<-|Hin]; [vm_compute in Ht, Hd; intuition discriminate|]).
    destruct Hin.
Qed.

Lemma moveItems_round_trip_witness :
  moveItems (moveItems Samples.weddingTree {[ "p1"; "p3" ]} "reception")
            {[ "p1"; "p3" ]} "root"
  = moveItems Samples.weddingTree {[ "p1"; "p3" ]} "root"
  /\ List.map item_id
       (flatten (moveItems Samples.weddingTree {[ "p1"; "p3" ]} "reception"))
     = ["wedding"; "reception"; "p2"; "p1"; "p3"].
Proof.
  split; [|vm_compute; reflexivity].
  exact (proj1 (moveItems_round_trip Samples.weddingTree {[ "p1"; "p3" ]}
                  "reception" "root" weddingTree_unique reception_valid)).
Defined.

(** *** A destination that is not there *)

Lemma kept_folder_origin ids d T name ch del :
  In (FolderNode d name ch del) (flatten (kept ids T)) ->
  exists ch', In (FolderNode d name ch' del) (flatten T).
Proof.
  induction T as [| m rest IH | id name' c del' rest IHch IHrest] using forest_ind;
    intros Hin.
  - destruct Hin.
  - rewrite kept_cons, flatten_app in Hin. apply in_app_or in Hin.
    assert (Hrest : In (FolderNode d name ch del) (flatten (kept ids rest)) ->
                    exists ch', In (FolderNode d name ch' del) (flatten (Media m :: rest))).
    { intros H. destruct (IH H) as [ch' Hc]. exists ch'. rewrite flatten_media. right. exact Hc. }
    destruct Hin as [Hin|Hin]; [|exact (Hrest Hin)].
    destruct (targeted ids (Media m)) eqn:E.
    + rewrite keptItem_target in Hin by exact E. destruct Hin.
    + rewrite keptItem_media in Hin by exact E. simpl in Hin.
      destruct Hin as [Hin|[]]. discriminate.
  - rewrite kept_cons, flatten_app in Hin. apply in_app_or in Hin.
    destruct Hin as [Hin|Hin].
    + destruct (targeted ids (FolderNode id name' c del')) eqn:E.
      * rewrite keptItem_target in Hin by exact E. destruct Hin.
      * rewrite keptItem_folder in Hin by exact E.
        rewrite flatten_folder, flatten_nil, app_nil_r in Hin.
        destruct Hin as [Eh|Hin].
        -- injection Eh as -> -> _ ->. exists c. rewrite flatten_folder. left. reflexivity.
        -- destruct (IHch Hin) as [ch' Hc]. exists ch'. rewrite flatten_folder.
           right. apply in_or_app. left. exact Hc.
    + destruct (IHrest Hin) as [ch' Hc]. exists ch'. rewrite flatten_folder.
      right. apply in_or_app. right. exact Hc.
Qed.

Lemma two_nodes_one_id (l : list GalleryContentItem) a b d :
  In a l -> In b l -> a <> b -> item_id a = d -> item_id b = d ->
  2 <= count_occ string_dec (List.map item_id l) d.
Proof.
  induction l as [|x l IH]; intros Ha Hb Hab Hida Hidb; [destruct Ha|].
  simpl. destruct Ha as [->|Ha], Hb as [->|Hb].
  - congruence.
  - destruct (string_dec (item_id a) d); [|congruence].
    assert (In d (List.map item_id l)) as H by (rewrite <- Hidb; apply in_map, Hb).
    apply (count_occ_In string_dec) in H. lia.
  - destruct (string_dec (item_id b) d); [|congruence].
    assert (In d (List.map item_id l)) as H by (rewrite <- Hida; apply in_map, Ha).
    apply (count_occ_In string_dec) in H. lia.
  - specialize (IH Ha Hb Hab Hida Hidb). destruct (string_dec (item_id x) d); lia.
Qed.

Lemma moveItems_no_hit T ids dest :
  dest <> "root" -> ~ folderIn dest (kept ids T) ->
  moveItems T ids dest = kept ids T.
Proof.
  intros Hne Hno. rewrite moveItems_eq, findAndAdd_folder.
  - apply addInto_no_hit, hits_zero, Hno.
  - destruct (String.eqb_spec dest "root"); congruence.
Qed.

(** C10. When the destination is not the root and no folder of the tree
    left after the removal carries its id, the move returns that tree:
    none of its nodes is targeted and none of the collected nodes is in
    it.  This is the case for the id of a moved item, for an id that no
    node carries and, with unique identifiers, for the id of a media
    item. *)
Theorem moveItems_loses_items
    (T : list GalleryContentItem) (ids : gset string) (dest : string) :
  dest <> "root" ->
  (~ folderIn dest (fst (findAndRemove ids T [])) ->
   moveItems T ids dest = fst (findAndRemove ids T [])
   /\ Forall (fun n => targeted ids n = false) (flatten (moveItems T ids dest))
   /\ (forall n, In n (snd (findAndRemove ids T [])) ->
                 targeted ids n = true
                 /\ In n (flatten T)
                 /\ ~ In n (flatten (moveItems T ids dest))))
  /\ (has ids dest = true -> ~ folderIn dest (fst (findAndRemove ids T [])))
  /\ (occ dest T = 0 -> ~ folderIn dest (fst (findAndRemove ids T [])))
  /\ (uniqueIds T ->
      (exists m, In (Media m) (flatten T) /\ m_id m = dest) ->
      ~ folderIn dest (fst (findAndRemove ids T []))).
Proof.
  intros Hne. rewrite findAndRemove_spec. simpl fst. simpl snd.
  split; [|split; [|split]].
  - intros Hno. rewrite (moveItems_no_hit T ids dest Hne Hno).
    split; [reflexivity|]. split; [apply kept_clean|].
    intros n Hn. pose proof (encountered_targeted ids T) as Ht.
    rewrite List.Forall_forall in Ht. specialize (Ht n Hn).
    split; [exact Ht|]. split.
    + apply list_elem_of_In.
      eapply elem_of_sublist; [|apply encountered_sublist].
      apply list_elem_of_In. exact Hn.
    + intros Hin. pose proof (kept_clean ids T) as Hc.
      rewrite List.Forall_forall in Hc. specialize (Hc n Hin). congruence.
  - intros Hhas (name & ch & del & Hin). pose proof (kept_clean ids T) as Hc.
    rewrite List.Forall_forall in Hc. specialize (Hc _ Hin).
    unfold targeted in Hc. simpl in Hc. congruence.
  - intros Hocc (name & ch & del & Hin).
    pose proof (occ_pos dest _ _ Hin eq_refl). pose proof (occ_kept ids dest T). lia.
  - intros Hu (m & Hm & Hid) (name & ch & del & Hin).
    destruct (kept_folder_origin _ _ _ _ _ _ Hin) as [ch' Hf].
    pose proof (two_nodes_one_id (flatten T) (Media m) (FolderNode dest name ch' del)
                  dest Hm Hf ltac:(discriminate) Hid eq_refl) as H2.
    pose proof (unique_occ T dest Hu) as H1. unfold occ in H1. lia.
Qed.

Lemma moveItems_loses_items_witness :
  moveItems Samples.weddingTree {[ "reception" ]} "reception"
  = [ FolderNode "wedding" "Wedding" [Media (Samples.photo "p1" "Ceremony")] None;
      Media (Samples.photo "p3" "Portrait") ]
  /\ moveItems Samples.weddingTree {[ "p1" ]} "p3"
     = fst (findAndRemove {[ "p1" ]} Samples.weddingTree []).
Proof.
  split.
  - destruct (moveItems_loses_items Samples.weddingTree {[ "reception" ]}
                "reception" ltac:(discriminate)) as (H & Hmoved & _).
    destruct (H (Hmoved eq_refl)) as (E & _). rewrite E. reflexivity.
  - destruct (moveItems_loses_items Samples.weddingTree {[ "p1" ]}
                "p3" ltac:(discriminate)) as (H & _ & _ & Hmedia).
    apply H. apply Hmedia; [exact weddingTree_unique|].
    exists (Samples.photo "p3" "Portrait"). split; [simpl; tauto|reflexivity].
Defined.

End MoveFacts.

(** ** Numbers: the sign of a rounded integer *)

Module NumberFacts.
Local Open Scope Z_scope.

Lemma digits2_lower p : 2 ^ (Zpos (digits2_pos p) - 1) <= Zpos p.
Proof.
  induction p as [p IH|p IH|]; cbn [digits2_pos].
  - rewrite Pos2Z.inj_succ.
    replace (Z.succ (Zpos (digits2_pos p)) - 1) with (Z.succ (Zpos (digits2_pos p) - 1)) by lia.
    rewrite Z.pow_succ_r by lia. lia.
  - rewrite Pos2Z.inj_succ.
    replace (Z.succ (Zpos (digits2_pos p)) - 1) with (Z.succ (Zpos (digits2_pos p) - 1)) by lia.
    rewrite Z.pow_succ_r by lia. lia.
  - reflexivity.
Qed.

Lemma shr_1_m mrs : 0 <= shr_m mrs -> shr_m (shr_1 mrs) = shr_m mrs / 2.
Proof.
  destruct mrs as [m r s]. cbn [shr_m shr_1]. intros H.
  destruct m as [|[p|p|]|p]; cbn [shr_m]; try lia.
  - reflexivity.
  - rewrite Pos2Z.inj_xI. apply Z.div_unique with 1; lia.
  - rewrite Pos2Z.inj_xO. apply Z.div_unique with 0; lia.
  - reflexivity.
Qed.

Lemma iter_shr_m p : forall mrs,
  0 <= shr_m mrs ->
  shr_m (SpecFloat.iter_pos shr_1 p mrs) = shr_m mrs / 2 ^ Zpos p.
Proof.
  assert (Hnn : forall mrs, 0 <= shr_m mrs -> 0 <= shr_m (shr_1 mrs)).
  { intros mrs H. rewrite shr_1_m by exact H. apply Z.div_pos; lia. }
  induction p as [p IH|p IH|]; intros mrs H; cbn [SpecFloat.iter_pos].
  - rewrite IH, IH, shr_1_m by (try rewrite IH; auto; apply Z.div_pos; auto; lia).
    rewrite !Z.div_div by lia. f_equal.
    replace (Zpos p~1) with (1 + Zpos p + Zpos p) by lia.
    rewrite !Z.pow_add_r by lia. lia.
  - rewrite IH, IH by (try rewrite IH; auto; apply Z.div_pos; auto; lia).
    rewrite !Z.div_div by lia. f_equal.
    replace (Zpos p~0) with (Zpos p + Zpos p) by lia.
    rewrite !Z.pow_add_r by lia. lia.
  - rewrite shr_1_m by exact H. reflexivity.
Qed.

Lemma shr_fexp_positive m e l :
  0 < m -> -1074 <= e ->
  0 < shr_m (fst (shr_fexp JS.prec JS.emax m e l))
  /\ -1074 <= snd (shr_fexp JS.prec JS.emax m e l).
Proof.
  intros Hm He. unfold shr_fexp, shr.
  assert (Hrec : shr_m (shr_record_of_loc m l) = m).
  { destruct l as [|[| |]]; reflexivity. }
  destruct m as [|q|q]; try lia. cbn [Zdigits2].
  pose proof (digits2_lower q) as Hd.
  set (dg := Zpos (digits2_pos q)) in *.
  assert (Hdg : 1 <= dg) by (unfold dg; lia).
  unfold fexp, emin, JS.prec, JS.emax.
  destruct (Z.max (dg + e - 53) (3 - 1024 - 53) - e) as [|k|k] eqn:Ek; cbn [fst snd].
  - rewrite Hrec. lia.
  - rewrite iter_shr_m by (rewrite Hrec; lia). rewrite Hrec. split; [|lia].
    apply Z.div_str_pos. split; [apply Z.pow_pos_nonneg; lia|].
    etransitivity; [|exact Hd]. apply Z.pow_le_mono_r; lia.
  - rewrite Hrec. lia.
Qed.

Lemma round_nearest_even_ge m l : m <= round_nearest_even m l.
Proof. destruct l as [|[| |]]; cbn; try lia. destruct (Z.even m); lia. Qed.

Lemma binary_round_aux_sign s m e l :
  0 < m -> -1074 <= e ->
  JS.signOf (binary_round_aux JS.prec JS.emax s m e l) = if s then -1 else 1.
Proof.
  intros Hm He. unfold binary_round_aux.
  destruct (shr_fexp_positive m e l Hm He) as [H1 H1'].
  destruct (shr_fexp JS.prec JS.emax m e l) as [mrs' e']. cbn [fst snd] in *.
  pose proof (round_nearest_even_ge (shr_m mrs') (loc_of_shr_record mrs')) as Hr.
  destruct (shr_fexp_positive (round_nearest_even (shr_m mrs') (loc_of_shr_record mrs'))
              e' loc_Exact ltac:(lia) H1') as [H2 _].
  destruct (shr_fexp JS.prec JS.emax _ e' loc_Exact) as [mrs'' e'']. cbn [fst] in H2.
  destruct (shr_m mrs'') as [|q|q]; try lia.
  destruct (e'' <=? JS.emax - JS.prec); reflexivity.
Qed.

Lemma binary_round_sign s p :
  JS.signOf (binary_round JS.prec JS.emax s p 0) = if s then -1 else 1.
Proof.
  unfold binary_round, shl_align.
  set (f := fexp JS.prec JS.emax (Zpos (digits2_pos p) + 0)).
  assert (Hf : -1074 <= f) by (unfold f, fexp, emin, JS.prec, JS.emax; lia).
  destruct (f - 0) as [|k|k]; apply binary_round_aux_sign; lia.
Qed.

Lemma signOf_fromZ z : JS.signOf (JS.fromZ z) = Z.sgn z.
Proof.
  destruct z as [|p|p]; [reflexivity| |]; apply binary_round_sign.
Qed.

End NumberFacts.

(** ** The sort stage of processedItems *)

Module SortFacts.
Import Notions Gallery.
Local Open Scope Z_scope.

(** *** The stable insertion sort *)

Section SortedBy.
Context {A : Type}.
Variable compareFn : A -> A -> JS.number.
Variable R : A -> A -> Prop.
Hypothesis R_of_le : forall x y, JS.signOf (compareFn x y) <= 0 -> R x y.
Hypothesis R_of_gt : forall x y, 0 < JS.signOf (compareFn x y) -> R y x.
Hypothesis R_trans : forall x y z, R x y -> R y z -> R x z.

Lemma sortInsert_Forall y x l :
  R y x -> Forall (R y) l -> Forall (R y) (sortInsert compareFn x l).
Proof.
  intros Hyx Hl. induction l as [|z l IH]; simpl.
  - constructor; [exact Hyx|constructor].
  - destruct (JS.signOf (compareFn x z) <=? 0).
    + constructor; assumption.
    + inversion Hl; subst. constructor; auto.
Qed.

Lemma sortInsert_sorted x l :
  StronglySorted R l -> StronglySorted R (sortInsert compareFn x l).
Proof.
  induction 1 as [|y l Hs IH Hy]; simpl.
  - constructor; constructor.
  - destruct (Z.leb_spec (JS.signOf (compareFn x y)) 0) as [Hle|Hgt].
    + constructor; [constructor; assumption|].
      constructor; [apply R_of_le, Hle|].
      eapply List.Forall_impl; [|exact Hy]. intros z Hyz.
      eapply R_trans; [apply R_of_le, Hle|exact Hyz].
    + constructor; [exact IH|].
      apply sortInsert_Forall; [apply R_of_gt, Hgt|exact Hy].
Qed.

Lemma sort_sorted l : StronglySorted R (sort compareFn l).
Proof.
  induction l as [|x l IH]; simpl; [constructor|].
  apply sortInsert_sorted, IH.
Qed.
End SortedBy.

Lemma sortInsert_perm {A} (cmp : A -> A -> JS.number) x l :
  Permutation (x :: l) (sortInsert cmp x l).
Proof.
  induction l as [|y l IH]; simpl; [reflexivity|].
  destruct (JS.signOf (cmp x y) <=? 0); [reflexivity|].
  rewrite perm_swap. constructor. exact IH.
Qed.

Lemma sort_perm {A} (cmp : A -> A -> JS.number) l : Permutation l (sort cmp l).
Proof.
  induction l as [|x l IH]; simpl; [reflexivity|].
  rewrite <- sortInsert_perm. constructor. exact IH.
Qed.

Lemma sorted_lookup {A} (R : A -> A -> Prop) l :
  StronglySorted R l ->
  forall (i j : nat) a b, (i < j)%nat -> l !! i = Some a -> l !! j = Some b -> R a b.
Proof.
  induction 1 as [|x l Hs IH Hx]; intros i j a b Hij Ha Hb; [discriminate|].
  destruct j as [|j]; [lia|]. simpl in Hb.
  destruct i as [|i].
  - injection Ha as <-. rewrite List.Forall_forall in Hx. apply Hx.
    apply list_elem_of_In. eapply list_elem_of_lookup_2. exact Hb.
  - simpl in Ha. apply (IH i j); [lia|assumption|assumption].
Qed.

(** *** The comparators *)

Lemma signOf_ofZ z : JS.signOf (ofZ z) = Z.sgn z.
Proof. apply NumberFacts.signOf_fromZ. Qed.

Lemma sortItems_comparator lc gt o l :
  sortItems lc gt o l = sort (comparatorOf lc gt o) l.
Proof. destruct o; reflexivity. Qed.

Ltac by_kind a b :=
  destruct a as [?|? ? ? ?], b as [?|? ? ? ?];
  cbn [compareNameAsc compareNameDesc compareMedia comparatorOf
       compareDateAsc compareDateDesc compareSizeAsc compareSizeDesc
       isFolder item_name];
  rewrite ?signOf_ofZ.

Lemma comparator_le_media lc gt o x y :
  JS.signOf (comparatorOf lc gt o x y) <= 0 -> mediaThenMedia x y.
Proof.
  unfold mediaThenMedia. destruct o; by_kind x y; simpl; intros; try congruence; lia.
Qed.

Lemma comparator_gt_media lc gt o x y :
  0 < JS.signOf (comparatorOf lc gt o x y) -> mediaThenMedia y x.
Proof.
  unfold mediaThenMedia. destruct o; by_kind x y; simpl; intros; try congruence; lia.
Qed.

Lemma mediaThenMedia_trans x y z :
  mediaThenMedia x y -> mediaThenMedia y z -> mediaThenMedia x z.
Proof. unfold mediaThenMedia. auto. Qed.

Lemma sorted_foldersFirst l :
  StronglySorted mediaThenMedia l -> foldersFirst l.
Proof.
  intros Hs i j a b Ha Hb Hfa Hfb.
  destruct (Nat.lt_trichotomy i j) as [Hlt|[->|Hgt]]; [exact Hlt| |].
  - congruence.
  - pose proof (sorted_lookup _ _ Hs j i b a Hgt Hb Ha Hfb). congruence.
Qed.

(** C6. In the output of the sort stage, for each of the six options and
    every listing, every folder entry precedes every entry that is not a
    folder; the output holds the entries of the input; and so the output
    of the whole pipeline is ordered folders first. *)
Theorem sortItems_folders_first
    (localeCompare : string -> string -> Z) (getTime : string -> JS.number)
    (sortOption : SortOption) (listing : list GalleryContentItem) :
  foldersFirst (sortItems localeCompare getTime sortOption listing)
  /\ Permutation listing (sortItems localeCompare getTime sortOption listing)
  /\ (forall specialView filterOption searchQuery userId currentItems allMediaItems,
        foldersFirst
          (processedItems localeCompare getTime specialView filterOption
             searchQuery sortOption userId currentItems allMediaItems)).
Proof.
  assert (H : forall l, foldersFirst (sortItems localeCompare getTime sortOption l)).
  { intros l. rewrite sortItems_comparator. apply sorted_foldersFirst.
    apply sort_sorted.
    - apply comparator_le_media.
    - apply comparator_gt_media.
    - apply mediaThenMedia_trans. }
  split; [apply H|]. split.
  - rewrite sortItems_comparator. apply sort_perm.
  - intros. unfold processedItems. apply H.
Qed.

Lemma sortItems_folders_first_witness :
  foldersFirst
    (sortItems Samples.codeUnitCompare Samples.noTime SizeDesc Samples.mixedListing)
  /\ List.map item_name
       (sortItems Samples.codeUnitCompare Samples.noTime SizeDesc
          Samples.mixedListing)
     = ["Alpha"; "Beta"; "Zebra"].
Proof.
  split; [|reflexivity].
  exact (proj1 (sortItems_folders_first Samples.codeUnitCompare Samples.noTime
                  SizeDesc Samples.mixedListing)).
Defined.

(** *** Order among the folders *)

Section FolderOrder.
Variable lc : string -> string -> Z.
Variable gt : string -> JS.number.
Hypothesis Hlc : consistent lc.

Lemma sgn_le z : Z.sgn z <= 0 -> z <= 0.
Proof. destruct z; simpl; lia. Qed.

Lemma sgn_gt z : 0 < Z.sgn z -> 0 < z.
Proof. destruct z; simpl; lia. Qed.

Lemma asc_of_le o x y :
  o <> NameDesc ->
  JS.signOf (comparatorOf lc gt o x y) <= 0 -> ascending lc x y.
Proof.
  intros Ho H. split; [eapply comparator_le_media; exact H|].
  revert H. destruct o; try congruence; by_kind x y; simpl;
    intros; try congruence; auto using sgn_le.
Qed.

Lemma asc_of_gt o x y :
  o <> NameDesc ->
  0 < JS.signOf (comparatorOf lc gt o x y) -> ascending lc y x.
Proof.
  intros Ho H. split; [eapply comparator_gt_media; exact H|].
  destruct Hlc as [Hanti _].
  revert H. destruct o; try congruence; by_kind x y; simpl;
    intros H ? ?; try congruence;
    apply sgn_gt, Hanti in H; lia.
Qed.

Lemma ascending_trans x y z :
  ascending lc x y -> ascending lc y z -> ascending lc x z.
Proof.
  destruct Hlc as [_ Htrans].
  intros [M1 A1] [M2 A2]. split; [eapply mediaThenMedia_trans; eauto|].
  intros Hx Hz. destruct (isFolder y) eqn:Hy.
  - eapply Htrans; eauto.
  - unfold mediaThenMedia in M2. rewrite (M2 Hy) in Hz. discriminate.
Qed.

Lemma desc_of_le x y :
  JS.signOf (compareNameDesc lc x y) <= 0 -> descending lc x y.
Proof.
  intros H. split; [apply (comparator_le_media lc gt NameDesc); exact H|].
  revert H. by_kind x y; simpl; intros; try congruence; auto using sgn_le.
Qed.

Lemma desc_of_gt x y :
  0 < JS.signOf (compareNameDesc lc x y) -> descending lc y x.
Proof.
  intros H. split; [apply (comparator_gt_media lc gt NameDesc); exact H|].
  destruct Hlc as [Hanti _].
  revert H. by_kind x y; simpl; intros H ? ?; try congruence;
    apply sgn_gt, Hanti in H; lia.
Qed.

Lemma descending_trans x y z :
  descending lc x y -> descending lc y z -> descending lc x z.
Proof.
  destruct Hlc as [_ Htrans].
  intros [M1 A1] [M2 A2]. split; [eapply mediaThenMedia_trans; eauto|].
  intros Hx Hz. destruct (isFolder y) eqn:Hy.
  - eapply Htrans; eauto.
  - unfold mediaThenMedia in M2. rewrite (M2 Hy) in Hz. discriminate.
Qed.

Lemma sortItems_ascending o l :
  o <> NameDesc -> folderNamesAscending lc (sortItems lc gt o l).
Proof.
  intros Ho i j a b Hij Ha Hb Hfa Hfb. rewrite sortItems_comparator in Ha, Hb.
  assert (Hs : StronglySorted (ascending lc) (sort (comparatorOf lc gt o) l)).
  { apply sort_sorted.
    - intros x y. apply asc_of_le, Ho.
    - intros x y. apply asc_of_gt, Ho.
    - apply ascending_trans. }
  destruct (sorted_lookup _ _ Hs i j a b Hij Ha Hb) as [_ H]. auto.
Qed.

Lemma sortItems_descending l :
  folderNamesDescending lc (sortItems lc gt NameDesc l).
Proof.
  intros i j a b Hij Ha Hb Hfa Hfb.
  assert (Hs : StronglySorted (descending lc) (sort (compareNameDesc lc) l)).
  { apply sort_sorted.
    - apply desc_of_le.
    - apply desc_of_gt.
    - apply descending_trans. }
  destruct (sorted_lookup _ _ Hs i j a b Hij Ha Hb) as [_ H]. auto.
Qed.
End FolderOrder.

Lemma date_sort_drops_folders lc gt view filt q o uid cur all :
  isDateSort o = true ->
  Forall (fun n => isFolder n = false)
         (processedItems lc gt view filt q o uid cur all).
Proof.
  intros Hd. unfold processedItems.
  set (src := selectSource view uid cur all).
  assert (Hf : Forall (fun n => isFolder n = false)
                 (List.filter (keepByFilter filt o uid) src)).
  { apply List.Forall_forall. intros n Hn. apply filter_In in Hn.
    destruct Hn as [_ Hk]. unfold keepByFilter in Hk. rewrite Hd in Hk.
    destruct (isFolder n); [discriminate|reflexivity]. }
  assert (Hs : Forall (fun n => isFolder n = false)
                 (if negb (String.eqb (JS.trim q) EmptyString)
                  then List.filter (matchesSearch view filt (JS.toLowerCase q))
                         (List.filter (keepByFilter filt o uid) src)
                  else List.filter (keepByFilter filt o uid) src)).
  { destruct (negb (String.eqb (JS.trim q) EmptyString)); [|exact Hf].
    apply List.Forall_forall. intros n Hn. apply filter_In in Hn.
    rewrite List.Forall_forall in Hf. apply Hf. tauto. }
  rewrite sortItems_comparator.
  eapply Permutation_Forall; [apply sort_perm|exact Hs].
Qed.

(** C2 (as amended). With a consistent [localeCompare], the folder
    entries of the sorted output are in ascending order of name under
    name-asc, size-asc and size-desc, and in descending order of name
    under name-desc; under date-asc and date-desc the sort stage orders
    folders by ascending name as well, and the pipeline's output holds no
    folder at all. *)
Theorem sorted_folder_order
    (localeCompare : string -> string -> Z) (getTime : string -> JS.number)
    (sortOption : SortOption) :
  consistent localeCompare ->
  (forall listing,
     match sortOption with
     | NameDesc =>
         folderNamesDescending localeCompare
           (sortItems localeCompare getTime sortOption listing)
     | _ =>
         folderNamesAscending localeCompare
           (sortItems localeCompare getTime sortOption listing)
     end)
  /\ (forall specialView filterOption searchQuery userId currentItems allMediaItems,
        let output :=
          processedItems localeCompare getTime specialView filterOption
            searchQuery sortOption userId currentItems allMediaItems in
        match sortOption with
        | NameDesc => folderNamesDescending localeCompare output
        | DateAsc | DateDesc =>
            Forall (fun n => isFolder n = false) output
        | _ => folderNamesAscending localeCompare output
        end).
Proof.
  intros Hlc. split.
  - intros listing. destruct sortOption;
      try (apply (sortItems_ascending _ _ Hlc); discriminate).
    apply (sortItems_descending _ _ Hlc).
  - intros. destruct sortOption; subst output;
      try (apply date_sort_drops_folders; reflexivity);
      try (unfold processedItems; apply (sortItems_ascending _ _ Hlc); discriminate).
    unfold processedItems. apply (sortItems_descending _ _ Hlc).
Qed.

Lemma codeUnitCompare_swap a : forall b,
  0 < Samples.codeUnitCompare a b -> Samples.codeUnitCompare b a < 0.
Proof.
  induction a as [|x a IH]; intros [|y b]; simpl; try lia.
  rewrite (N.compare_antisym (N_of_ascii x) (N_of_ascii y)).
  destruct (N.compare (N_of_ascii x) (N_of_ascii y)); simpl; try lia.
  apply IH.
Qed.

Lemma codeUnitCompare_trans a : forall b c,
  Samples.codeUnitCompare a b <= 0 -> Samples.codeUnitCompare b c <= 0 ->
  Samples.codeUnitCompare a c <= 0.
Proof.
  induction a as [|x a IH]; intros [|y b] [|z c]; simpl; try lia.
  destruct (N.compare_spec (N_of_ascii x) (N_of_ascii y)) as [Exy|Lxy|Gxy];
    destruct (N.compare_spec (N_of_ascii y) (N_of_ascii z)) as [Eyz|Lyz|Gyz];
    destruct (N.compare_spec (N_of_ascii x) (N_of_ascii z)) as [Exz|Lxz|Gxz];
    try lia.
  apply IH.
Qed.

Lemma codeUnitCompare_consistent : consistent Samples.codeUnitCompare.
Proof.
  split; [intros a b; apply codeUnitCompare_swap|].
  intros a b c. apply codeUnitCompare_trans.
Qed.

Lemma sorted_folder_order_witness :
  folderNamesDescending Samples.codeUnitCompare
    (sortItems Samples.codeUnitCompare Samples.noTime NameDesc Samples.mixedListing)
  /\ folderNamesAscending Samples.codeUnitCompare
       (sortItems Samples.codeUnitCompare Samples.noTime SizeDesc
          Samples.mixedListing).
Proof.
  split.
  - exact (proj1 (sorted_folder_order Samples.codeUnitCompare Samples.noTime
                    NameDesc codeUnitCompare_consistent) Samples.mixedListing).
  - exact (proj1 (sorted_folder_order Samples.codeUnitCompare Samples.noTime
                    SizeDesc codeUnitCompare_consistent) Samples.mixedListing).
Defined.

(** Under name-desc the pipeline puts the folder "Beta" before the folder
    "Alpha": the folders are not in ascending order of name. *)
Lemma name_desc_reverses_folders :
  List.map item_name
    (processedItems Samples.codeUnitCompare Samples.noTime ViewNone FilterAll EmptyString
       NameDesc "u1" Samples.mixedListing [])
  = ["Beta"; "Alpha"; "Zebra"]
  /\ ~ folderNamesAscending Samples.codeUnitCompare
         (processedItems Samples.codeUnitCompare Samples.noTime ViewNone FilterAll EmptyString
            NameDesc "u1" Samples.mixedListing []).
Proof.
  split; [reflexivity|].
  intros H.
  specialize (H 0%nat 1%nat (FolderNode "fb" "Beta" [] None)
                (FolderNode "fa" "Alpha" [] None)
                ltac:(lia) eq_refl eq_refl eq_refl eq_refl).
  vm_compute in H. apply H. reflexivity.
Qed.

End SortFacts.

(** ** findPathStringForMediaItem *)

Module PathStringFacts.
Import Notions MoreNotions Gallery Handlers FlattenFacts MoveFacts.

Lemma firstReturn_app body l1 l2 :
  firstReturn body (l1 ++ l2)
  = match firstReturn body l1 with
    | Some s => Some s
    | None => firstReturn body l2
    end.
Proof.
  induction l1 as [|x l1 IH]; simpl; [reflexivity|].
  destruct (body x); [reflexivity|exact IH].
Qed.

Lemma join_nonempty cp : startsNonEmpty cp -> join " / " cp <> EmptyString.
Proof.
  intros (h & t & -> & Hh). destruct t as [|x t]; simpl; [exact Hh|].
  destruct h; [congruence|discriminate].
Qed.

Lemma startsNonEmpty_app cp l : startsNonEmpty cp -> startsNonEmpty (cp ++ l).
Proof. intros (h & t & -> & Hh). exists h, (t ++ l). split; [reflexivity|exact Hh]. Qed.

Lemma findPath_cons mid cp n rest :
  findPathStringForMediaItem (n :: rest) mid cp
  = match findPathString_step mid cp n with
    | Some s => Some s
    | None => findPathStringForMediaItem rest mid cp
    end.
Proof. reflexivity. Qed.

Lemma findPath_step_folder mid cp id name ch d :
  String.eqb id mid = false ->
  findPathString_step mid cp (FolderNode id name ch d)
  = if isTruthyString (findPathStringForMediaItem ch mid (cp ++ [name]))
    then findPathStringForMediaItem ch mid (cp ++ [name]) else None.
Proof. intros H. simpl. rewrite H. reflexivity. Qed.

Lemma findPath_absent mid T :
  occ mid T = 0 -> forall cp, findPathStringForMediaItem T mid cp = None.
Proof.
  induction T as [| m rest IH | id name ch d rest IHch IHrest] using forest_ind;
    intros Hocc cp.
  - reflexivity.
  - rewrite occ_cons in Hocc. simpl item_id in Hocc.
    rewrite findPath_cons. simpl.
    destruct (String.eqb_spec (m_id m) mid) as [E|E].
    + destruct (string_dec (m_id m) mid); [lia|congruence].
    + apply IH. lia.
  - rewrite occ_cons in Hocc. simpl item_id in Hocc. simpl item_children in Hocc.
    rewrite findPath_cons.
    destruct (String.eqb_spec id mid) as [E|E].
    + destruct (string_dec id mid); [lia|congruence].
    + rewrite findPath_step_folder by (apply String.eqb_neq; exact E).
      rewrite IHch by lia. simpl. apply IHrest. lia.
Qed.

Lemma findPath_present mid T :
  1 <= occ mid T -> forall cp, startsNonEmpty cp ->
  exists s, findPathStringForMediaItem T mid cp = Some s /\ s <> EmptyString.
Proof.
  induction T as [| m rest IH | id name ch d rest IHch IHrest] using forest_ind;
    intros Hocc cp Hcp.
  - rewrite occ_nil in Hocc. lia.
  - rewrite occ_cons in Hocc. simpl item_id in Hocc. simpl item_children in Hocc.
    rewrite occ_nil in Hocc. rewrite findPath_cons. simpl.
    destruct (String.eqb_spec (m_id m) mid) as [E|E].
    + eexists. split; [reflexivity|]. apply join_nonempty, Hcp.
    + destruct (string_dec (m_id m) mid); [congruence|]. apply IH; [lia|exact Hcp].
  - rewrite occ_cons in Hocc. simpl item_id in Hocc. simpl item_children in Hocc.
    rewrite findPath_cons.
    destruct (String.eqb_spec id mid) as [E|E].
    + simpl. apply String.eqb_eq in E. rewrite E.
      eexists. split; [reflexivity|]. apply join_nonempty, Hcp.
    + rewrite findPath_step_folder by (apply String.eqb_neq; exact E).
      destruct (string_dec id mid); [congruence|].
      destruct (occ mid ch) eqn:Ech.
      * rewrite (findPath_absent mid ch Ech). simpl. apply IHrest; [lia|exact Hcp].
      * destruct (IHch ltac:(lia) (cp ++ [name]) (startsNonEmpty_app _ _ Hcp))
          as (s & Hs & Hne).
        rewrite Hs. simpl.
        destruct (String.eqb_spec s EmptyString); [congruence|]. simpl.
        exists s. split; [reflexivity|exact Hne].
Qed.

Lemma ancestorNames_step T i j q x :
  T !! i = Some x ->
  ancestorNames T (i :: j :: q)
  = item_name x :: ancestorNames (item_children x) (j :: q).
Proof. intros Hx. cbn [ancestorNames]. rewrite Hx. reflexivity. Qed.

Lemma findPath_exact mid p : forall T cp n,
  startsNonEmpty cp -> occ mid T = 1 ->
  nodeAt T p = Some n -> item_id n = mid ->
  findPathStringForMediaItem T mid cp
  = Some (join " / " (cp ++ ancestorNames T p)).
Proof.
  induction p as [|i q IH]; intros T cp n Hcp Hocc Hn Hid; [discriminate|].
  simpl in Hn. destruct (T !! i) as [x|] eqn:Hx; [|discriminate].
  pose proof (take_drop_middle T i x Hx) as Hsplit.
  rewrite <- Hsplit in Hocc. rewrite occ_app, occ_cons in Hocc.
  rewrite <- Hsplit at 1. unfold findPathStringForMediaItem at 1.
  rewrite firstReturn_app. fold (findPathStringForMediaItem (take i T) mid cp).
  destruct q as [|j q'].
  - injection Hn as ->. destruct (string_dec (item_id n) mid); [|congruence].
    rewrite findPath_absent by lia.
    change (firstReturn (findPathString_step mid cp) (n :: drop (S i) T))
      with (findPathStringForMediaItem (n :: drop (S i) T) mid cp).
    rewrite findPath_cons.
    assert (Hs : findPathString_step mid cp n = Some (join " / " cp)).
    { destruct n; simpl in *; rewrite Hid, String.eqb_refl; reflexivity. }
    rewrite Hs. simpl. rewrite app_nil_r. reflexivity.
  - assert (Hin : In n (flatten (item_children x))) by (eapply MutateFacts.nodeAt_In; eauto).
    pose proof (occ_pos mid _ _ Hin Hid) as Hpos.
    destruct (string_dec (item_id x) mid) as [E|E]; [lia|].
    rewrite findPath_absent by lia.
    change (firstReturn (findPathString_step mid cp) (x :: drop (S i) T))
      with (findPathStringForMediaItem (x :: drop (S i) T) mid cp).
    rewrite findPath_cons.
    destruct x as [m|id name ch d]; [destruct Hin|].
    simpl item_id in E. simpl item_children in *.
    rewrite findPath_step_folder by (apply String.eqb_neq; exact E).
    rewrite (IH ch (cp ++ [name]) n (startsNonEmpty_app _ _ Hcp) ltac:(lia) Hn Hid).
    rewrite (ancestorNames_step T i j q' _ Hx).
    simpl item_name. simpl item_children.
    replace (cp ++ name :: ancestorNames ch (j :: q'))
      with ((cp ++ [name]) ++ ancestorNames ch (j :: q'))
      by (rewrite <- app_assoc; reflexivity).
    pose proof (join_nonempty _
                  (startsNonEmpty_app _ (ancestorNames ch (j :: q'))
                     (startsNonEmpty_app _ [name] Hcp))) as Hne.
    remember (join " / " ((cp ++ [name]) ++ ancestorNames ch (j :: q'))) as s.
    unfold isTruthyString.
    destruct (String.eqb_spec s EmptyString); [congruence|reflexivity].
Qed.

Lemma home_starts : startsNonEmpty ["Home"].
Proof. exists "Home", []. split; [reflexivity|discriminate]. Qed.

(** X1. When the identifier occurs exactly once in the tree, the path
    string of the node that carries it is "Home" followed by the names of
    the folders above the node, outermost first, joined by " / "; the
    node's own name is not part of it. *)
Theorem findPathString_ancestors
    (T : list GalleryContentItem) (mediaId : string) (p : list nat)
    (n : GalleryContentItem) :
  occ mediaId T = 1 -> nodeAt T p = Some n -> item_id n = mediaId ->
  findPathString T mediaId = Some (join " / " ("Home" :: ancestorNames T p)).
Proof.
  intros Hocc Hn Hid. unfold findPathString.
  rewrite (findPath_exact mediaId p T ["Home"] n home_starts Hocc Hn Hid).
  reflexivity.
Qed.

Lemma findPathString_ancestors_witness :
  findPathString Samples.weddingTree "p2" = Some "Home / Wedding / Reception".
Proof.
  exact (findPathString_ancestors Samples.weddingTree "p2" [0; 1; 0]
           (Media (Samples.photo "p2" "Dance")) eq_refl eq_refl eq_refl).
Defined.

(** X2. The path search returns null exactly when no node of the tree,
    folder or media item, deleted or not, carries the identifier; when
    it returns a string, the string is not empty. *)
Theorem findPathString_null_iff_absent
    (T : list GalleryContentItem) (mediaId : string) :
  (findPathString T mediaId = None <->
   forall n, In n (flatten T) -> item_id n <> mediaId)
  /\ (forall s, findPathString T mediaId = Some s -> s <> EmptyString).
Proof.
  unfold findPathString.
  destruct (occ mediaId T) as [|k] eqn:Hocc.
  - rewrite (findPath_absent mediaId T Hocc). split; [|discriminate].
    split; [|reflexivity]. intros _ n Hin Hid.
    pose proof (occ_pos mediaId _ _ Hin Hid). lia.
  - destruct (findPath_present mediaId T ltac:(lia) ["Home"] home_starts)
      as (s & Hs & Hne).
    rewrite Hs. split.
    + split; [discriminate|]. intros Habs. exfalso.
      unfold occ in Hocc.
      assert (Hin : In mediaId (List.map item_id (flatten T))).
      { apply (count_occ_In string_dec). lia. }
      apply in_map_iff in Hin. destruct Hin as (n & Hid & Hin).
      exact (Habs n Hin Hid).
    + intros s' E. injection E as <-. exact Hne.
Qed.

Lemma findPathString_null_iff_absent_witness :
  findPathString Samples.weddingTree "nowhere" = None.
Proof.
  apply (findPathString_null_iff_absent Samples.weddingTree "nowhere").
  intros n Hin. simpl in Hin.
  repeat (destruct Hin as [<-|Hin]; [discriminate|]). destruct Hin.
Defined.

End PathStringFacts.

(** ** getFolderStats and the download lists *)

Module StatsFacts.
Import Notions MoreNotions Gallery Handlers FlattenFacts MoveFacts.

Lemma collectFiles_cons n rest :
  collectFiles (n :: rest) = collectFiles_step n ++ collectFiles rest.
Proof. reflexivity. Qed.

Lemma collectFiles_folder id name ch d :
  collectFiles_step (FolderNode id name ch d)
  = if negb (truthy d) then collectFiles ch else [].
Proof. reflexivity. Qed.

Lemma filterMedia_cons keep n rest :
  filterMedia keep (n :: rest)
  = match n with
    | Media m => if keep m then [m] else []
    | FolderNode _ _ _ _ => []
    end ++ filterMedia keep rest.
Proof. reflexivity. Qed.

Lemma filterMedia_app keep l1 l2 :
  filterMedia keep (l1 ++ l2) = filterMedia keep l1 ++ filterMedia keep l2.
Proof. unfold filterMedia. apply flat_map_app. Qed.

Lemma liveTree_cons n rest : liveTree (n :: rest) = liveItem n ++ liveTree rest.
Proof. reflexivity. Qed.

Lemma liveItem_media m :
  liveItem (Media m) = if truthy (m_isDeleted m) then [] else [Media m].
Proof. reflexivity. Qed.

Lemma liveItem_folder id name ch d :
  liveItem (FolderNode id name ch d)
  = if truthy d then [] else [FolderNode id name (liveTree ch) d].
Proof. reflexivity. Qed.

Lemma liveTree_live T : Forall (fun n => notDeleted n = true) (flatten (liveTree T)).
Proof.
  induction T as [| m rest IH | id name ch d rest IHch IHrest] using forest_ind.
  - constructor.
  - rewrite liveTree_cons, liveItem_media.
    destruct (truthy (m_isDeleted m)) eqn:E; cbn [app]; [exact IH|].
    rewrite flatten_media. constructor; [|exact IH].
    unfold notDeleted. cbn [item_isDeleted]. rewrite E. reflexivity.
  - rewrite liveTree_cons, liveItem_folder.
    destruct (truthy d) eqn:E; cbn [app]; [exact IHrest|].
    rewrite flatten_folder. constructor.
    + unfold notDeleted. cbn [item_isDeleted]. rewrite E. reflexivity.
    + apply Forall_app. split; assumption.
Qed.

Lemma collectFiles_liveTree T :
  collectFiles T = filterMedia (fun _ => true) (flatten (liveTree T)).
Proof.
  induction T as [| m rest IH | id name ch d rest IHch IHrest] using forest_ind.
  - reflexivity.
  - rewrite collectFiles_cons, liveTree_cons, liveItem_media. cbn [collectFiles_step].
    destruct (truthy (m_isDeleted m)); cbn [negb app]; [exact IH|].
    rewrite flatten_media, filterMedia_cons. cbn [app]. f_equal. exact IH.
  - rewrite collectFiles_cons, collectFiles_folder, liveTree_cons, liveItem_folder.
    destruct (truthy d); cbn [negb app]; [exact IHrest|].
    rewrite flatten_folder, filterMedia_cons, filterMedia_app. cbn [app].
    rewrite IHch, IHrest. reflexivity.
Qed.

Section MediaCounts.
Variable getTime : string -> JS.number.
Variable userId : string.

Let step := getFolderStats_step getTime userId.

Lemma stats_media_counts T : forall s,
  let r := fold_left step T s in
  photoCount r
  = photoCount s + length (List.filter (fun m => negb (m_video m)) (collectFiles T))
  /\ videoCount r = videoCount s + length (List.filter m_video (collectFiles T))
  /\ likedCount r
     = likedCount s + length (List.filter (isLikedBy userId) (collectFiles T))
  /\ commentCount r
     = commentCount s + length (List.filter hasComment (collectFiles T))
  /\ dates r = dates s ++ List.map (fun m => getTime (m_date m)) (collectFiles T).
Proof.
  induction T as [| m rest IH | id name ch d rest IHch IHrest] using forest_ind;
    intros s.
  - simpl. rewrite app_nil_r. repeat split; lia.
  - cbn zeta. cbn [fold_left]. specialize (IH (step s (Media m))). cbn zeta in IH.
    destruct IH as (P & V & L & C & D). rewrite P, V, L, C, D.
    rewrite collectFiles_cons. cbn [collectFiles_step].
    unfold step. cbn [getFolderStats_step item_isDeleted].
    destruct (truthy (m_isDeleted m)); cbn [negb app].
    + repeat split; reflexivity.
    + cbn [List.filter List.map photoCount videoCount likedCount commentCount dates].
      change (isLikedBy userId m) with (JS.arrayIncludes (m_likedBy m) userId).
      destruct (m_video m), (JS.arrayIncludes (m_likedBy m) userId), (hasComment m);
        cbn [negb length app]; rewrite <- ?app_assoc; repeat split; try lia;
        reflexivity.
  - cbn zeta. cbn [fold_left].
    specialize (IHrest (step s (FolderNode id name ch d))). cbn zeta in IHrest.
    destruct IHrest as (P & V & L & C & D). rewrite P, V, L, C, D.
    rewrite collectFiles_cons, collectFiles_folder.
    unfold step. cbn [getFolderStats_step item_isDeleted].
    destruct (truthy d); cbn [negb app].
    + repeat split; reflexivity.
    + fold step. specialize (IHch emptyStats). cbn zeta in IHch.
      destruct IHch as (P' & V' & L' & C' & D').
      cbn [photoCount videoCount likedCount commentCount dates].
      rewrite P', V', L', C', D'. cbn [emptyStats photoCount videoCount likedCount
                                        commentCount dates app].
      rewrite !List.filter_app, !length_app, List.map_app, <- !app_assoc.
      repeat split; lia.
Qed.

Lemma stats_folder_count T : forall s,
  folderCount (fold_left step T s)
  = folderCount s + length (List.filter isFolder (flatten (liveTree T))).
Proof.
  induction T as [| m rest IH | id name ch d rest IHch IHrest] using forest_ind;
    intros s.
  - simpl. lia.
  - cbn [fold_left]. rewrite IH, liveTree_cons, liveItem_media.
    unfold step. cbn [getFolderStats_step item_isDeleted].
    destruct (truthy (m_isDeleted m)); cbn [app]; [reflexivity|].
    rewrite flatten_media. cbn [List.filter isFolder folderCount]. reflexivity.
  - cbn [fold_left]. rewrite IHrest, liveTree_cons, liveItem_folder.
    unfold step. cbn [getFolderStats_step item_isDeleted].
    destruct (truthy d); cbn [app]; [reflexivity|].
    fold step. rewrite flatten_folder. cbn [List.filter isFolder folderCount length].
    rewrite (IHch emptyStats), List.filter_app, length_app.
    cbn [emptyStats folderCount]. lia.
Qed.

Lemma stats_liveTree T : forall s,
  fold_left step (liveTree T) s = fold_left step T s.
Proof.
  induction T as [| m rest IH | id name ch d rest IHch IHrest] using forest_ind;
    intros s.
  - reflexivity.
  - rewrite liveTree_cons, fold_left_app, liveItem_media. cbn [fold_left].
    rewrite IH. f_equal. unfold step. cbn [getFolderStats_step item_isDeleted].
    destruct (truthy (m_isDeleted m)) eqn:E; cbn [fold_left]; [reflexivity|].
    cbn [getFolderStats_step item_isDeleted]. rewrite E. reflexivity.
  - rewrite liveTree_cons, fold_left_app, liveItem_folder. cbn [fold_left].
    rewrite IHrest. f_equal. unfold step. cbn [getFolderStats_step item_isDeleted].
    destruct (truthy d) eqn:E; cbn [fold_left]; [reflexivity|].
    cbn [getFolderStats_step item_isDeleted]. rewrite E.
    fold step. rewrite (IHch emptyStats). reflexivity.
Qed.
End MediaCounts.

Section Totals.
Variable getTime : string -> JS.number.
Variable userId : string.

Lemma stats_total_bound T : forall s,
  totalCount (fold_left (getFolderStats_step getTime userId) T s)
  <= totalCount s + length (flatten T).
Proof.
  unfold totalCount.
  induction T as [| m rest IH | id name ch d rest IHch IHrest] using forest_ind;
    intros s.
  - simpl. lia.
  - cbn [fold_left]. rewrite flatten_media. cbn [length].
    etransitivity; [apply IH|].
    cbn [getFolderStats_step item_isDeleted].
    destruct (truthy (m_isDeleted m)); [lia|].
    cbn [folderCount photoCount videoCount]. destruct (m_video m); lia.
  - cbn [fold_left]. rewrite flatten_folder. cbn [length]. rewrite length_app.
    etransitivity; [apply IHrest|].
    cbn [getFolderStats_step item_isDeleted].
    destruct (truthy d); [lia|].
    cbn [folderCount photoCount videoCount].
    specialize (IHch emptyStats). cbn [emptyStats folderCount photoCount videoCount] in IHch.
    lia.
Qed.

Lemma stats_total_exact T : forall s,
  Forall (fun n => notDeleted n = true) (flatten T) ->
  totalCount (fold_left (getFolderStats_step getTime userId) T s)
  = totalCount s + length (flatten T).
Proof.
  unfold totalCount.
  induction T as [| m rest IH | id name ch d rest IHch IHrest] using forest_ind;
    intros s Hlive.
  - simpl. lia.
  - cbn [fold_left]. rewrite flatten_media in *. cbn [length].
    inversion Hlive as [|? ? Hm Hrest]; subst. rewrite (IH _ Hrest).
    unfold notDeleted in Hm. apply negb_true_iff in Hm.
    cbn [getFolderStats_step]. rewrite Hm.
    cbn [folderCount photoCount videoCount]. destruct (m_video m); lia.
  - cbn [fold_left]. rewrite flatten_folder in *. cbn [length]. rewrite length_app.
    inversion Hlive as [|? ? Hf Hr]; subst. apply Forall_app in Hr.
    destruct Hr as [Hch Hrest]. rewrite (IHrest _ Hrest).
    unfold notDeleted in Hf. apply negb_true_iff in Hf.
    cbn [getFolderStats_step]. rewrite Hf.
    cbn [folderCount photoCount videoCount].
    specialize (IHch emptyStats Hch).
    cbn [emptyStats folderCount photoCount videoCount] in IHch. lia.
Qed.
End Totals.

Lemma filter_video_split (l : list MediaItem) :
  length (List.filter (fun m => negb (m_video m)) l) + length (List.filter m_video l)
  = length l.
Proof.
  induction l as [|m l IH]; simpl; [reflexivity|].
  destruct (m_video m); simpl; lia.
Qed.

(** X3. The statistics of a folder are those of the files the recursive
    download collects, in the same order: photo and video counts add up
    to the number of collected files, the liked and commented counts are
    the numbers of collected files the user liked and of those with a
    non-blank comment, and the dates are the timestamps of the collected
    files.  A deleted file, and everything inside a deleted folder, is
    counted nowhere: the collected files are the media items of the tree
    without its deleted nodes and what is below them, the folder count is
    the number of folders of that tree, no node of that tree is deleted,
    and the whole record (the total size included) is the one computed
    on that tree. *)
Theorem getFolderStats_counts_collected_files
    (getTime : string -> JS.number) (items : list GalleryContentItem)
    (userId : string) :
  let stats := getFolderStats getTime items userId in
  photoCount stats + videoCount stats = length (collectFiles items)
  /\ photoCount stats
     = length (List.filter (fun m => negb (m_video m)) (collectFiles items))
  /\ videoCount stats = length (List.filter m_video (collectFiles items))
  /\ likedCount stats
     = length (List.filter (isLikedBy userId) (collectFiles items))
  /\ commentCount stats = length (List.filter hasComment (collectFiles items))
  /\ dates stats = List.map (fun m => getTime (m_date m)) (collectFiles items)
  /\ folderCount stats
     = length (List.filter isFolder (flatten (liveTree items)))
  /\ collectFiles items = filterMedia (fun _ => true) (flatten (liveTree items))
  /\ Forall (fun n => notDeleted n = true) (flatten (liveTree items))
  /\ getFolderStats getTime (liveTree items) userId = stats.
Proof.
  cbn zeta. unfold getFolderStats.
  destruct (stats_media_counts getTime userId items emptyStats) as (P & V & L & C & D).
  cbn zeta in *. cbn [emptyStats photoCount videoCount likedCount commentCount dates app] in *.
  pose proof (filter_video_split (collectFiles items)) as Hsplit.
  rewrite P, V, L, C, D.
  split; [lia|]. do 5 (split; [reflexivity|]).
  split; [exact (stats_folder_count getTime userId items emptyStats)|].
  split; [apply collectFiles_liveTree|].
  split; [apply liveTree_live|].
  exact (stats_liveTree getTime userId items emptyStats).
Qed.

Lemma getFolderStats_counts_collected_files_witness :
  folderCount (getFolderStats Samples.noTime MoreSamples.recycledTree "u1") = 0
  /\ photoCount (getFolderStats Samples.noTime MoreSamples.recycledTree "u1")
     + videoCount (getFolderStats Samples.noTime MoreSamples.recycledTree "u1")
     = 1
  /\ collectFiles MoreSamples.recycledTree = [Samples.photo "p1" "Ceremony"].
Proof.
  destruct (getFolderStats_counts_collected_files Samples.noTime
              MoreSamples.recycledTree "u1")
    as (Hfiles & _ & _ & _ & _ & _ & Hfolders & Hlive & _).
  split; [exact Hfolders|]. split; [exact Hfiles|exact Hlive].
Defined.

(** X4. The total count of the folder information never exceeds the
    number of nodes below the folder, and equals it (the length of
    [flatten]) when no node below the folder is deleted. *)
Theorem getFolderStats_total_count
    (getTime : string -> JS.number) (items : list GalleryContentItem)
    (userId : string) :
  totalCount (getFolderStats getTime items userId) <= length (flatten items)
  /\ (Forall (fun n => notDeleted n = true) (flatten items) ->
      totalCount (getFolderStats getTime items userId) = length (flatten items)).
Proof.
  unfold getFolderStats. split.
  - exact (stats_total_bound getTime userId items emptyStats).
  - intros H. exact (stats_total_exact getTime userId items emptyStats H).
Qed.

Lemma getFolderStats_total_count_witness :
  totalCount (getFolderStats Samples.noTime Samples.weddingTree "u1") = 5.
Proof.
  apply (getFolderStats_total_count Samples.noTime Samples.weddingTree "u1").
  simpl. repeat constructor.
Defined.

(** *** The total size *)

Lemma stats_flat_size getTime userId items : forall s,
  (forall n, In n items -> isFolder n = true -> notDeleted n = false) ->
  totalSizeInBytes (fold_left (getFolderStats_step getTime userId) items s)
  = fold_left add (sizesOf (collectFiles items)) (totalSizeInBytes s).
Proof.
  induction items as [|n rest IH]; intros s H; [reflexivity|].
  cbn [fold_left]. rewrite IH by (intros x Hx; apply H; right; exact Hx).
  rewrite collectFiles_cons. unfold sizesOf.
  rewrite List.map_app, fold_left_app. f_equal.
  destruct n as [m|id name ch d].
  - cbn [getFolderStats_step item_isDeleted collectFiles_step].
    destruct (truthy (m_isDeleted m)); reflexivity.
  - assert (Hd : truthy d = true).
    { specialize (H (FolderNode id name ch d) (or_introl eq_refl) eq_refl).
      unfold notDeleted in H. apply negb_false_iff in H. exact H. }
    rewrite collectFiles_folder. cbn [getFolderStats_step item_isDeleted].
    rewrite Hd. reflexivity.
Qed.

(** X5. In a listing without a live folder the total size is the sum,
    taken from 0 in listing order and rounded at every step, of the
    parsed sizes of the files the recursive download collects.  With a
    live subfolder the subtotal of the folder is rounded on its own
    before it is added, and the result can differ from the sum in file
    order. *)
Theorem getFolderStats_total_size
    (getTime : string -> JS.number) (userId : string) :
  (forall items,
     (forall n, In n items -> isFolder n = true -> notDeleted n = false) ->
     totalSizeInBytes (getFolderStats getTime items userId)
     = fold_left add (sizesOf (collectFiles items)) JS.zero)
  /\ (exists nested,
        totalSizeInBytes (getFolderStats getTime nested userId)
        <> fold_left add (sizesOf (collectFiles nested)) JS.zero).
Proof.
  split.
  - intros items H. unfold getFolderStats.
    rewrite (stats_flat_size getTime userId items emptyStats H). reflexivity.
  - exists MoreSamples.nestedSizes. intros E. vm_compute in E. discriminate E.
Qed.

Lemma getFolderStats_total_size_witness :
  totalSizeInBytes (getFolderStats Samples.noTime MoreSamples.flatSizes "u1")
  = S754_finite false 8556839292003943 (-30).
Proof.
  etransitivity.
  - apply (proj1 (getFolderStats_total_size Samples.noTime "u1")
             MoreSamples.flatSizes).
    intros n [<-|[<-|[<-|[]]]]; discriminate.
  - vm_compute. reflexivity.
Defined.

(** *** The download lists *)

Lemma collectFiles_live T : Forall (fun m => liveMedia m = true) (collectFiles T).
Proof.
  induction T as [| m rest IH | id name ch d rest IHch IHrest] using forest_ind.
  - constructor.
  - rewrite collectFiles_cons. apply Forall_app. split; [|exact IH].
    cbn [collectFiles_step]. unfold liveMedia.
    destruct (negb (truthy (m_isDeleted m))) eqn:E; repeat constructor. exact E.
  - rewrite collectFiles_cons, collectFiles_folder. apply Forall_app.
    split; [|exact IHrest]. destruct (negb (truthy d)); [exact IHch|constructor].
Qed.

Lemma filterMedia_keep keep (P : MediaItem -> Prop) l :
  (forall m, keep m = true -> P m) -> Forall P (filterMedia keep l).
Proof.
  intros H. induction l as [|n l IH]; [constructor|].
  rewrite filterMedia_cons. apply Forall_app. split; [|exact IH].
  destruct n as [m|]; [|constructor].
  destruct (keep m) eqn:E; repeat constructor. apply H, E.
Qed.

Lemma filterMedia_live_listing l :
  Forall (fun n => notDeleted n = true) l ->
  Forall (fun m => liveMedia m = true) (filterMedia (fun _ => true) l).
Proof.
  induction 1 as [|n l Hn Hl IH]; [constructor|].
  rewrite filterMedia_cons. apply Forall_app. split; [|exact IH].
  destruct n as [m|]; repeat constructor. exact Hn.
Qed.

Lemma listing_live root path : forall current crumbs folder,
  Forall (fun n => notDeleted n = true)
         (pr_items (getItemsForPath_loop root current crumbs folder path)).
Proof.
  induction path as [|fid rest IH]; intros current crumbs folder; simpl.
  - apply List.Forall_forall. intros n Hn. apply filter_In in Hn. tauto.
  - destruct (findFolder current fid); [apply IH|]. simpl.
    apply List.Forall_forall. intros n Hn. apply filter_In in Hn. tauto.
Qed.

(** X6. Whatever the download type, the current path and the user, no
    file of the list to download is in the recycle bin. *)
Theorem handleDownloadAction_skips_deleted
    (type : DownloadType) (galleryContent : list GalleryContentItem)
    (currentPath : list string) (userId : string) (files : list MediaItem) :
  handleDownloadAction type galleryContent currentPath userId = Returned files ->
  Forall (fun m => truthy (m_isDeleted m) = false) files.
Proof.
  intros H.
  assert (Hlive : Forall (fun m => liveMedia m = true) files).
  { destruct type; simpl in H.
    - injection H as <-. apply filterMedia_live_listing, listing_live.
    - destruct currentPath as [|fid rest].
      + injection H as <-. apply collectFiles_live.
      + destruct (recursiveRoot _ _ _) as [[f|]|]; try discriminate;
          injection H as <-;
          first [apply (collectFiles_live [f]) | apply (collectFiles_live [])].
    - injection H as <-. apply filterMedia_keep. auto.
    - injection H as <-. apply filterMedia_keep. intros m Hm.
      apply andb_prop in Hm. apply Hm.
    - injection H as <-. apply filterMedia_keep. intros m Hm.
      apply andb_prop in Hm. apply Hm. }
  eapply List.Forall_impl; [|exact Hlive].
  intros m Hm. unfold liveMedia in Hm. apply negb_true_iff in Hm. exact Hm.
Qed.

Lemma handleDownloadAction_skips_deleted_witness :
  Forall (fun m => truthy (m_isDeleted m) = false)
         [Samples.photo "p1" "Ceremony"; Samples.photo "b" "Beach"].
Proof.
  exact (handleDownloadAction_skips_deleted DownloadAll MoreSamples.recycledTree
           [] "u1" _ eq_refl).
Defined.

Lemma collectFiles_sublist T :
  collectFiles T `sublist_of` filterMedia liveMedia (flatten T).
Proof.
  induction T as [| m rest IH | id name ch d rest IHch IHrest] using forest_ind.
  - constructor.
  - rewrite collectFiles_cons, flatten_media, filterMedia_cons.
    cbn [collectFiles_step]. unfold liveMedia at 1.
    apply sublist_app; [reflexivity|exact IH].
  - rewrite collectFiles_cons, collectFiles_folder, flatten_folder, filterMedia_cons,
      filterMedia_app.
    cbn [app]. apply sublist_app; [|exact IHrest].
    destruct (negb (truthy d)); [exact IHch|apply sublist_nil_l].
Qed.

Lemma collectFiles_all T :
  (forall n, In n (flatten T) -> isFolder n = true -> notDeleted n = true) ->
  collectFiles T = filterMedia liveMedia (flatten T).
Proof.
  induction T as [| m rest IH | id name ch d rest IHch IHrest] using forest_ind;
    intros H.
  - reflexivity.
  - rewrite collectFiles_cons, flatten_media, filterMedia_cons.
    cbn [collectFiles_step]. unfold liveMedia at 1. f_equal. apply IH.
    intros n Hn. apply H. rewrite flatten_media. right. exact Hn.
  - rewrite collectFiles_cons, collectFiles_folder, flatten_folder, filterMedia_cons,
      filterMedia_app.
    cbn [app].
    assert (Hd : negb (truthy d) = true).
    { apply (H (FolderNode id name ch d)); [rewrite flatten_folder; left|]; reflexivity. }
    rewrite Hd. f_equal.
    + apply IHch. intros n Hn. apply H. rewrite flatten_folder. right.
      apply in_or_app. left. exact Hn.
    + apply IHrest. intros n Hn. apply H. rewrite flatten_folder. right.
      apply in_or_app. right. exact Hn.
Qed.

Lemma In_filterMedia keep m l :
  In m (filterMedia keep l) <-> In (Media m) l /\ keep m = true.
Proof.
  induction l as [|n l IH]; [simpl; tauto|].
  rewrite filterMedia_cons, in_app_iff, IH. cbn [In].
  destruct n as [x|id name ch d].
  - destruct (keep x) eqn:E; cbn [In]; split.
    + intros [[<-|[]]|[H1 H2]]; auto.
    + intros [[[= <-]|H1] H2]; auto.
    + intros [[]|[H1 H2]]; auto.
    + intros [[[= <-]|H1] H2]; [congruence|auto].
  - cbn [In]. split.
    + intros [[]|[H1 H2]]; auto.
    + intros [[H1|H1] H2]; [discriminate|auto].
Qed.

Lemma occ_liveTree_le d T : occ d (liveTree T) <= occ d T.
Proof.
  induction T as [| m rest IH | id name ch del rest IHch IHrest] using forest_ind.
  - reflexivity.
  - rewrite liveTree_cons, occ_app, liveItem_media, (occ_cons d (Media m) rest).
    destruct (truthy (m_isDeleted m)).
    + rewrite occ_nil. lia.
    + rewrite (occ_cons d (Media m) []), ?occ_nil. lia.
  - rewrite liveTree_cons, occ_app, liveItem_folder,
      (occ_cons d (FolderNode id name ch del) rest).
    destruct (truthy del).
    + rewrite occ_nil. lia.
    + rewrite (occ_cons d (FolderNode id name (liveTree ch) del) []).
      cbn [item_id item_children]. rewrite ?occ_nil. lia.
Qed.

Lemma occ_below_le d f T :
  In f (flatten T) -> occ d (item_children f) <= occ d T.
Proof.
  induction T as [| m rest IH | id name ch del rest IHch IHrest] using forest_ind.
  - intros [].
  - rewrite flatten_media, (occ_cons d (Media m) rest). intros [<-|H].
    + cbn [item_children]. rewrite ?occ_nil. lia.
    + specialize (IH H). lia.
  - rewrite flatten_folder, (occ_cons d (FolderNode id name ch del) rest).
    cbn [item_children]. intros [<-|H].
    + cbn [item_children]. lia.
    + apply in_app_or in H. destruct H as [H|H];
        [specialize (IHch H)|specialize (IHrest H)]; lia.
Qed.

(** What is below a deleted node is not in the tree of the live nodes. *)
Lemma occ_below_deleted d f T :
  In f (flatten T) -> notDeleted f = false ->
  occ d (liveTree T) + occ d (item_children f) <= occ d T.
Proof.
  intros Hin Hdel. unfold notDeleted in Hdel. apply negb_false_iff in Hdel.
  induction T as [| m rest IH | id name ch del rest IHch IHrest] using forest_ind.
  - destruct Hin.
  - rewrite flatten_media in Hin.
    rewrite liveTree_cons, occ_app, (occ_cons d (Media m) rest).
    pose proof (occ_liveTree_le d [Media m]) as Hle.
    rewrite liveTree_cons, occ_app, (occ_cons d (Media m) []), ?occ_nil in Hle.
    cbn [liveTree flat_map] in Hle. rewrite ?occ_nil in Hle.
    destruct Hin as [<-|Hin].
    + cbn [item_children]. rewrite ?occ_nil.
      pose proof (occ_liveTree_le d rest). lia.
    + specialize (IH Hin). lia.
  - rewrite flatten_folder in Hin.
    rewrite liveTree_cons, occ_app, liveItem_folder,
      (occ_cons d (FolderNode id name ch del) rest).
    cbn [item_id item_children].
    pose proof (occ_liveTree_le d rest) as Hrest.
    pose proof (occ_liveTree_le d ch) as Hch.
    destruct Hin as [<-|Hin].
    + cbn [item_isDeleted item_children] in *. rewrite Hdel, occ_nil. lia.
    + apply in_app_or in Hin. destruct (truthy del) eqn:E.
      * rewrite occ_nil. destruct Hin as [Hin|Hin].
        -- pose proof (occ_below_le d f ch Hin). lia.
        -- specialize (IHrest Hin). lia.
      * rewrite (occ_cons d (FolderNode id name (liveTree ch) del) []).
        cbn [item_id item_children]. rewrite ?occ_nil.
        destruct Hin as [Hin|Hin]; [specialize (IHch Hin)|specialize (IHrest Hin)]; lia.
Qed.

(** X7. At the root, the list of the 'recursive' download is a
    subsequence of the list of the 'all' download, and the two are equal
    when no folder of the tree is deleted.  A live file below a deleted
    folder is in the 'all' list, and, identifiers being unique, not in
    the 'recursive' list. *)
Theorem recursive_download_within_all
    (galleryContent : list GalleryContentItem) (userId : string)
    (recursive all : list MediaItem) :
  handleDownloadAction DownloadRecursive galleryContent [] userId
  = Returned recursive ->
  handleDownloadAction DownloadAll galleryContent [] userId = Returned all ->
  recursive `sublist_of` all
  /\ ((forall n, In n (flatten galleryContent) -> isFolder n = true ->
                 notDeleted n = true) -> recursive = all)
  /\ (forall folder m,
        In folder (flatten galleryContent) -> notDeleted folder = false ->
        In (Media m) (flatten (item_children folder)) -> liveMedia m = true ->
        In m all /\ (uniqueIds galleryContent -> ~ In m recursive)).
Proof.
  simpl. intros Hr Ha. injection Hr as <-. injection Ha as <-.
  split; [apply collectFiles_sublist|]. split; [apply collectFiles_all|].
  intros folder m Hin Hdel Hm Hlive.
  assert (Hsub : In (Media m) (flatten [folder])).
  { rewrite flatten_cons, flatten_nil, app_nil_r. right. exact Hm. }
  split.
  - apply In_filterMedia. split; [|exact Hlive].
    apply (flatten_node_in folder galleryContent Hin). exact Hsub.
  - intros Hu Hrec. rewrite collectFiles_liveTree in Hrec.
    apply In_filterMedia in Hrec. destruct Hrec as [Hrec _].
    pose proof (occ_pos (m_id m) (Media m) _ Hrec eq_refl) as H1.
    pose proof (occ_pos (m_id m) (Media m) _ Hm eq_refl) as H2.
    pose proof (occ_below_deleted (m_id m) folder galleryContent Hin Hdel) as H3.
    pose proof (unique_occ galleryContent (m_id m) Hu) as H4.
    lia.
Qed.

Lemma recursive_download_within_all_witness :
  handleDownloadAction DownloadRecursive MoreSamples.recycledTree [] "u1"
  = Returned [Samples.photo "p1" "Ceremony"]
  /\ handleDownloadAction DownloadAll MoreSamples.recycledTree [] "u1"
     = Returned [Samples.photo "p1" "Ceremony"; Samples.photo "b" "Beach"]
  /\ [Samples.photo "p1" "Ceremony"]
     `sublist_of` [Samples.photo "p1" "Ceremony"; Samples.photo "b" "Beach"]
  /\ In (Samples.photo "b" "Beach")
        [Samples.photo "p1" "Ceremony"; Samples.photo "b" "Beach"]
  /\ ~ In (Samples.photo "b" "Beach") [Samples.photo "p1" "Ceremony"].
Proof.
  destruct (recursive_download_within_all MoreSamples.recycledTree "u1"
              [Samples.photo "p1" "Ceremony"]
              [Samples.photo "p1" "Ceremony"; Samples.photo "b" "Beach"]
              eq_refl eq_refl) as (Hsub & _ & Hdead).
  split; [reflexivity|]. split; [reflexivity|]. split; [exact Hsub|].
  destruct (Hdead (FolderNode "a" "Album"
                     [ Media (Samples.photo "b" "Beach");
                       Media (Samples.deletedPhoto "d2" "Dark") ] (Some true))
                  (Samples.photo "b" "Beach")) as [Hall Hrec].
  - right. right. left. reflexivity.
  - reflexivity.
  - left. reflexivity.
  - reflexivity.
  - split; [exact Hall|]. apply Hrec.
    unfold uniqueIds. simpl.
    repeat (constructor; [simpl; intuition discriminate|]). constructor.
Defined.

End StatsFacts.

(** ** Likes, comments and selection tags *)

Module LikeFacts.
Import Notions MoreNotions Gallery Handlers FlattenFacts MoveFacts.

Lemma arrayIncludes_In l x : JS.arrayIncludes l x = true <-> In x l.
Proof.
  unfold JS.arrayIncludes. rewrite existsb_exists. split.
  - intros (y & Hy & E). apply String.eqb_eq in E. subst. exact Hy.
  - intros H. exists x. split; [exact H|apply String.eqb_refl].
Qed.

Lemma withoutUser_In u l v : In v (withoutUser u l) <-> In v l /\ v <> u.
Proof.
  unfold withoutUser. rewrite filter_In, negb_true_iff, String.eqb_neq. reflexivity.
Qed.

Lemma withoutUser_absent u l : ~ In u l -> withoutUser u l = l.
Proof.
  induction l as [|x l IH]; intros H; [reflexivity|].
  simpl. destruct (String.eqb_spec x u) as [->|E].
  - exfalso. apply H. left. reflexivity.
  - simpl. f_equal. apply IH. intros Hin. apply H. right. exact Hin.
Qed.

Lemma withoutUser_app u l1 l2 :
  withoutUser u (l1 ++ l2) = withoutUser u l1 ++ withoutUser u l2.
Proof. apply List.filter_app. Qed.

Lemma withLikedBy_same m : withLikedBy m (m_likedBy m) = m.
Proof. destruct m; reflexivity. Qed.

(** X8. A like toggles the user's membership in [likedBy] and nobody
    else's; it keeps the item's id and a duplicate-free list
    duplicate-free; a second toggle restores everybody's membership, and
    returns the very item when the user had not liked it. *)
Theorem toggleLike_membership (userId : string) (item : MediaItem) :
  (In userId (m_likedBy (toggleLike userId item)) <-> ~ In userId (m_likedBy item))
  /\ (forall v, v <> userId ->
        (In v (m_likedBy (toggleLike userId item)) <-> In v (m_likedBy item)))
  /\ (List.NoDup (m_likedBy item) ->
      List.NoDup (m_likedBy (toggleLike userId item)))
  /\ (forall v, In v (m_likedBy (toggleLike userId (toggleLike userId item)))
                <-> In v (m_likedBy item))
  /\ (~ In userId (m_likedBy item) ->
      toggleLike userId (toggleLike userId item) = item)
  /\ m_id (toggleLike userId item) = m_id item.
Proof.
  assert (Hflip : forall m,
            In userId (m_likedBy (toggleLike userId m)) <-> ~ In userId (m_likedBy m)).
  { intros m. unfold toggleLike. cbn [withLikedBy m_likedBy].
    destruct (JS.arrayIncludes (m_likedBy m) userId) eqn:E.
    - apply arrayIncludes_In in E. rewrite withoutUser_In. tauto.
    - assert (~ In userId (m_likedBy m)) by (rewrite <- arrayIncludes_In; congruence).
      rewrite in_app_iff. simpl. tauto. }
  assert (Hother : forall m v, v <> userId ->
            (In v (m_likedBy (toggleLike userId m)) <-> In v (m_likedBy m))).
  { intros m v Hv. unfold toggleLike. cbn [withLikedBy m_likedBy].
    destruct (JS.arrayIncludes (m_likedBy m) userId).
    - rewrite withoutUser_In. tauto.
    - rewrite in_app_iff. simpl. intuition congruence. }
  split; [apply Hflip|]. split; [apply Hother|]. split; [|split; [|split]].
  - intros Hnd. unfold toggleLike. cbn [withLikedBy m_likedBy].
    destruct (JS.arrayIncludes (m_likedBy item) userId) eqn:E.
    + apply List.NoDup_filter, Hnd.
    + assert (~ In userId (m_likedBy item)) by (rewrite <- arrayIncludes_In; congruence).
      apply NoDup_app_remove_l with (l := []). simpl.
      apply List.NoDup_rev in Hnd.
      rewrite <- (rev_involutive (m_likedBy item ++ [userId])).
      apply List.NoDup_rev. rewrite rev_app_distr. simpl.
      constructor; [rewrite <- in_rev; assumption|exact Hnd].
  - intros v. destruct (string_dec v userId) as [->|Hv].
    + rewrite Hflip, Hflip.
      destruct (in_dec string_dec userId (m_likedBy item)); tauto.
    + rewrite (Hother _ v Hv), (Hother _ v Hv). reflexivity.
  - intros Hnot. unfold toggleLike at 2.
    assert (E : JS.arrayIncludes (m_likedBy item) userId = false).
    { destruct (JS.arrayIncludes (m_likedBy item) userId) eqn:E; [|reflexivity].
      apply arrayIncludes_In in E. contradiction. }
    rewrite E. unfold toggleLike. cbn [withLikedBy m_likedBy].
    assert (E' : JS.arrayIncludes (m_likedBy item ++ [userId]) userId = true).
    { apply arrayIncludes_In, in_or_app. right. left. reflexivity. }
    rewrite E'. rewrite withoutUser_app, (withoutUser_absent _ _ Hnot).
    simpl. rewrite String.eqb_refl. simpl. rewrite app_nil_r.
    destruct item; reflexivity.
  - reflexivity.
Qed.

Lemma toggleLike_membership_witness :
  toggleLike "u3" (toggleLike "u3" MoreSamples.likedPhoto) = MoreSamples.likedPhoto
  /\ List.NoDup (m_likedBy (toggleLike "u1" MoreSamples.likedPhoto)).
Proof.
  destruct (toggleLike_membership "u3" MoreSamples.likedPhoto)
    as (_ & _ & _ & _ & Hback & _).
  destruct (toggleLike_membership "u1" MoreSamples.likedPhoto)
    as (_ & _ & Hnd & _).
  split.
  - apply Hback. simpl. intuition discriminate.
  - apply Hnd. simpl. repeat (constructor; [simpl; intuition discriminate|]).
    constructor.
Defined.

(** *** Rewrites by id compose and commute *)

Lemma mutate_cons i f n rest :
  findAndMutateMediaItem (n :: rest) i f
  = findAndMutateMediaItem_step i f n :: findAndMutateMediaItem rest i f.
Proof. reflexivity. Qed.

Lemma mutate_step_folder i f id name ch d :
  findAndMutateMediaItem_step i f (FolderNode id name ch d)
  = FolderNode id name (findAndMutateMediaItem ch i f) d.
Proof. reflexivity. Qed.

Lemma mutate_ids i f T :
  keepsId f ->
  List.map item_id (flatten (findAndMutateMediaItem T i f))
  = List.map item_id (flatten T).
Proof.
  intros Hf.
  induction T as [| m rest IH | id name ch d rest IHch IHrest] using forest_ind.
  - reflexivity.
  - rewrite mutate_cons, flatten_media. cbn [findAndMutateMediaItem_step].
    destruct (String.eqb (m_id m) i); rewrite flatten_media; cbn [List.map item_id];
      rewrite IH, ?Hf; reflexivity.
  - rewrite mutate_cons, mutate_step_folder, !flatten_folder.
    cbn [List.map item_id]. rewrite !List.map_app, IHch, IHrest. reflexivity.
Qed.

Lemma mutate_compose i f g T :
  keepsId f ->
  findAndMutateMediaItem (findAndMutateMediaItem T i f) i g
  = findAndMutateMediaItem T i (fun m => g (f m)).
Proof.
  intros Hf.
  induction T as [| m rest IH | id name ch d rest IHch IHrest] using forest_ind.
  - reflexivity.
  - rewrite !mutate_cons, IH. f_equal. cbn [findAndMutateMediaItem_step].
    destruct (String.eqb (m_id m) i) eqn:E; cbn [findAndMutateMediaItem_step].
    + rewrite Hf, E. reflexivity.
    + rewrite E. reflexivity.
  - rewrite !mutate_cons, !mutate_step_folder, IHch, IHrest. reflexivity.
Qed.

Lemma mutate_commute i j f g T :
  i <> j -> keepsId f -> keepsId g ->
  findAndMutateMediaItem (findAndMutateMediaItem T i f) j g
  = findAndMutateMediaItem (findAndMutateMediaItem T j g) i f.
Proof.
  intros Hij Hf Hg.
  induction T as [| m rest IH | id name ch d rest IHch IHrest] using forest_ind.
  - reflexivity.
  - rewrite !mutate_cons, IH. f_equal. cbn [findAndMutateMediaItem_step].
    destruct (String.eqb_spec (m_id m) i) as [Ei|Ei],
             (String.eqb_spec (m_id m) j) as [Ej|Ej];
      cbn [findAndMutateMediaItem_step]; rewrite ?Hf, ?Hg.
    + congruence.
    + destruct (String.eqb_spec (m_id m) j); [congruence|].
      destruct (String.eqb_spec (m_id m) i); [reflexivity|congruence].
    + destruct (String.eqb_spec (m_id m) j); [|congruence].
      destruct (String.eqb_spec (m_id m) i); [congruence|reflexivity].
    + destruct (String.eqb_spec (m_id m) j); [congruence|].
      destruct (String.eqb_spec (m_id m) i); [congruence|reflexivity].
  - rewrite !mutate_cons, !mutate_step_folder, IHch, IHrest. reflexivity.
Qed.

Lemma mutate_ext i f g T :
  (forall m, In (Media m) (flatten T) -> m_id m = i -> f m = g m) ->
  findAndMutateMediaItem T i f = findAndMutateMediaItem T i g.
Proof.
  induction T as [| m rest IH | id name ch d rest IHch IHrest] using forest_ind;
    intros H.
  - reflexivity.
  - rewrite !mutate_cons. f_equal.
    + cbn [findAndMutateMediaItem_step].
      destruct (String.eqb_spec (m_id m) i) as [E|E]; [|reflexivity].
      rewrite (H m); [reflexivity| |exact E]. rewrite flatten_media. left. reflexivity.
    + apply IH. intros x Hx. apply H. rewrite flatten_media. right. exact Hx.
  - rewrite !mutate_cons, !mutate_step_folder. f_equal; [f_equal|].
    + apply IHch. intros x Hx. apply H. rewrite flatten_folder. right.
      apply in_or_app. left. exact Hx.
    + apply IHrest. intros x Hx. apply H. rewrite flatten_folder. right.
      apply in_or_app. right. exact Hx.
Qed.

Lemma mutate_identity i T : findAndMutateMediaItem T i (fun m => m) = T.
Proof.
  induction T as [| m rest IH | id name ch d rest IHch IHrest] using forest_ind.
  - reflexivity.
  - rewrite mutate_cons, IH. cbn [findAndMutateMediaItem_step].
    destruct (String.eqb (m_id m) i); reflexivity.
  - rewrite mutate_cons, mutate_step_folder, IHch, IHrest. reflexivity.
Qed.

Lemma toggleLike_keepsId u : keepsId (toggleLike u).
Proof. intros m. reflexivity. Qed.

Lemma withComment_keepsId c : keepsId (fun m => withComment m c).
Proof. intros m. reflexivity. Qed.

Lemma withSelection_keepsId sel : keepsId (fun m => withSelection m sel).
Proof. intros m. reflexivity. Qed.

(** X9. A rewrite by id with a mutation that keeps ids leaves the
    identifiers of the tree, in pre-order, as they were: likes, comments
    and selection tags add no node, remove none and keep identifiers
    unique. *)
Theorem handlers_keep_identifiers
    (T : list GalleryContentItem) (userId mediaId commentText : string)
    (selection : SelectionType) (f : MediaItem -> MediaItem) :
  (keepsId f ->
   List.map item_id (flatten (findAndMutateMediaItem T mediaId f))
   = List.map item_id (flatten T))
  /\ List.map item_id (flatten (op_updated (handleLike T userId mediaId)))
     = List.map item_id (flatten T)
  /\ List.map item_id (flatten (op_final (handleLike T userId mediaId)))
     = List.map item_id (flatten T)
  /\ List.map item_id (flatten (op_final (handleSetComment T mediaId commentText)))
     = List.map item_id (flatten T)
  /\ List.map item_id (flatten (op_final (handleSetSelection T mediaId selection)))
     = List.map item_id (flatten T)
  /\ (uniqueIds T -> uniqueIds (op_final (handleLike T userId mediaId))
                     /\ uniqueIds (op_final (handleSetComment T mediaId commentText))
                     /\ uniqueIds (op_final (handleSetSelection T mediaId selection))).
Proof.
  assert (HL : List.map item_id (flatten (op_final (handleLike T userId mediaId)))
               = List.map item_id (flatten T)).
  { unfold handleLike. destruct (String.eqb mediaId "p2"); cbn [op_final];
      [reflexivity|apply mutate_ids, toggleLike_keepsId]. }
  assert (HC : List.map item_id
                 (flatten (op_final (handleSetComment T mediaId commentText)))
               = List.map item_id (flatten T)).
  { unfold handleSetComment.
    destruct (JS.includes (JS.toLowerCase commentText) "fail"); cbn [op_final];
      [reflexivity|apply mutate_ids, withComment_keepsId]. }
  assert (HS : List.map item_id
                 (flatten (op_final (handleSetSelection T mediaId selection)))
               = List.map item_id (flatten T)).
  { unfold handleSetSelection. cbn [op_final]. apply mutate_ids, withSelection_keepsId. }
  split; [apply mutate_ids|].
  split.
  { unfold handleLike. destruct (String.eqb mediaId "p2"); cbn [op_updated];
      apply mutate_ids, toggleLike_keepsId. }
  split; [exact HL|]. split; [exact HC|]. split; [exact HS|].
  unfold uniqueIds. rewrite HL, HC, HS. tauto.
Qed.

Lemma handlers_keep_identifiers_witness :
  uniqueIds (op_final (handleLike Samples.weddingTree "u1" "p1")).
Proof.
  destruct (handlers_keep_identifiers Samples.weddingTree "u1" "p1" "nice"
              FRAME (toggleLike "u1")) as (_ & _ & _ & _ & _ & H).
  exact (proj1 (H weddingTree_unique)).
Defined.

(** X10. Rewrites by id with mutations that keep ids compose and
    commute: two rewrites of the same id are the rewrite with the composed
    mutation, and rewrites of two different ids give the same tree in
    either order. *)
Theorem findAndMutateMediaItem_compose_commute
    (T : list GalleryContentItem) (i j : string) (f g : MediaItem -> MediaItem) :
  keepsId f -> keepsId g ->
  findAndMutateMediaItem (findAndMutateMediaItem T i f) i g
  = findAndMutateMediaItem T i (fun m => g (f m))
  /\ (i <> j ->
      findAndMutateMediaItem (findAndMutateMediaItem T i f) j g
      = findAndMutateMediaItem (findAndMutateMediaItem T j g) i f).
Proof.
  intros Hf Hg. split; [apply mutate_compose, Hf|].
  intros Hij. apply mutate_commute; assumption.
Qed.

Lemma findAndMutateMediaItem_compose_commute_witness :
  findAndMutateMediaItem
    (findAndMutateMediaItem Samples.weddingTree "p1" (toggleLike "u1"))
    "p2" (fun m => withSelection m FRAME)
  = findAndMutateMediaItem
      (findAndMutateMediaItem Samples.weddingTree "p2" (fun m => withSelection m FRAME))
      "p1" (toggleLike "u1").
Proof.
  apply (findAndMutateMediaItem_compose_commute Samples.weddingTree "p1" "p2"
           (toggleLike "u1") (fun m => withSelection m FRAME)
           (toggleLike_keepsId "u1") (withSelection_keepsId FRAME)).
  discriminate.
Defined.

(** X11. Liking an item the user has not liked and then unliking it gives
    back the tree, when the simulated request does not fail (the id is
    not "p2"); for the id "p2" every like is rolled back to the content
    before it. *)
Theorem handleLike_round_trip
    (T : list GalleryContentItem) (userId mediaId : string) :
  (mediaId <> "p2" ->
   (forall m, In (Media m) (flatten T) -> m_id m = mediaId ->
              ~ In userId (m_likedBy m)) ->
   op_final (handleLike (op_final (handleLike T userId mediaId)) userId mediaId) = T)
  /\ (mediaId = "p2" ->
      op_final (handleLike T userId mediaId) = T
      /\ op_error (handleLike T userId mediaId)
         = Some "Network error. Could not save like.").
Proof.
  split.
  - intros Hne Hnot. unfold handleLike.
    destruct (String.eqb_spec mediaId "p2"); [congruence|]. cbn [op_final].
    rewrite mutate_compose by apply toggleLike_keepsId.
    rewrite (mutate_ext mediaId _ (fun m => m)); [apply mutate_identity|].
    intros m Hm Hid. apply toggleLike_membership. exact (Hnot m Hm Hid).
  - intros ->. split; reflexivity.
Qed.

Lemma handleLike_round_trip_witness :
  op_final (handleLike (op_final (handleLike Samples.weddingTree "u1" "p1")) "u1" "p1")
  = Samples.weddingTree
  /\ op_final (handleLike Samples.weddingTree "u1" "p2") = Samples.weddingTree.
Proof.
  destruct (handleLike_round_trip Samples.weddingTree "u1" "p1") as [H1 _].
  destruct (handleLike_round_trip Samples.weddingTree "u1" "p2") as [_ H2].
  split.
  - apply H1; [discriminate|]. intros m Hm Hid. simpl in Hm.
    repeat (destruct Hm as [E|Hm]; [try discriminate; injection E as <-; simpl; tauto|]).
    destruct Hm.
  - exact (proj1 (H2 eq_refl)).
Defined.

End LikeFacts.

(** ** Comments and batch updates *)

Module CommentFacts.
Import Notions MoreNotions Gallery Handlers FlattenFacts MoveFacts LikeFacts.

Lemma trimStart_skip s :
  JS.trimStart s
  = match JS.skipWhiteSpace s with
    | Some r => JS.trimStart r
    | None => s
    end.
Proof.
  destruct s as [|c1 [|c2 [|c3 r3]]]; cbn [JS.trimStart JS.skipWhiteSpace];
    try reflexivity.
  - destruct (JS.isWhiteSpace1 c1); reflexivity.
  - destruct (JS.isWhiteSpace1 c1); [reflexivity|].
    destruct (JS.isWhiteSpace2 c1 c2); reflexivity.
  - destruct (JS.isWhiteSpace1 c1); [reflexivity|].
    destruct (JS.isWhiteSpace2 c1 c2); [reflexivity|].
    destruct (JS.isWhiteSpace3 c1 c2 c3); reflexivity.
Qed.

Lemma skipWhiteSpace_shorter s r :
  JS.skipWhiteSpace s = Some r -> (String.length r < String.length s)%nat.
Proof.
  destruct s as [|c1 [|c2 [|c3 r3]]]; cbn [JS.skipWhiteSpace]; try discriminate.
  - destruct (JS.isWhiteSpace1 c1); [|discriminate]. intros [= <-]. simpl. lia.
  - destruct (JS.isWhiteSpace1 c1); [intros [= <-]; simpl; lia|].
    destruct (JS.isWhiteSpace2 c1 c2); [|discriminate]. intros [= <-]. simpl. lia.
  - destruct (JS.isWhiteSpace1 c1); [intros [= <-]; simpl; lia|].
    destruct (JS.isWhiteSpace2 c1 c2); [intros [= <-]; simpl; lia|].
    destruct (JS.isWhiteSpace3 c1 c2 c3); [|discriminate]. intros [= <-]. simpl. lia.
Qed.

(** Induction along the white space a string starts with. *)
Lemma trimStart_ind (P : string -> Prop) :
  (forall s, JS.skipWhiteSpace s = None -> P s) ->
  (forall s r, JS.skipWhiteSpace s = Some r -> P r -> P s) ->
  forall s, P s.
Proof.
  intros Hnone Hsome.
  assert (H : forall n s, (String.length s <= n)%nat -> P s).
  { induction n as [|n IH]; intros s Hs.
    - destruct s; [|simpl in Hs; lia]. apply Hnone. reflexivity.
    - destruct (JS.skipWhiteSpace s) as [r|] eqn:E; [|apply Hnone, E].
      apply (Hsome s r E). apply IH.
      pose proof (skipWhiteSpace_shorter s r E). lia. }
  intros s. apply (H (String.length s)). lia.
Qed.

Lemma trimStart_fixed s : JS.skipWhiteSpace (JS.trimStart s) = None.
Proof.
  induction s as [s E|s r E IH] using trimStart_ind;
    rewrite trimStart_skip, E; assumption.
Qed.

Lemma trimStart_idem s : JS.trimStart (JS.trimStart s) = JS.trimStart s.
Proof.
  rewrite (trimStart_skip (JS.trimStart s)), trimStart_fixed. reflexivity.
Qed.

Lemma isBlank_skip s r :
  JS.skipWhiteSpace s = Some r -> JS.isBlank s = JS.isBlank r.
Proof. intros E. unfold JS.isBlank. rewrite trimStart_skip, E. reflexivity. Qed.

Lemma isBlank_noskip c r : JS.skipWhiteSpace (String c r) = None ->
  JS.isBlank (String c r) = false.
Proof. intros E. unfold JS.isBlank. rewrite trimStart_skip, E. reflexivity. Qed.

Lemma trimEnd_cons c r :
  JS.trimEnd (String c r)
  = if JS.isBlank (String c r) then EmptyString else String c (JS.trimEnd r).
Proof. reflexivity. Qed.

(** What is left of a string starts as the string does. *)
Lemma trimEnd_head r c x :
  JS.trimEnd r = String c x ->
  exists r', r = String c r' /\ x = JS.trimEnd r'.
Proof.
  destruct r as [|c' r']; [discriminate|]. rewrite trimEnd_cons.
  destruct (JS.isBlank (String c' r')); [discriminate|].
  intros [= -> <-]. eauto.
Qed.

(** The white space [trimEnd] leaves at the start was there before. *)
Lemma skip_trimEnd s x :
  JS.skipWhiteSpace (JS.trimEnd s) = Some x ->
  exists r, JS.skipWhiteSpace s = Some r /\ x = JS.trimEnd r.
Proof.
  destruct (JS.trimEnd s) as [|c1 t1] eqn:E1; [discriminate|].
  apply trimEnd_head in E1. destruct E1 as (r1 & -> & ->).
  cbn [JS.skipWhiteSpace].
  destruct (JS.isWhiteSpace1 c1) eqn:W1; [intros [= <-]; eauto|].
  destruct (JS.trimEnd r1) as [|c2 t2] eqn:E2; [discriminate|].
  apply trimEnd_head in E2. destruct E2 as (r2 & -> & ->).
  destruct (JS.isWhiteSpace2 c1 c2) eqn:W2; [intros [= <-]; eauto|].
  destruct (JS.trimEnd r2) as [|c3 t3] eqn:E3; [discriminate|].
  apply trimEnd_head in E3. destruct E3 as (r3 & -> & ->).
  destruct (JS.isWhiteSpace3 c1 c2 c3) eqn:W3; [intros [= <-]; eauto|discriminate].
Qed.

Lemma noskip_trimEnd s :
  JS.skipWhiteSpace s = None -> JS.skipWhiteSpace (JS.trimEnd s) = None.
Proof.
  intros H. destruct (JS.skipWhiteSpace (JS.trimEnd s)) as [x|] eqn:E; [|reflexivity].
  apply skip_trimEnd in E. destruct E as (r & E & _). congruence.
Qed.

(** Something other than white space stays after [trimEnd]. *)
Lemma trimEnd_not_blank s : JS.isBlank s = false -> JS.isBlank (JS.trimEnd s) = false.
Proof.
  assert (H : forall n s, (String.length s <= n)%nat ->
                JS.isBlank (JS.trimEnd s) = true -> JS.isBlank s = true).
  { induction n as [|n IH]; intros t Ht Hb.
    - destruct t; [reflexivity|simpl in Ht; lia].
    - destruct (JS.skipWhiteSpace (JS.trimEnd t)) as [x|] eqn:E.
      + rewrite (isBlank_skip _ _ E) in Hb.
        apply skip_trimEnd in E. destruct E as (r & E & ->).
        rewrite (isBlank_skip _ _ E). apply IH; [|exact Hb].
        pose proof (skipWhiteSpace_shorter _ _ E). lia.
      + destruct (JS.trimEnd t) as [|c x] eqn:Et.
        * destruct t as [|c r]; [reflexivity|]. rewrite trimEnd_cons in Et.
          destruct (JS.isBlank (String c r)); [reflexivity|discriminate].
        * rewrite (isBlank_noskip _ _ E) in Hb. discriminate. }
  intros Hs. destruct (JS.isBlank (JS.trimEnd s)) eqn:E; [|reflexivity].
  rewrite (H (String.length s) s) in Hs by (try lia; exact E). discriminate.
Qed.

Lemma trimEnd_idem s : JS.trimEnd (JS.trimEnd s) = JS.trimEnd s.
Proof.
  induction s as [|c r IH]; [reflexivity|].
  rewrite trimEnd_cons. destruct (JS.isBlank (String c r)) eqn:B; [reflexivity|].
  rewrite trimEnd_cons.
  pose proof (trimEnd_not_blank _ B) as B'. rewrite trimEnd_cons, B in B'.
  rewrite B', IH. reflexivity.
Qed.

Lemma trim_idem s : JS.trim (JS.trim s) = JS.trim s.
Proof.
  unfold JS.trim.
  assert (E : JS.trimStart (JS.trimEnd (JS.trimStart s)) = JS.trimEnd (JS.trimStart s)).
  { rewrite trimStart_skip, noskip_trimEnd by apply trimStart_fixed. reflexivity. }
  rewrite E. apply trimEnd_idem.
Qed.

(** A string is trimmed to nothing exactly when it is blank. *)
Lemma trim_empty_iff s : JS.trim s = EmptyString <-> JS.isBlank s = true.
Proof.
  unfold JS.trim, JS.isBlank. rewrite String.eqb_eq. split.
  - intros H. destruct (JS.trimStart s) as [|c r] eqn:E; [reflexivity|].
    rewrite trimEnd_cons in H.
    assert (B : JS.isBlank (String c r) = false).
    { apply isBlank_noskip. rewrite <- E. apply trimStart_fixed. }
    rewrite B in H. discriminate.
  - intros ->. reflexivity.
Qed.

Lemma length_zero_empty s : (0 <? String.length s)%nat = negb (String.eqb s EmptyString).
Proof. destruct s; reflexivity. Qed.

Lemma In_mutate i f T m :
  In (Media m) (flatten T) -> m_id m = i ->
  In (Media (f m)) (flatten (findAndMutateMediaItem T i f)).
Proof.
  intros Hin Hid.
  induction T as [| x rest IH | id name ch d rest IHch IHrest] using forest_ind.
  - destruct Hin.
  - rewrite mutate_cons. rewrite flatten_media in Hin.
    cbn [findAndMutateMediaItem_step].
    destruct Hin as [E|Hin].
    + injection E as ->. rewrite Hid, String.eqb_refl, flatten_media. left. reflexivity.
    + destruct (String.eqb (m_id x) i); rewrite flatten_media; right; auto.
  - rewrite mutate_cons, mutate_step_folder, flatten_folder.
    rewrite flatten_folder in Hin. destruct Hin as [E|Hin]; [discriminate|].
    right. apply in_or_app. apply in_app_or in Hin. destruct Hin; [left|right]; auto.
Qed.

(** X12. The comment a handler stores is the trimmed text, or null when
    the text is blank (white space only, U+00A0 and the other Unicode
    spaces included); the item then counts as commented exactly when the
    text is not blank.  An item with the given id carries the new comment
    in the updated content; when the text contains "fail" in any letter
    case the content is rolled back and the error "Failed to save comment
    due to server policy." is raised, otherwise the update stays and no
    error is raised. *)
Theorem handleSetComment_stores_trimmed
    (T : list GalleryContentItem) (mediaId commentText : string) :
  (forall item,
     hasComment (withComment item (finalComment commentText))
     = negb (String.eqb (JS.trim commentText) EmptyString))
  /\ (finalComment commentText = None <-> JS.isBlank commentText = true)
  /\ (forall c, finalComment commentText = Some c ->
                c = JS.trim commentText /\ JS.trim c = c /\ c <> EmptyString)
  /\ (forall item, In (Media item) (flatten T) -> m_id item = mediaId ->
        In (Media (withComment item (finalComment commentText)))
           (flatten (op_updated (handleSetComment T mediaId commentText))))
  /\ (JS.includes (JS.toLowerCase commentText) "fail" = true ->
      op_final (handleSetComment T mediaId commentText) = T
      /\ op_error (handleSetComment T mediaId commentText)
         = Some "Failed to save comment due to server policy.")
  /\ (JS.includes (JS.toLowerCase commentText) "fail" = false ->
      op_final (handleSetComment T mediaId commentText)
      = op_updated (handleSetComment T mediaId commentText)
      /\ op_error (handleSetComment T mediaId commentText) = None).
Proof.
  split; [|split; [|split; [|split; [|split]]]].
  - intros item. unfold hasComment, finalComment. cbn [withComment m_comment].
    rewrite length_zero_empty.
    destruct (String.eqb (JS.trim commentText) EmptyString) eqn:E; cbn [negb].
    + reflexivity.
    + rewrite trim_idem, E. reflexivity.
  - rewrite <- trim_empty_iff. unfold finalComment. rewrite length_zero_empty.
    destruct (String.eqb_spec (JS.trim commentText) EmptyString) as [E|E];
      cbn [negb]; split; intros H; try reflexivity; try assumption;
      [discriminate|contradiction].
  - intros c. unfold finalComment. rewrite length_zero_empty.
    destruct (String.eqb_spec (JS.trim commentText) EmptyString) as [E|E];
      cbn [negb]; [discriminate|].
    intros H. injection H as <-. split; [reflexivity|]. split; [apply trim_idem|exact E].
  - intros item Hin Hid. unfold handleSetComment.
    destruct (JS.includes _ _); cbn [op_updated];
      apply (In_mutate mediaId (fun i => withComment i (finalComment commentText)));
      assumption.
  - intros H. unfold handleSetComment. rewrite H. split; reflexivity.
  - intros H. unfold handleSetComment. rewrite H. split; reflexivity.
Qed.

Lemma handleSetComment_stores_trimmed_witness :
  finalComment "  lovely  " = Some "lovely"
  /\ finalComment (" " ++ MoreSamples.nbsp ++ MoreSamples.emSpace) = None
  /\ In (Media (withComment (Samples.photo "p1" "Ceremony") (Some "lovely")))
        (flatten (op_final (handleSetComment Samples.weddingTree "p1" "  lovely  ")))
  /\ op_final (handleSetComment Samples.weddingTree "p1" "Failed shot")
     = Samples.weddingTree.
Proof.
  destruct (handleSetComment_stores_trimmed Samples.weddingTree "p1" "  lovely  ")
    as (_ & _ & _ & Hin & _ & Hok).
  destruct (handleSetComment_stores_trimmed Samples.weddingTree "p1" "Failed shot")
    as (_ & _ & _ & _ & Hfail & _).
  destruct (handleSetComment_stores_trimmed Samples.weddingTree "p1"
              (" " ++ MoreSamples.nbsp ++ MoreSamples.emSpace))
    as (_ & Hblank & _).
  split; [reflexivity|]. split; [apply Hblank; reflexivity|]. split.
  - rewrite (proj1 (Hok eq_refl)).
    apply (Hin (Samples.photo "p1" "Ceremony")); [simpl; tauto|reflexivity].
  - apply Hfail. reflexivity.
Defined.

(** *** Batch updates *)

Lemma has_list_to_set (l : list string) x :
  has (list_to_set l) x = true <-> In x l.
Proof.
  unfold has. rewrite bool_decide_eq_true, elem_of_list_to_set.
  apply list_elem_of_In.
Qed.

Lemma likeSelected_cons ids b u n rest :
  List.map (likeSelected_step ids b u) (n :: rest)
  = likeSelected_step ids b u n :: List.map (likeSelected_step ids b u) rest.
Proof. reflexivity. Qed.

Lemma likeSelected_origin ids b u T m' :
  In (Media m') (flatten (List.map (likeSelected_step ids b u) T)) ->
  exists m, In (Media m) (flatten T)
            /\ likeSelected_step ids b u (Media m) = Media m'.
Proof.
  induction T as [| x rest IH | id name ch d rest IHch IHrest] using forest_ind;
    intros Hin.
  - destruct Hin.
  - rewrite likeSelected_cons in Hin.
    assert (Hstep : exists y, likeSelected_step ids b u (Media x) = Media y).
    { cbn [likeSelected_step]. destruct (has ids (m_id x)); [|eauto].
      destruct (b && negb _); [eauto|]. destruct (negb b && _); eauto. }
    destruct Hstep as [y Hy]. rewrite Hy, flatten_media in Hin.
    destruct Hin as [E|Hin].
    + injection E as ->. exists x. split; [rewrite flatten_media; left; reflexivity|exact Hy].
    + destruct (IH Hin) as (m & Hm & Hs). exists m. split; [|exact Hs].
      rewrite flatten_media. right. exact Hm.
  - rewrite likeSelected_cons in Hin. cbn [likeSelected_step] in Hin.
    rewrite flatten_folder in Hin. destruct Hin as [E|Hin]; [discriminate|].
    apply in_app_or in Hin. destruct Hin as [Hin|Hin].
    + destruct (IHch Hin) as (m & Hm & Hs). exists m. split; [|exact Hs].
      rewrite flatten_folder. right. apply in_or_app. left. exact Hm.
    + destruct (IHrest Hin) as (m & Hm & Hs). exists m. split; [|exact Hs].
      rewrite flatten_folder. right. apply in_or_app. right. exact Hm.
Qed.

Lemma likeSelected_ids ids b u T :
  List.map item_id (flatten (List.map (likeSelected_step ids b u) T))
  = List.map item_id (flatten T).
Proof.
  induction T as [| x rest IH | id name ch d rest IHch IHrest] using forest_ind.
  - reflexivity.
  - rewrite likeSelected_cons.
    assert (Hstep : exists y, likeSelected_step ids b u (Media x) = Media y
                              /\ m_id y = m_id x).
    { cbn [likeSelected_step]. destruct (has ids (m_id x)); [|eauto].
      destruct (b && negb _); [eauto|]. destruct (negb b && _); eauto. }
    destruct Hstep as (y & Hy & Hid). rewrite Hy, !flatten_media.
    cbn [List.map item_id]. rewrite IH, Hid. reflexivity.
  - rewrite likeSelected_cons. cbn [likeSelected_step]. rewrite !flatten_folder.
    cbn [List.map item_id]. rewrite !List.map_app, IHch, IHrest. reflexivity.
Qed.

(** X13. After the batch like with a non-empty selection of media items,
    every media item of the tree whose id is selected is liked by the user
    when some selected item was not (and liked by the user no more when
    all were); every other media item is an item of the tree before; the
    identifiers of the tree are unchanged. *)
Theorem handleLikeSelected_sets_all
    (T processedItems : list GalleryContentItem) (selectedIds : gset string)
    (userId : string) :
  let selected := selectedMediaItems processedItems selectedIds in
  let shouldLike := negb (areAllSelectedLiked selected userId) in
  let T' := handleLikeSelected T processedItems selectedIds userId in
  selected <> [] ->
  (forall m, In (Media m) (flatten T') -> In (m_id m) (List.map m_id selected) ->
             isLikedBy userId m = shouldLike)
  /\ (forall m, In (Media m) (flatten T') -> ~ In (m_id m) (List.map m_id selected) ->
                In (Media m) (flatten T))
  /\ List.map item_id (flatten T') = List.map item_id (flatten T).
Proof.
  cbn zeta. intros Hne. unfold handleLikeSelected.
  destruct (selectedMediaItems processedItems selectedIds) as [|s0 sel] eqn:Esel;
    [congruence|].
  cbn [length Nat.eqb].
  set (selected := s0 :: sel) in *.
  set (ids := list_to_set (List.map m_id selected) : gset string).
  set (b := negb (areAllSelectedLiked selected userId)).
  split; [|split].
  - intros m' Hin Hsel.
    destruct (likeSelected_origin ids b userId T m' Hin) as (m & Hm & Hs).
    cbn [likeSelected_step] in Hs.
    assert (Hid : m_id m' = m_id m).
    { destruct (has ids (m_id m)); [|congruence].
      destruct (b && negb _); [injection Hs as <-; reflexivity|].
      destruct (negb b && _); [injection Hs as <-; reflexivity|congruence]. }
    assert (Hhas : has ids (m_id m) = true).
    { apply has_list_to_set. rewrite <- Hid. exact Hsel. }
    rewrite Hhas in Hs. unfold isLikedBy.
    destruct b; cbn [andb negb] in Hs.
    + destruct (JS.arrayIncludes (m_likedBy m) userId) eqn:E; cbn [negb] in Hs;
        injection Hs as <-; [exact E|].
      cbn [withLikedBy m_likedBy]. apply arrayIncludes_In, in_or_app.
      right. left. reflexivity.
    + destruct (JS.arrayIncludes (m_likedBy m) userId) eqn:E;
        injection Hs as <-; [|exact E].
      cbn [withLikedBy m_likedBy].
      destruct (JS.arrayIncludes (withoutUser userId (m_likedBy m)) userId) eqn:E';
        [|reflexivity].
      apply arrayIncludes_In, withoutUser_In in E'. tauto.
  - intros m' Hin Hsel.
    destruct (likeSelected_origin ids b userId T m' Hin) as (m & Hm & Hs).
    cbn [likeSelected_step] in Hs.
    destruct (has ids (m_id m)) eqn:Hhas; [|congruence].
    exfalso. apply Hsel. apply has_list_to_set in Hhas.
    destruct (b && negb _); [injection Hs as <-; exact Hhas|].
    destruct (negb b && _); [injection Hs as <-; exact Hhas|].
    injection Hs as <-. exact Hhas.
  - apply likeSelected_ids.
Qed.

Lemma handleLikeSelected_sets_all_witness :
  selectedMediaItems Samples.weddingTree {[ "p3" ]} <> []
  /\ isLikedBy "u1" (withLikedBy (Samples.photo "p3" "Portrait") ["u1"]) = true
  /\ List.map item_id
       (flatten (handleLikeSelected Samples.weddingTree Samples.weddingTree
                   {[ "p3" ]} "u1"))
     = List.map item_id (flatten Samples.weddingTree).
Proof.
  assert (Hne : selectedMediaItems Samples.weddingTree {[ "p3" ]} <> []).
  { intros E. vm_compute in E. discriminate E. }
  pose proof (handleLikeSelected_sets_all Samples.weddingTree Samples.weddingTree
                {[ "p3" ]} "u1") as H.
  cbn zeta in H. destruct (H Hne) as (Hliked & _ & Hids).
  split; [exact Hne|]. split; [|exact Hids].
  apply Hliked.
  - vm_compute. right. right. right. right. left. reflexivity.
  - vm_compute. left. reflexivity.
Defined.

End CommentFacts.

(** ** Soft delete, restore and permanent delete *)

Module RecycleFacts.
Import Notions MoreNotions Gallery Handlers FlattenFacts MoveFacts.

Lemma has_singleton i x : has {[ i ]} x = String.eqb x i.
Proof.
  unfold has. destruct (String.eqb_spec x i) as [->|E].
  - apply bool_decide_eq_true. set_solver.
  - apply bool_decide_eq_false. set_solver.
Qed.

Lemma modify_cons ids b n rest :
  modifyRecursively ids b (n :: rest)
  = modifyRecursively_step ids b n :: modifyRecursively ids b rest.
Proof. reflexivity. Qed.

Lemma modify_step_target ids b n :
  targeted ids n = true -> modifyRecursively_step ids b n = setIsDeleted n b.
Proof.
  unfold targeted. intros H. destruct n; simpl in *; rewrite H; reflexivity.
Qed.

Lemma modify_step_folder ids b id name ch d :
  has ids id = false ->
  modifyRecursively_step ids b (FolderNode id name ch d)
  = FolderNode id name (modifyRecursively ids b ch) d.
Proof. intros H. simpl. rewrite H. reflexivity. Qed.

Lemma modify_step_media ids b m :
  has ids (m_id m) = false -> modifyRecursively_step ids b (Media m) = Media m.
Proof. intros H. simpl. rewrite H. reflexivity. Qed.

Lemma setIsDeleted_id n b : item_id (setIsDeleted n b) = item_id n.
Proof. destruct n; reflexivity. Qed.

Lemma setIsDeleted_children n b : item_children (setIsDeleted n b) = item_children n.
Proof. destruct n; reflexivity. Qed.

Lemma setIsDeleted_twice n b1 b2 :
  setIsDeleted (setIsDeleted n b1) b2 = setIsDeleted n b2.
Proof. destruct n; reflexivity. Qed.

Lemma modify_ids ids b T :
  List.map item_id (flatten (modifyRecursively ids b T))
  = List.map item_id (flatten T).
Proof.
  induction T as [| m rest IH | id name ch d rest IHch IHrest] using forest_ind.
  - reflexivity.
  - rewrite modify_cons. destruct (has ids (m_id m)) eqn:E.
    + rewrite modify_step_target by exact E. cbn [setIsDeleted].
      rewrite !flatten_media. cbn [List.map item_id m_id]. rewrite IH. reflexivity.
    + rewrite modify_step_media by exact E. rewrite !flatten_media.
      cbn [List.map]. rewrite IH. reflexivity.
  - rewrite modify_cons. destruct (has ids id) eqn:E.
    + rewrite modify_step_target by exact E. cbn [setIsDeleted].
      rewrite !flatten_folder. cbn [List.map item_id]. rewrite !List.map_app, IHrest.
      reflexivity.
    + rewrite modify_step_folder by exact E. rewrite !flatten_folder.
      cbn [List.map item_id]. rewrite !List.map_app, IHch, IHrest. reflexivity.
Qed.

Lemma modify_twice ids b1 b2 T :
  modifyRecursively ids b2 (modifyRecursively ids b1 T) = modifyRecursively ids b2 T.
Proof.
  induction T as [| m rest IH | id name ch d rest IHch IHrest] using forest_ind.
  - reflexivity.
  - rewrite !modify_cons, IH. f_equal. destruct (has ids (m_id m)) eqn:E.
    + rewrite (modify_step_target ids b1) by exact E.
      rewrite !modify_step_target; [apply setIsDeleted_twice|exact E|].
      unfold targeted. rewrite setIsDeleted_id. exact E.
    + rewrite (modify_step_media ids b1) by exact E. reflexivity.
  - rewrite !modify_cons, IHrest. f_equal. destruct (has ids id) eqn:E.
    + rewrite (modify_step_target ids b1) by exact E.
      rewrite !modify_step_target; [apply setIsDeleted_twice|exact E|].
      unfold targeted. rewrite setIsDeleted_id. exact E.
    + rewrite !modify_step_folder by exact E. rewrite IHch. reflexivity.
Qed.

(** X14. Soft-deleting one item from its menu is the batch soft delete
    with that item alone selected. *)
Theorem handleSoftDeleteItem_is_singleton_batch
    (T : list GalleryContentItem) (itemId : string) :
  handleSoftDeleteItem T itemId = modifyItemsDeletedState T {[ itemId ]} true.
Proof.
  unfold handleSoftDeleteItem, modifyItemsDeletedState.
  induction T as [| m rest IH | id name ch d rest IHch IHrest] using forest_ind.
  - reflexivity.
  - rewrite modify_cons. cbn [List.map]. rewrite IH. f_equal.
    cbn [softDeleteItem_step modifyRecursively_step item_id].
    rewrite has_singleton. reflexivity.
  - rewrite modify_cons. cbn [List.map]. rewrite IHrest. f_equal.
    cbn [softDeleteItem_step modifyRecursively_step item_id].
    rewrite has_singleton. destruct (String.eqb id itemId); [reflexivity|].
    f_equal. exact IHch.
Qed.

(** X15. The batch change of the deleted flag keeps the identifiers of
    the tree in pre-order, and the last of two changes with the same
    selection wins: restoring right after deleting gives the tree that
    restoring alone gives. *)
Theorem modifyItemsDeletedState_last_wins
    (T : list GalleryContentItem) (selectedIds : gset string) (first last : bool) :
  List.map item_id (flatten (modifyItemsDeletedState T selectedIds first))
  = List.map item_id (flatten T)
  /\ modifyItemsDeletedState (modifyItemsDeletedState T selectedIds first)
       selectedIds last
     = modifyItemsDeletedState T selectedIds last.
Proof.
  unfold modifyItemsDeletedState. split; [apply modify_ids|apply modify_twice].
Qed.

(** *** Which nodes get the flag *)

Lemma modify_lookup ids b T i :
  modifyRecursively ids b T !! i
  = option_map (modifyRecursively_step ids b) (T !! i).
Proof. unfold modifyRecursively. apply MutateFacts.lookup_map. Qed.

Lemma belowTarget_step ids T i j q x :
  T !! i = Some x ->
  belowTarget ids T (i :: j :: q)
  = targeted ids x || belowTarget ids (item_children x) (j :: q).
Proof. intros Hx. cbn [belowTarget]. rewrite Hx. reflexivity. Qed.

Lemma nodeAt_step T i j q x :
  T !! i = Some x -> nodeAt T (i :: j :: q) = nodeAt (item_children x) (j :: q).
Proof. intros Hx. cbn [nodeAt]. rewrite Hx. reflexivity. Qed.

Lemma nodeAt_miss T i q : T !! i = None -> nodeAt T (i :: q) = None.
Proof. intros Hx. cbn [nodeAt]. rewrite Hx. reflexivity. Qed.

Lemma nodeAt_single T i : nodeAt T [i] = T !! i.
Proof. cbn [nodeAt]. destruct (T !! i); reflexivity. Qed.

(** X16. The batch change of the deleted flag keeps the shape of the
    tree.  A targeted node that is not inside a targeted folder gets the
    flag and keeps everything else, its children included; a node inside
    a targeted folder is returned as it is, targeted or not; every other
    node keeps its own fields. *)
Theorem modifyItemsDeletedState_frame
    (T : list GalleryContentItem) (selectedIds : gset string) (isDeleted : bool)
    (p : list nat) :
  match nodeAt T p with
  | None => nodeAt (modifyItemsDeletedState T selectedIds isDeleted) p = None
  | Some n =>
      if belowTarget selectedIds T p
      then nodeAt (modifyItemsDeletedState T selectedIds isDeleted) p = Some n
      else if targeted selectedIds n
      then nodeAt (modifyItemsDeletedState T selectedIds isDeleted) p
           = Some (setIsDeleted n isDeleted)
      else exists n',
          nodeAt (modifyItemsDeletedState T selectedIds isDeleted) p = Some n'
          /\ sameFields n n'
  end.
Proof.
  unfold modifyItemsDeletedState. revert T.
  induction p as [|i q IH]; intros T; [reflexivity|].
  destruct (T !! i) as [x|] eqn:Hx.
  - assert (Hx' : modifyRecursively selectedIds isDeleted T !! i
                  = Some (modifyRecursively_step selectedIds isDeleted x)).
    { rewrite modify_lookup, Hx. reflexivity. }
    destruct q as [|j q'].
    + rewrite !nodeAt_single, Hx, Hx'. cbn [belowTarget].
      destruct (targeted selectedIds x) eqn:Et.
      * rewrite modify_step_target by exact Et. reflexivity.
      * eexists. split; [reflexivity|].
        destruct x as [m|id name ch d].
        -- rewrite modify_step_media by exact Et. reflexivity.
        -- rewrite modify_step_folder by exact Et. simpl. repeat split.
           unfold modifyRecursively. rewrite length_map. reflexivity.
    + rewrite (nodeAt_step _ _ _ _ _ Hx), (nodeAt_step _ _ _ _ _ Hx'),
        (belowTarget_step _ _ _ _ _ _ Hx).
      destruct (targeted selectedIds x) eqn:Et.
      * rewrite modify_step_target by exact Et. rewrite setIsDeleted_children.
        cbn [orb]. destruct (nodeAt (item_children x) (j :: q')); reflexivity.
      * cbn [orb].
        assert (Hch : item_children (modifyRecursively_step selectedIds isDeleted x)
                      = modifyRecursively selectedIds isDeleted (item_children x)).
        { destruct x as [m|id name ch d].
          - rewrite modify_step_media by exact Et. reflexivity.
          - rewrite modify_step_folder by exact Et. reflexivity. }
        rewrite Hch. apply IH.
  - assert (Hx' : modifyRecursively selectedIds isDeleted T !! i = None).
    { rewrite modify_lookup, Hx. reflexivity. }
    rewrite (nodeAt_miss _ _ _ Hx), (nodeAt_miss _ _ _ Hx'). reflexivity.
Qed.

(** *** Permanent delete *)

Lemma delete_cons ids n rest :
  deleteRecursively ids (n :: rest)
  = if negb (has ids (item_id n))
    then deleteRecursively_step ids n :: deleteRecursively ids rest
    else deleteRecursively ids rest.
Proof. reflexivity. Qed.

Lemma delete_is_kept ids T : deleteRecursively ids T = kept ids T.
Proof.
  induction T as [| m rest IH | id name ch d rest IHch IHrest] using forest_ind.
  - reflexivity.
  - rewrite delete_cons, kept_cons, IH. cbn [item_id].
    destruct (has ids (m_id m)) eqn:E; cbn [negb].
    + rewrite keptItem_target by exact E. reflexivity.
    + rewrite keptItem_media by exact E. reflexivity.
  - rewrite delete_cons, kept_cons, IHrest. cbn [item_id].
    destruct (has ids id) eqn:E; cbn [negb].
    + rewrite keptItem_target by exact E. reflexivity.
    + rewrite keptItem_folder by exact E. cbn [deleteRecursively_step app].
      fold (deleteRecursively ids ch). rewrite IHch. reflexivity.
Qed.

(** X17. Permanent delete returns exactly the tree a move leaves behind
    after detaching the same selection; no node of the result is in the
    selection, however deep; every identifier occurs in it at most as
    often as before; deleting the same selection again changes
    nothing. *)
Theorem deleteRecursively_removes_selection
    (T : list GalleryContentItem) (idsToDelete : gset string) :
  deleteRecursively idsToDelete T = fst (findAndRemove idsToDelete T [])
  /\ Forall (fun n => has idsToDelete (item_id n) = false)
            (flatten (deleteRecursively idsToDelete T))
  /\ (forall d, occ d (deleteRecursively idsToDelete T) <= occ d T)
  /\ deleteRecursively idsToDelete (deleteRecursively idsToDelete T)
     = deleteRecursively idsToDelete T.
Proof.
  rewrite findAndRemove_spec, !delete_is_kept. cbn [fst].
  split; [reflexivity|]. split; [apply kept_clean|].
  split; [intros d; apply occ_kept|].
  apply clean_fixed, kept_clean.
Qed.

End RecycleFacts.

(** ** A move keeps the nodes of the tree *)

Module MoveMoreFacts.
Import Notions MoreNotions Gallery Handlers FlattenFacts MoveFacts.

Lemma occ_split ids d T :
  occ d (kept ids T) + occ d (encountered ids T) = occ d T.
Proof.
  induction T as [| m rest IH | id name ch del rest IHch IHrest] using forest_ind.
  - reflexivity.
  - rewrite kept_cons, encountered_cons, !occ_app, (occ_cons d (Media m) rest).
    destruct (targeted ids (Media m)) eqn:E.
    + rewrite keptItem_target, encounteredItem_target by exact E.
      rewrite (occ_cons d (Media m) []), ?occ_nil. lia.
    + rewrite keptItem_media, encounteredItem_media by exact E.
      rewrite (occ_cons d (Media m) []), ?occ_nil. lia.
  - rewrite kept_cons, encountered_cons, !occ_app,
      (occ_cons d (FolderNode id name ch del) rest).
    destruct (targeted ids (FolderNode id name ch del)) eqn:E.
    + rewrite keptItem_target, encounteredItem_target by exact E.
      rewrite (occ_cons d (FolderNode id name ch del) []), ?occ_nil. lia.
    + rewrite keptItem_folder, encounteredItem_folder by exact E.
      rewrite (occ_cons d (FolderNode id name (kept ids ch) del) []), ?occ_nil.
      simpl item_id. simpl item_children. lia.
Qed.

Lemma occ_addInto dest M d X :
  occ d (addInto dest M X) = occ d X + hits dest X * occ d M.
Proof.
  induction X as [| m rest IH | id name ch del rest IHch IHrest] using forest_ind.
  - reflexivity.
  - rewrite addInto_cons_media, !(occ_cons d (Media m)), IH, hits_cons.
    simpl hitsItem. lia.
  - rewrite addInto_cons_folder, hits_cons. simpl hitsItem. fold (hits dest ch).
    rewrite (occ_cons d (FolderNode id name ch del) rest).
    destruct (String.eqb id dest).
    + rewrite occ_cons. simpl item_id. simpl item_children.
      rewrite occ_app, IHrest. lia.
    + rewrite occ_cons. simpl item_id. simpl item_children.
      rewrite IHch, IHrest. lia.
Qed.

Lemma count_split ids T :
  countNodes (kept ids T) + countNodes (encountered ids T) = countNodes T.
Proof.
  rewrite <- !flatten_length.
  induction T as [| m rest IH | id name ch del rest IHch IHrest] using forest_ind.
  - reflexivity.
  - rewrite kept_cons, encountered_cons, !flatten_app, !length_app, flatten_media.
    destruct (targeted ids (Media m)) eqn:E.
    + rewrite keptItem_target, encounteredItem_target by exact E. simpl. lia.
    + rewrite keptItem_media, encounteredItem_media by exact E. simpl. lia.
  - rewrite kept_cons, encountered_cons, !flatten_app, !length_app, flatten_folder.
    destruct (targeted ids (FolderNode id name ch del)) eqn:E.
    + rewrite keptItem_target, encounteredItem_target by exact E.
      rewrite (flatten_folder id name ch del []). simpl.
      rewrite !length_app. simpl. lia.
    + rewrite keptItem_folder, encounteredItem_folder by exact E.
      rewrite (flatten_folder id name (kept ids ch) del []). simpl.
      rewrite !length_app. simpl. lia.
Qed.

Lemma count_addInto dest M X :
  countNodes (addInto dest M X) = countNodes X + hits dest X * countNodes M.
Proof.
  rewrite <- !flatten_length.
  induction X as [| m rest IH | id name ch del rest IHch IHrest] using forest_ind.
  - reflexivity.
  - rewrite addInto_cons_media, !flatten_media, hits_cons. simpl. rewrite IH. lia.
  - rewrite addInto_cons_folder, hits_cons. simpl hitsItem. fold (hits dest ch).
    destruct (String.eqb id dest); rewrite !flatten_folder; simpl;
      rewrite !length_app, ?flatten_app, ?length_app, ?IHch, IHrest; lia.
Qed.

(** X18. A move to a valid destination in a tree with unique identifiers
    neither loses nor duplicates a node: every identifier occurs in the
    result as often as before, the number of nodes is the same, and the
    identifiers of the result are unique again. *)
Theorem moveItems_keeps_nodes
    (T : list GalleryContentItem) (selectedIds : gset string) (dest : string) :
  uniqueIds T -> validDestination T selectedIds dest ->
  (forall d, occ d (moveItems T selectedIds dest) = occ d T)
  /\ countNodes (moveItems T selectedIds dest) = countNodes T
  /\ uniqueIds (moveItems T selectedIds dest).
Proof.
  intros Hu Hv.
  assert (Hocc : forall d, occ d (moveItems T selectedIds dest) = occ d T).
  { intros d. rewrite moveItems_eq, <- (occ_split selectedIds d T).
    destruct (String.eqb dest "root") eqn:Eroot.
    - apply String.eqb_eq in Eroot. subst dest. rewrite findAndAdd_root, occ_app.
      reflexivity.
    - rewrite findAndAdd_folder by exact Eroot.
      destruct Hv as [->|[Hf Hfree]]; [discriminate|].
      rewrite occ_addInto, (valid_destination_hit T selectedIds dest Hu Hf Hfree). lia. }
  split; [exact Hocc|]. split.
  - rewrite moveItems_eq, <- (count_split selectedIds T).
    destruct (String.eqb dest "root") eqn:Eroot.
    + apply String.eqb_eq in Eroot. subst dest. rewrite findAndAdd_root.
      apply countNodes_app.
    + rewrite findAndAdd_folder by exact Eroot.
      destruct Hv as [->|[Hf Hfree]]; [discriminate|].
      rewrite count_addInto, (valid_destination_hit T selectedIds dest Hu Hf Hfree). lia.
  - unfold uniqueIds. apply (NoDup_count_occ string_dec). intros d.
    fold (occ d (moveItems T selectedIds dest)). rewrite Hocc.
    apply unique_occ, Hu.
Qed.

Lemma moveItems_keeps_nodes_witness :
  countNodes (moveItems Samples.weddingTree {[ "p1"; "p3" ]} "reception") = 5
  /\ uniqueIds (moveItems Samples.weddingTree {[ "p1"; "p3" ]} "reception").
Proof.
  destruct (moveItems_keeps_nodes Samples.weddingTree {[ "p1"; "p3" ]} "reception"
              weddingTree_unique reception_valid) as (_ & Hc & Hu).
  split; [exact Hc|exact Hu].
Defined.

End MoveMoreFacts.

(** ** Navigation and new folders *)

Module NavigationFacts.
Import Notions MoreNotions Gallery Handlers FlattenFacts MoveFacts.

Lemma findFolder_some listing fid f :
  findFolder listing fid = Some f ->
  In f listing /\ item_id f = fid /\ isFolder f = true.
Proof.
  unfold findFolder. intros H. apply find_some in H. destruct H as [Hin Hp].
  apply andb_prop in Hp. destruct Hp as [Hid Hf].
  apply String.eqb_eq in Hid. auto.
Qed.

Lemma loop_resolves root path : forall cur crumbs cf final,
  ResolvesTo cur path final ->
  pr_items (getItemsForPath_loop root cur crumbs cf path)
  = List.filter notDeleted final
  /\ List.map crumb_id (pr_breadcrumbs (getItemsForPath_loop root cur crumbs cf path))
     = List.map crumb_id crumbs ++ path
  /\ match path with
     | [] => pr_currentFolder (getItemsForPath_loop root cur crumbs cf path) = cf
     | _ :: _ =>
         exists f,
           pr_currentFolder (getItemsForPath_loop root cur crumbs cf path) = Some f
           /\ isFolder f = true
           /\ last path = Some (item_id f)
           /\ item_children f = final
     end.
Proof.
  induction path as [|fid rest IH]; intros cur crumbs cf final H.
  - inversion H; subst. simpl. rewrite app_nil_r. auto.
  - inversion H as [|? ? ? f ? Hf Hrest]; subst.
    cbn [getItemsForPath_loop]. rewrite Hf.
    destruct (findFolder_some _ _ _ Hf) as (_ & Hid & Hfold).
    destruct (IH (item_children f) (crumbs ++ [mkCrumb (item_id f) (item_name f)])
                (Some f) final Hrest) as (I1 & I2 & I3).
    split; [exact I1|]. split.
    + rewrite I2, List.map_app. cbn [List.map crumb_id]. rewrite Hid, <- app_assoc.
      reflexivity.
    + destruct rest as [|g rest'].
      * exists f. split; [exact I3|]. split; [exact Hfold|].
        inversion Hrest; subst. split; reflexivity.
      * destruct I3 as (f' & E1 & E2 & E3 & E4). exists f'.
        split; [exact E1|]. split; [exact E2|]. split; [exact E3|exact E4].
Qed.

Lemma resolves_prefix cur path final (k : nat) :
  ResolvesTo cur path final -> exists final', ResolvesTo cur (take k path) final'.
Proof.
  intros H. revert k. induction H as [l|l fid rest f final Hf Hrest IH]; intros k.
  - exists l. destruct k; constructor.
  - destruct k as [|k]; [exists l; constructor|].
    destruct (IH k) as [final' H']. exists final'. simpl.
    econstructor; eauto.
Qed.

Lemma loop_crumbs_prefix root path : forall cur crumbs cf final (k : nat),
  ResolvesTo cur path final ->
  pr_breadcrumbs (getItemsForPath_loop root cur crumbs cf (take k path))
  = take (length crumbs + k)
         (pr_breadcrumbs (getItemsForPath_loop root cur crumbs cf path)).
Proof.
  induction path as [|fid rest IH]; intros cur crumbs cf final k H.
  - rewrite take_nil. simpl. rewrite take_ge by lia. reflexivity.
  - inversion H as [|? ? ? f ? Hf Hrest]; subst.
    destruct k as [|k].
    + cbn [take getItemsForPath_loop pr_breadcrumbs]. rewrite Hf.
      assert (Hpre : forall p c cur' cf' fin, ResolvesTo cur' p fin ->
                take (length crumbs)
                     (pr_breadcrumbs (getItemsForPath_loop root cur' (crumbs ++ c) cf' p))
                = crumbs).
      { induction p as [|g p' IHp]; intros c cur' cf' fin Hres.
        - simpl. rewrite take_app_le by lia. apply take_ge. lia.
        - inversion Hres as [|? ? ? f' ? Hf' Hrest']; subst.
          cbn [getItemsForPath_loop]. rewrite Hf', <- app_assoc.
          eapply IHp. exact Hrest'. }
      rewrite Nat.add_0_r. symmetry. eapply Hpre. exact Hrest.
    + cbn [take getItemsForPath_loop]. rewrite Hf.
      rewrite (IH _ _ _ final k Hrest). rewrite length_app. simpl.
      f_equal. lia.
Qed.

(** X19. For a path that resolves, the listing is the non-deleted part of
    the children of the last folder of the path, the breadcrumb ids are
    "root" followed by the path, and the current folder is the folder
    named by the last segment (none for the empty path).  Clicking the
    breadcrumb at index k leads to the view whose breadcrumbs are the
    first k+1 breadcrumbs of the present view.  Whatever the path, no
    entry of the listing is deleted. *)
Theorem getItemsForPath_valid_path
    (T : list GalleryContentItem) (path : list string)
    (final : list GalleryContentItem) :
  ResolvesTo T path final ->
  pr_items (getItemsForPath T path) = List.filter notDeleted final
  /\ List.map crumb_id (pr_breadcrumbs (getItemsForPath T path)) = "root" :: path
  /\ match path with
     | [] => pr_currentFolder (getItemsForPath T path) = None
     | _ :: _ =>
         exists f, pr_currentFolder (getItemsForPath T path) = Some f
                   /\ isFolder f = true
                   /\ last path = Some (item_id f)
                   /\ item_children f = final
     end
  /\ (forall k : nat,
        pr_breadcrumbs (getItemsForPath T (handleBreadcrumbClick path k))
        = take (S k) (pr_breadcrumbs (getItemsForPath T path)))
  /\ (forall anyPath,
        Forall (fun n => notDeleted n = true) (pr_items (getItemsForPath T anyPath))).
Proof.
  intros H. unfold getItemsForPath.
  destruct (loop_resolves T path T [homeCrumb] None final H) as (I1 & I2 & I3).
  split; [exact I1|]. split; [exact I2|]. split; [exact I3|]. split.
  - intros k. unfold handleBreadcrumbClick.
    exact (loop_crumbs_prefix T path T [homeCrumb] None final k H).
  - intros anyPath. apply StatsFacts.listing_live.
Qed.

Lemma getItemsForPath_valid_path_witness :
  List.map crumb_id
    (pr_breadcrumbs (getItemsForPath Samples.weddingTree ["wedding"; "reception"]))
  = ["root"; "wedding"; "reception"]
  /\ pr_breadcrumbs
       (getItemsForPath Samples.weddingTree
          (handleBreadcrumbClick ["wedding"; "reception"] 1))
     = [mkCrumb "root" "Home"; mkCrumb "wedding" "Wedding"].
Proof.
  assert (H : ResolvesTo Samples.weddingTree ["wedding"; "reception"]
                [Media (Samples.photo "p2" "Dance")]).
  { econstructor; [reflexivity|]. econstructor; [reflexivity|]. constructor. }
  destruct (getItemsForPath_valid_path _ _ _ H) as (_ & H2 & _ & H4 & _).
  split; [exact H2|]. rewrite (H4 1%nat). reflexivity.
Defined.

(** *** New folders *)

Lemma addFolder_cons nf l fid rest :
  addFolderToPath nf l (fid :: rest) = List.map (addFolder_step nf fid rest) l.
Proof. reflexivity. Qed.

Lemma addFolder_step_pred nf fid rest g x :
  (String.eqb (item_id (addFolder_step nf fid rest x)) g
   && isFolder (addFolder_step nf fid rest x))
  = (String.eqb (item_id x) g && isFolder x).
Proof.
  destruct x as [m|id name ch d]; [reflexivity|]. simpl.
  destruct (String.eqb id fid); reflexivity.
Qed.

Lemma findFolder_addFolder nf fid rest l g :
  findFolder (List.map (addFolder_step nf fid rest) l) g
  = option_map (addFolder_step nf fid rest) (findFolder l g).
Proof.
  unfold findFolder. induction l as [|x l IH]; [reflexivity|].
  cbn [List.map List.find]. rewrite addFolder_step_pred.
  destruct (String.eqb (item_id x) g && isFolder x); [reflexivity|exact IH].
Qed.

Lemma addFolder_resolves nf cur path final :
  ResolvesTo cur path final ->
  ResolvesTo (addFolderToPath nf cur path) path (final ++ [nf]).
Proof.
  induction 1 as [l|l fid rest f final Hf Hrest IH].
  - constructor.
  - rewrite addFolder_cons.
    apply (resolves_cons _ _ _ (addFolder_step nf fid rest f)).
    + rewrite findFolder_addFolder, Hf. reflexivity.
    + destruct (findFolder_some _ _ _ Hf) as (_ & Hid & Hfold).
      destruct f as [m|id name ch d]; [discriminate|].
      simpl in Hid. subst id. simpl. rewrite String.eqb_refl. exact IH.
Qed.

Lemma top_in_flatten x T : In x T -> In x (flatten T).
Proof.
  induction T as [|y T IH]; intros H; [destruct H|].
  rewrite flatten_cons. destruct H as [->|H]; [left; reflexivity|].
  right. apply in_or_app. right. exact (IH H).
Qed.

Lemma occ_children_le d x T : In x T -> occ d (item_children x) <= occ d T.
Proof.
  induction T as [|y T IH]; intros H; [destruct H|].
  rewrite occ_cons. destruct H as [->|H]; [lia|]. specialize (IH H). lia.
Qed.

Lemma map_fixed {A} (g : A -> A) l : (forall x, In x l -> g x = x) -> List.map g l = l.
Proof.
  induction l as [|x l IH]; intros H; [reflexivity|].
  simpl. rewrite H by (left; reflexivity). f_equal. apply IH.
  intros y Hy. apply H. right. exact Hy.
Qed.

Lemma one_id_one_node (l : list GalleryContentItem) a b d :
  In a l -> In b l -> item_id a = d -> item_id b = d ->
  count_occ string_dec (List.map item_id l) d <= 1 -> a = b.
Proof.
  induction l as [|x l IH]; intros Ha Hb Hida Hidb Hc; [destruct Ha|].
  simpl in Hc. destruct Ha as [->|Ha], Hb as [->|Hb].
  - reflexivity.
  - exfalso. destruct (string_dec (item_id a) d); [|congruence].
    assert (In d (List.map item_id l)) as H by (rewrite <- Hidb; apply in_map, Hb).
    apply (count_occ_In string_dec) in H. lia.
  - exfalso. destruct (string_dec (item_id b) d); [|congruence].
    assert (In d (List.map item_id l)) as H by (rewrite <- Hida; apply in_map, Ha).
    apply (count_occ_In string_dec) in H. lia.
  - apply IH; try assumption. destruct (string_dec (item_id x) d); lia.
Qed.

Lemma addFolder_fails nf path : forall T,
  occBound T -> FailsToResolve T path -> addFolderToPath nf T path = T.
Proof.
  induction path as [|fid rest IH]; intros T Hb Hfail; [inversion Hfail|].
  rewrite addFolder_cons. apply map_fixed. intros x Hx.
  destruct x as [m|id name ch d]; [reflexivity|]. simpl.
  destruct (String.eqb_spec id fid) as [->|E]; [|reflexivity].
  inversion Hfail as [? ? ? Hnone | ? ? ? f Hf Hrest]; subst.
  - specialize (Hnone _ Hx eq_refl). discriminate.
  - destruct (findFolder_some _ _ _ Hf) as (Hin & Hid & Hfold).
    assert (f = FolderNode fid name ch d) as ->.
    { apply (one_id_one_node (flatten T) _ _ fid
               (top_in_flatten _ _ Hin) (top_in_flatten _ _ Hx) Hid eq_refl).
      exact (Hb fid). }
    f_equal. apply IH; [|exact Hrest].
    intros e. pose proof (occ_children_le e _ _ Hx). specialize (Hb e).
    simpl in *. lia.
Qed.

(** X20. A new folder with a blank name (white space only, U+00A0 and
    the other Unicode spaces included) changes nothing.  Otherwise,
    when the current path resolves, the listing of the current folder
    after the handler is the listing before with the new, empty folder
    (name trimmed) at its end, under the same breadcrumbs; and when the
    path does not resolve in a tree with unique identifiers, the content
    is returned unchanged. *)
Theorem handleConfirmNewFolder_appends
    (T : list GalleryContentItem) (currentPath : list string)
    (newFolderName freshId : string) :
  let newFolder := FolderNode freshId (JS.trim newFolderName) [] None in
  let T' := handleConfirmNewFolder T currentPath newFolderName freshId in
  (JS.trim newFolderName = EmptyString -> T' = T)
  /\ (JS.isBlank newFolderName = true -> T' = T)
  /\ (JS.trim newFolderName <> EmptyString ->
      forall final, ResolvesTo T currentPath final ->
        pr_items (getItemsForPath T' currentPath)
        = pr_items (getItemsForPath T currentPath) ++ [newFolder]
        /\ List.map crumb_id (pr_breadcrumbs (getItemsForPath T' currentPath))
           = List.map crumb_id (pr_breadcrumbs (getItemsForPath T currentPath)))
  /\ (JS.trim newFolderName <> EmptyString -> uniqueIds T ->
      FailsToResolve T currentPath -> T' = T).
Proof.
  cbn zeta. unfold handleConfirmNewFolder.
  destruct (String.eqb_spec (JS.trim newFolderName) EmptyString) as [E|E].
  - split; [reflexivity|]. split; [reflexivity|]. split; intros; congruence.
  - split; [congruence|]. split.
    { intros B. apply CommentFacts.trim_empty_iff in B. congruence. }
    split.
    + intros _ final H.
      pose proof (addFolder_resolves
                    (FolderNode freshId (JS.trim newFolderName) [] None) _ _ _ H) as H'.
      destruct (getItemsForPath_valid_path _ _ _ H) as (I1 & I2 & _).
      destruct (getItemsForPath_valid_path _ _ _ H') as (J1 & J2 & _).
      rewrite I1, I2, J1, J2, List.filter_app. split; reflexivity.
    + intros _ Hu Hfail. apply addFolder_fails; [|exact Hfail].
      intros d. apply unique_occ, Hu.
Qed.

Lemma handleConfirmNewFolder_appends_witness :
  List.map item_id
    (pr_items (getItemsForPath
                 (handleConfirmNewFolder Samples.weddingTree ["wedding"] " Toasts " "f9")
                 ["wedding"]))
  = ["p1"; "reception"; "f9"]
  /\ handleConfirmNewFolder Samples.weddingTree ["p1"] "Toasts" "f9"
     = Samples.weddingTree
  /\ handleConfirmNewFolder Samples.weddingTree ["wedding"]
       (MoreSamples.nbsp ++ " " ++ MoreSamples.emSpace) "f9"
     = Samples.weddingTree.
Proof.
  pose proof (handleConfirmNewFolder_appends Samples.weddingTree ["wedding"]
                " Toasts " "f9") as H1.
  pose proof (handleConfirmNewFolder_appends Samples.weddingTree ["p1"]
                "Toasts" "f9") as H2.
  pose proof (handleConfirmNewFolder_appends Samples.weddingTree ["wedding"]
                (MoreSamples.nbsp ++ " " ++ MoreSamples.emSpace) "f9") as H3.
  cbn zeta in H1, H2, H3.
  destruct H1 as (_ & _ & Hok & _). destruct H2 as (_ & _ & _ & Hfail).
  destruct H3 as (_ & Hblank & _).
  split; [|split; [|apply Hblank; reflexivity]].
  - assert (Hres : ResolvesTo Samples.weddingTree ["wedding"]
                      [ Media (Samples.photo "p1" "Ceremony");
                        FolderNode "reception" "Reception"
                          [Media (Samples.photo "p2" "Dance")] None ]).
    { econstructor; [reflexivity|constructor]. }
    destruct (Hok ltac:(discriminate) _ Hres) as [E _].
    rewrite E. reflexivity.
  - apply Hfail; [discriminate|exact weddingTree_unique|].
    apply fails_here. intros n Hin Hid. simpl in Hin.
    destruct Hin as [<-|[<-|[]]]; [discriminate|reflexivity].
Defined.

End NavigationFacts.

(** ** Selection, the viewer index and the media service *)

Module SelectionFacts.
Import Notions MoreNotions Gallery Handlers AuthService MediaService.

#[local] Set Warnings "-clear-no-such-hyp".

(** X21. Toggling an item flips its membership in the selection and no
    other; toggling it twice gives back the selection. *)
Theorem handleToggleSelectItem_involution (selectedIds : gset string) (id : string) :
  (has (handleToggleSelectItem selectedIds id) id = negb (has selectedIds id))
  /\ (forall other, other <> id ->
        has (handleToggleSelectItem selectedIds id) other = has selectedIds other)
  /\ handleToggleSelectItem (handleToggleSelectItem selectedIds id) id = selectedIds.
Proof.
  unfold handleToggleSelectItem, has.
  split; [|split].
  - repeat case_bool_decide; simpl; try reflexivity; set_solver.
  - intros other Hne. repeat case_bool_decide; simpl; try reflexivity; set_solver.
  - repeat case_bool_decide; apply leibniz_equiv; try set_solver.
    intros x. destruct (decide (x = id)) as [->|Hx]; set_solver.
Qed.

Lemma forallb_has_all (l : list GalleryContentItem) :
  forallb (fun item => has (list_to_set (List.map item_id l)) (item_id item)) l = true.
Proof.
  apply forallb_forall. intros x Hx. apply CommentFacts.has_list_to_set.
  apply in_map. exact Hx.
Qed.

(** X22. "Select all" on a non-empty listing that is not wholly selected
    makes the selection the ids of the listing, no more and no less, after
    which the listing is wholly selected; used again it empties the
    selection.  On an empty listing nothing ever counts as wholly
    selected and the selection becomes empty. *)
Theorem handleToggleSelectAll_cycle
    (processedItems : list GalleryContentItem) (selectedIds : gset string) :
  (processedItems <> [] -> areAllSelected processedItems selectedIds = false ->
   let selectedAll := handleToggleSelectAll processedItems selectedIds in
   (forall id, has selectedAll id = true <-> In id (List.map item_id processedItems))
   /\ areAllSelected processedItems selectedAll = true
   /\ handleToggleSelectAll processedItems selectedAll = ∅)
  /\ (processedItems = [] ->
      areAllSelected processedItems selectedIds = false
      /\ handleToggleSelectAll processedItems selectedIds = ∅).
Proof.
  split.
  - intros Hne Hnot. cbn zeta.
    assert (Hsel : handleToggleSelectAll processedItems selectedIds
                   = list_to_set (List.map item_id processedItems)).
    { unfold handleToggleSelectAll. rewrite Hnot. reflexivity. }
    rewrite Hsel.
    assert (Hall : areAllSelected processedItems
                     (list_to_set (List.map item_id processedItems)) = true).
    { unfold areAllSelected. destruct processedItems as [|x l]; [congruence|].
      cbn [length Nat.eqb]. apply forallb_has_all. }
    split; [intros id; apply CommentFacts.has_list_to_set|].
    split; [exact Hall|].
    unfold handleToggleSelectAll. rewrite Hall. reflexivity.
  - intros ->. split; reflexivity.
Qed.

Lemma handleToggleSelectAll_cycle_witness :
  areAllSelected Samples.mixedListing
    (handleToggleSelectAll Samples.mixedListing {[ "fa" ]}) = true.
Proof.
  pose proof (handleToggleSelectAll_cycle Samples.mixedListing {[ "fa" ]}) as [H _].
  cbn zeta in H. apply H; [discriminate|reflexivity].
Defined.

(** X23. In the media viewer, stepping from an index inside the list of
    displayable items gives an index inside it: one more or one less,
    and the same index at either end; with no item open nothing
    happens. *)
Theorem handleNavigation_in_range
    (index : Z) (displayable : nat) (direction : Direction) :
  (0 <= index < Z.of_nat displayable)%Z ->
  (exists index', handleNavigation (Some index) displayable direction = Some index'
                  /\ (0 <= index' < Z.of_nat displayable)%Z
                  /\ index'
                     = match direction with
                       | Next => if (index + 1 <? Z.of_nat displayable)%Z
                                 then (index + 1)%Z else index
                       | Previous => if (0 <? index)%Z then (index - 1)%Z else index
                       end)
  /\ handleNavigation None displayable direction = None.
Proof.
  intros Hr. split; [|reflexivity]. unfold handleNavigation.
  destruct direction.
  - destruct (Z.ltb_spec (index + 1) (Z.of_nat displayable)).
    + replace (0 <=? index + 1)%Z with true by (symmetry; apply Z.leb_le; lia).
      simpl. eexists. split; [reflexivity|]. split; [lia|reflexivity].
    + rewrite andb_false_r. eexists. split; [reflexivity|]. split; [lia|reflexivity].
  - destruct (Z.ltb_spec 0 index).
    + replace (0 <=? index - 1)%Z with true by (symmetry; apply Z.leb_le; lia).
      replace (index - 1 <? Z.of_nat displayable)%Z with true
        by (symmetry; apply Z.ltb_lt; lia).
      simpl. eexists. split; [reflexivity|]. split; [lia|reflexivity].
    + replace (0 <=? index - 1)%Z with false by (symmetry; apply Z.leb_gt; lia).
      simpl. eexists. split; [reflexivity|]. split; [lia|reflexivity].
Qed.

Lemma handleNavigation_in_range_witness :
  handleNavigation (Some 2%Z) 3 Next = Some 2%Z
  /\ handleNavigation (Some 2%Z) 3 Previous = Some 1%Z.
Proof.
  destruct (handleNavigation_in_range 2 3 Next ltac:(lia)) as [(i & E & _ & ->) _].
  destruct (handleNavigation_in_range 2 3 Previous ltac:(lia)) as [(j & E' & _ & ->) _].
  split; [exact E|exact E'].
Defined.

(** X24. The media request rejects, with the message "Could not find
    media for this user.", exactly when no mock client has the user id;
    and for the user a successful login returns, the media request over
    the same table resolves with the gallery of a client whose user has
    that id. *)
Theorem getMediaForUser_after_login
    (clients : list ClientData) (username password userId : string) :
  (getMediaForUser clients userId = Rejected "Could not find media for this user."
   <-> ~ exists c, In c clients /\ u_id (cd_user c) = userId)
  /\ (forall user, login clients username password = Resolved user ->
        exists c, In c clients /\ u_id (cd_user c) = u_id user
                  /\ getMediaForUser clients (u_id user) = Resolved (cd_gallery c)).
Proof.
  split.
  - unfold getMediaForUser.
    destruct (List.find _ clients) as [c|] eqn:E.
    + apply find_some in E. destruct E as [Hin Hid]. apply String.eqb_eq in Hid.
      split; [discriminate|]. intros H. exfalso. apply H. eauto.
    + split; [|reflexivity]. intros _ (c & Hin & Hid).
      pose proof (find_none _ _ E c Hin) as Hn. simpl in Hn.
      rewrite Hid, String.eqb_refl in Hn. discriminate.
  - intros user Hlogin. unfold login in Hlogin.
    destruct (List.find _ clients) as [c0|] eqn:E0; [|discriminate].
    injection Hlogin as <-. apply find_some in E0. destruct E0 as [Hin0 _].
    unfold getMediaForUser.
    destruct (List.find (fun client => String.eqb (u_id (cd_user client))
                                         (u_id (cd_user c0))) clients) as [c|] eqn:E.
    + apply find_some in E. destruct E as [Hin Hid]. apply String.eqb_eq in Hid.
      exists c. auto.
    + pose proof (find_none _ _ E c0 Hin0) as Hn. simpl in Hn.
      rewrite String.eqb_refl in Hn. discriminate.
Qed.

Lemma getMediaForUser_after_login_witness :
  exists c, In c Samples.mockClients
            /\ getMediaForUser Samples.mockClients "u2" = Resolved (cd_gallery c).
Proof.
  destruct (getMediaForUser_after_login Samples.mockClients "bob" "builder" "u2")
    as [_ H].
  destruct (H (mkUser "u2" "bob" "builder" "Bob" None) eq_refl) as (c & Hin & _ & E).
  exists c. split; [exact Hin|exact E].
Defined.

End SelectionFacts.

(** ** The circular-move guard of the move dialog *)

Module MoveDialogFacts.
Import Gallery Notions MoreNotions MoveDialog FlattenFacts.

Lemma buildMap_flatten T : forall M,
  buildMap T M
  = fold_left (fun acc n => <[ item_id n := n ]> acc) (flatten T) M.
Proof.
  induction T as [| m rest IH | id name ch d rest IHch IHrest] using forest_ind;
    intros M.
  - reflexivity.
  - rewrite flatten_media.
    change (buildMap (Media m :: rest) M)
      with (buildMap rest (<[ m_id m := Media m ]> M)).
    rewrite IH. reflexivity.
  - rewrite flatten_folder.
    change (buildMap (FolderNode id name ch d :: rest) M)
      with (buildMap rest (buildMap ch (<[ id := FolderNode id name ch d ]> M))).
    rewrite IHrest, IHch. cbn [fold_left]. rewrite fold_left_app. reflexivity.
Qed.

Lemma lookup_stored_other (l : list GalleryContentItem) :
  forall (M : gmap string GalleryContentItem) k,
  ~ In k (List.map item_id l) ->
  fold_left (fun acc n => <[ item_id n := n ]> acc) l M !! k = M !! k.
Proof.
  induction l as [|x l IH]; intros M k Hk; [reflexivity|].
  cbn [fold_left]. rewrite IH by (intros H; apply Hk; right; exact H).
  apply lookup_insert_ne. intros E. apply Hk. left. exact E.
Qed.

Lemma lookup_stored (l : list GalleryContentItem) :
  forall (M : gmap string GalleryContentItem) n,
  List.NoDup (List.map item_id l) -> In n l ->
  fold_left (fun acc n => <[ item_id n := n ]> acc) l M !! item_id n = Some n.
Proof.
  induction l as [|x l IH]; intros M n Hnd Hin; [destruct Hin|].
  cbn [List.map] in Hnd. inversion Hnd as [|? ? Hx Hl]; subst.
  cbn [fold_left]. destruct Hin as [->|Hin].
  - rewrite lookup_stored_other by exact Hx. apply lookup_insert_eq.
  - apply IH; assumption.
Qed.

(** With unique identifiers the map holds every node under its id and
    nothing else. *)
Lemma buildMap_stores T :
  uniqueIds T -> storesAll (buildMap T ∅) T.
Proof.
  intros Hu n Hin. rewrite buildMap_flatten. apply lookup_stored; assumption.
Qed.

Lemma buildMap_only T k n :
  buildMap T ∅ !! k = Some n -> uniqueIds T -> In n (flatten T) /\ item_id n = k.
Proof.
  intros Hl Hu.
  destruct (in_dec string_dec k (List.map item_id (flatten T))) as [Hin|Hout].
  - apply in_map_iff in Hin. destruct Hin as (x & Hid & Hx).
    pose proof (buildMap_stores T Hu x Hx) as Hs. rewrite Hid in Hs.
    rewrite Hs in Hl. injection Hl as <-. split; assumption.
  - rewrite buildMap_flatten, lookup_stored_other in Hl by exact Hout.
    rewrite lookup_empty in Hl. discriminate Hl.
Qed.

Lemma folderIdSet_nil : folderIdSet [] = ∅.
Proof. reflexivity. Qed.

Lemma folderIdSet_media m rest :
  folderIdSet (Media m :: rest) = folderIdSet rest.
Proof. reflexivity. Qed.

Lemma folderIdSet_folder id name ch d rest :
  folderIdSet (FolderNode id name ch d :: rest)
  = {[ id ]} ∪ folderIdSet ch ∪ folderIdSet rest.
Proof.
  unfold folderIdSet. rewrite flatten_folder. cbn [List.filter isFolder].
  rewrite List.filter_app. cbn [List.map item_id list_to_set].
  rewrite List.map_app, list_to_set_app_L. apply (assoc_L (∪)).
Qed.

Lemma elem_folderIdSet d T :
  d ∈ folderIdSet T <-> folderIn d T.
Proof.
  unfold folderIdSet, folderIn. rewrite elem_of_list_to_set, list_elem_of_In.
  rewrite in_map_iff. split.
  - intros (x & Hid & Hx). apply List.filter_In in Hx. destruct Hx as [Hx Hf].
    destruct x as [m|id name ch del]; [discriminate Hf|].
    simpl in Hid. subst id. exists name, ch, del. exact Hx.
  - intros (name & ch & del & Hx). exists (FolderNode d name ch del).
    split; [reflexivity|]. apply List.filter_In. split; [exact Hx|reflexivity].
Qed.

Lemma countItem_le n T : In n (flatten T) -> countItem n <= countNodes T.
Proof.
  induction T as [| m rest IH | id name ch d rest IHch IHrest] using forest_ind.
  - intros [].
  - rewrite flatten_media, countNodes_cons. intros [<-|H]; [simpl; lia|].
    specialize (IH H). lia.
  - rewrite flatten_folder, countNodes_cons. cbn [item_children].
    intros [<-|H].
    + cbn [countItem]. fold (countNodes ch). lia.
    + apply in_app_or in H. destruct H as [H|H];
        [specialize (IHch H)|specialize (IHrest H)]; lia.
Qed.

(** The loop over the children of a folder, with enough depth left and
    every node of the listing stored under its id: the ids of all
    folders of the listing are added. *)
Lemma getDescendantIds_children (M : gmap string GalleryContentItem) l :
  forall depth disabled,
  (forall n, In n (flatten l) -> M !! item_id n = Some n) ->
  countNodes l <= depth ->
  fold_left
    (fun acc child =>
       match acc with
       | None => None
       | Some disabled =>
           match child with
           | FolderNode childId _ _ _ => getDescendantIds depth M childId disabled
           | Media _ => Some disabled
           end
       end)
    l (Some disabled)
  = Some (disabled ∪ folderIdSet l).
Proof.
  induction l as [| m rest IH | id name ch d rest IHch IHrest] using forest_ind;
    intros depth disabled Hst Hc.
  - cbn [fold_left]. rewrite folderIdSet_nil. f_equal. symmetry.
    apply (right_id_L ∅ (∪)).
  - cbn [fold_left]. rewrite folderIdSet_media. apply IH.
    + intros n Hn. apply Hst. rewrite flatten_media. right. exact Hn.
    + rewrite countNodes_cons in Hc. lia.
  - rewrite countNodes_cons in Hc. cbn [item_children] in Hc.
    destruct depth as [|depth']; [lia|].
    cbn [fold_left].
    assert (Hself : M !! id = Some (FolderNode id name ch d)).
    { apply (Hst (FolderNode id name ch d)). rewrite flatten_folder. left.
      reflexivity. }
    assert (Hd : getDescendantIds (S depth') M id disabled
                 = Some ({[ id ]} ∪ disabled ∪ folderIdSet ch)).
    { cbn [getDescendantIds]. rewrite Hself. apply IHch; [|lia].
      intros n Hn. apply Hst. rewrite flatten_folder. right.
      apply in_or_app. left. exact Hn. }
    rewrite Hd, IHrest.
    + rewrite folderIdSet_folder. f_equal.
      rewrite (comm_L (∪) {[ id ]} disabled).
      rewrite <- !(assoc_L (∪)). reflexivity.
    + intros n Hn. apply Hst. rewrite flatten_folder. right.
      apply in_or_app. right. exact Hn.
    + lia.
Qed.

Lemma getDescendantIds_folder (M : gmap string GalleryContentItem)
    depth id name ch d disabled :
  (forall n, In n (flatten [FolderNode id name ch d]) -> M !! item_id n = Some n) ->
  countItem (FolderNode id name ch d) <= depth ->
  getDescendantIds depth M id disabled
  = Some (disabled ∪ folderIdSet [FolderNode id name ch d]).
Proof.
  intros Hst Hc. cbn [countItem] in Hc. fold (countNodes ch) in Hc.
  destruct depth as [|depth']; [lia|].
  assert (Hself : M !! id = Some (FolderNode id name ch d)).
  { apply (Hst (FolderNode id name ch d)). rewrite flatten_folder. left.
    reflexivity. }
  cbn [getDescendantIds]. rewrite Hself.
  rewrite getDescendantIds_children.
  - rewrite folderIdSet_folder, folderIdSet_nil. f_equal.
    rewrite (right_id_L ∅ (∪)).
    rewrite (comm_L (∪) {[ id ]} disabled).
    rewrite <- !(assoc_L (∪)). reflexivity.
  - intros n Hn. apply Hst. rewrite flatten_folder, flatten_nil, app_nil_r.
    right. exact Hn.
  - lia.
Qed.

Section MovingIds.
Variable T : list GalleryContentItem.
Variable depth : nat.
Hypothesis Hu : uniqueIds T.
Hypothesis Hdepth : countNodes T <= depth.

(** The loop over the moving ids. *)
Lemma disabled_loop (l : list string) :
  forall d0,
  exists D,
    fold_left
      (fun acc id =>
         match acc with
         | None => None
         | Some disabled =>
             match buildMap T ∅ !! id with
             | Some (FolderNode _ _ _ _) =>
                 getDescendantIds depth (buildMap T ∅) id disabled
             | _ => Some disabled
             end
         end)
      l (Some d0) = Some D
    /\ forall x, x ∈ D <->
         x ∈ d0 \/ exists n, In (item_id n) l /\ In n (flatten T)
                             /\ isFolder n = true /\ folderIn x [n].
Proof.
  induction l as [|id l IH]; intros d0.
  - exists d0. split; [reflexivity|]. intros x. split; [intros H; left; exact H|].
    intros [H|(n & [] & _)]. exact H.
  - cbn [fold_left].
    destruct (buildMap T ∅ !! id) as [[m|i nm ch dl]|] eqn:Hl.
    + destruct (IH d0) as (D & HD & Hchar). exists D. split; [exact HD|].
      intros x. rewrite Hchar. split.
      * intros [H|(n & Hn & Hin & Hf & Hx)]; [left; exact H|].
        right. exists n. split; [right; exact Hn|]. repeat split; assumption.
      * intros [H|(n & [Hn|Hn] & Hin & Hf & Hx)]; [left; exact H| |].
        -- pose proof (buildMap_stores T Hu n Hin) as Hs.
           rewrite Hn, Hs in Hl. injection Hl as ->. discriminate Hf.
        -- right. exists n. repeat split; assumption.
    + destruct (buildMap_only T id _ Hl Hu) as [Hin Hid]. simpl in Hid. subst i.
      rewrite (getDescendantIds_folder _ depth id nm ch dl d0).
      * destruct (IH (d0 ∪ folderIdSet [FolderNode id nm ch dl]))
          as (D & HD & Hchar).
        exists D. split; [exact HD|]. intros x. rewrite Hchar.
        rewrite elem_of_union, elem_folderIdSet. split.
        -- intros [[H|H]|(n & Hn & Hin' & Hf & Hx)].
           ++ left. exact H.
           ++ right. exists (FolderNode id nm ch dl).
              split; [left; reflexivity|]. repeat split; assumption.
           ++ right. exists n. split; [right; exact Hn|].
              repeat split; assumption.
        -- intros [H|(n & [Hn|Hn] & Hin' & Hf & Hx)].
           ++ left. left. exact H.
           ++ pose proof (buildMap_stores T Hu n Hin') as Hs.
              rewrite <- Hn in Hs.
              assert (En : n = FolderNode id nm ch dl) by congruence.
              rewrite En in Hx. left. right. exact Hx.
           ++ right. exists n. repeat split; assumption.
      * intros n Hn. apply (buildMap_stores T Hu).
        apply (flatten_node_in _ T Hin). exact Hn.
      * pose proof (countItem_le _ T Hin). lia.
    + destruct (IH d0) as (D & HD & Hchar). exists D. split; [exact HD|].
      intros x. rewrite Hchar. split.
      * intros [H|(n & Hn & Hin & Hf & Hx)]; [left; exact H|].
        right. exists n. split; [right; exact Hn|]. repeat split; assumption.
      * intros [H|(n & [Hn|Hn] & Hin & Hf & Hx)]; [left; exact H| |].
        -- pose proof (buildMap_stores T Hu n Hin) as Hs.
           rewrite Hn, Hs in Hl. discriminate Hl.
        -- right. exists n. repeat split; assumption.
Qed.

End MovingIds.

(** X25. The set of folders the move dialog disables.  For a tree with
    unique identifiers the calls of getDescendantIds never nest deeper
    than the tree has nodes, so the computation ends, and an id is
    disabled exactly when it is the id of a moved folder or of a folder
    inside a moved folder.  Hence every folder of the tree the dialog
    leaves enabled is a destination for which a move keeps the items
    (neither moved nor inside a moved folder), and every disabled id is
    a folder at or below a moved node. *)
Theorem disabledFolderIds_guards_moves
    (T : list GalleryContentItem) (ids : gset string) (depth : nat) :
  uniqueIds T -> countNodes T <= depth ->
  exists disabled,
    disabledFolderIds depth T ids = Some disabled
    /\ (forall d, d ∈ disabled <->
          exists n, In n (flatten T) /\ targeted ids n = true
                    /\ isFolder n = true /\ folderIn d [n])
    /\ (forall d, folderIn d T -> d ∉ disabled -> validDestination T ids d)
    /\ (forall d, d ∈ disabled -> folderIn d T /\ underTarget ids d T).
Proof.
  intros Hu Hc.
  destruct (disabled_loop T depth Hu Hc (elements ids) ∅) as (D & HD & Hchar).
  assert (Hmem : forall d, d ∈ D <->
            exists n, In n (flatten T) /\ targeted ids n = true
                      /\ isFolder n = true /\ folderIn d [n]).
  { intros d. rewrite Hchar. split.
    - intros [H|(n & Hn & Hin & Hf & Hx)]; [exfalso; exact (not_elem_of_empty _ H)|].
      exists n. split; [exact Hin|]. split; [|split; assumption].
      unfold targeted, has. apply bool_decide_eq_true.
      apply elem_of_elements, list_elem_of_In. exact Hn.
    - intros (n & Hin & Ht & Hf & Hx). right. exists n.
      split; [|repeat split; assumption].
      unfold targeted, has in Ht. apply bool_decide_eq_true in Ht.
      apply list_elem_of_In, elem_of_elements. exact Ht. }
  assert (Hbelow : forall d, d ∈ D -> folderIn d T /\ underTarget ids d T).
  { intros d Hd. apply Hmem in Hd. destruct Hd as (n & Hin & Ht & Hf & Hx).
    destruct Hx as (name & ch & del & Hx). split.
    - exists name, ch, del. apply (flatten_node_in n T Hin). exact Hx.
    - exists n. split; [exact Hin|]. split; [exact Ht|].
      apply in_map_iff. exists (FolderNode d name ch del).
      split; [reflexivity|exact Hx]. }
  exists D. split; [exact HD|]. split; [exact Hmem|]. split; [|exact Hbelow].
  intros d Hfold Hout. right. split; [exact Hfold|].
  intros (n & Hin & Ht & Hd). apply Hout, Hmem.
  apply in_map_iff in Hd. destruct Hd as (x & Hid & Hx).
  destruct Hfold as (name & ch & del & HF).
  assert (E : x = FolderNode d name ch del).
  { apply (NavigationFacts.one_id_one_node (flatten T) _ _ d
             (flatten_node_in n T Hin x Hx) HF Hid eq_refl).
    apply (proj1 (NoDup_count_occ string_dec _) Hu). }
  subst x. exists n. split; [exact Hin|]. split; [exact Ht|]. split.
  - destruct n as [m|]; [|reflexivity].
    destruct Hx as [Hx|[]]. discriminate Hx.
  - exists name, ch, del. exact Hx.
Qed.

Lemma disabledFolderIds_guards_moves_witness :
  exists disabled,
    disabledFolderIds 5 Samples.weddingTree {[ "wedding"; "p3" ]} = Some disabled
    /\ "reception" ∈ disabled.
Proof.
  destruct (disabledFolderIds_guards_moves Samples.weddingTree
              {[ "wedding"; "p3" ]} 5 MoveFacts.weddingTree_unique)
    as (D & HD & Hmem & _).
  - vm_compute. lia.
  - exists D. split; [exact HD|]. apply Hmem.
    exists (FolderNode "wedding" "Wedding"
              [ Media (Samples.photo "p1" "Ceremony");
                FolderNode "reception" "Reception"
                  [Media (Samples.photo "p2" "Dance")] None ] None).
    split; [left; reflexivity|]. split; [reflexivity|]. split; [reflexivity|].
    exists "Reception", [Media (Samples.photo "p2" "Dance")], None.
    right. right. left. reflexivity.
Defined.

End MoveDialogFacts.
